(** * runtest.py: the golden-transcript comparison engine

    A shallow embedding of [runtest.py] (the test driver of the dim
    repository) and the properties of its transcript comparison code:
    line classification, table extraction, regex annotation, the greedy
    row matcher, the line comparator and the transcript driver.

    The script is Python 3 code (it takes [zip_longest] from
    [itertools]).  Python [str] values are modelled as [string]; a
    character stands for a code point below 256.  A value that may be a [str] or a [bytes] (what
    the pipe of a subprocess gives) is a [text].  Python lists are [list]s,
    the [matched] dict of [match_table] is a [gmap nat nat], and an
    exception is the [None] of an [option]; the driver ends in an
    [outcome], which tells an exception from [sys.exit].  A file is given
    by the characters stored in it, taken to be decoded without error; the
    script runs where the line end of a file written in text mode is
    LF. *)

From Stdlib Require Import Ascii String ZArith Lia Bool.
From stdpp Require Import gmap strings list sorting fin_maps.

Local Open Scope Z_scope.
Local Open Scope nat_scope.

(** ** Python string operations used by the script *)

Module PyStr.

Definition LF : ascii := "010"%char.
Definition TAB : ascii := "009"%char.
Definition NL : string := String LF "".

(** [str.isspace] on one character, for code points below 256. *)
Definition is_space (c : ascii) : bool :=
  let n := nat_of_ascii c in
  ((9 <=? n) && (n <=? 13)) || ((28 <=? n) && (n <=? 32))
  || (n =? 133) || (n =? 160).

Definition len (s : string) : nat := String.length s.

Fixpoint eqb_ascii_in (c : ascii) (cs : string) : bool :=
  match cs with
  | EmptyString => false
  | String d cs' => Ascii.eqb c d || eqb_ascii_in c cs'
  end.

(** [s.lstrip(chars)], [s.rstrip(chars)] and [s.strip(chars)] for a
    predicate on characters. *)
Fixpoint lstrip_by (p : ascii -> bool) (s : string) : string :=
  match s with
  | EmptyString => EmptyString
  | String c s' => if p c then lstrip_by p s' else s
  end.

Fixpoint rstrip_by (p : ascii -> bool) (s : string) : string :=
  match s with
  | EmptyString => EmptyString
  | String c s' =>
      match rstrip_by p s' with
      | EmptyString => if p c then EmptyString else String c EmptyString
      | r => String c r
      end
  end.

Definition strip_by (p : ascii -> bool) (s : string) : string :=
  rstrip_by p (lstrip_by p s).

(** [s.strip()] *)
Definition strip (s : string) : string := strip_by is_space s.

(** [s.strip(chars)] *)
Definition strip_chars (chars : string) (s : string) : string :=
  strip_by (fun c => eqb_ascii_in c chars) s.

(** [s.startswith(p)] *)
Fixpoint startswith (s p : string) : bool :=
  match p, s with
  | EmptyString, _ => true
  | String _ _, EmptyString => false
  | String a p', String b s' => Ascii.eqb a b && startswith s' p'
  end.

(** [s[n:]] for [n >= 0] *)
Fixpoint str_drop (n : nat) (s : string) : string :=
  match n, s with
  | O, _ => s
  | S n', String _ s' => str_drop n' s'
  | S _, EmptyString => EmptyString
  end.

(** [s[:n]] for [n >= 0] *)
Fixpoint str_take (n : nat) (s : string) : string :=
  match n, s with
  | O, _ => EmptyString
  | S n', String c s' => String c (str_take n' s')
  | S _, EmptyString => EmptyString
  end.

(** [s.endswith(p)] *)
Definition endswith (s p : string) : bool :=
  (len p <=? len s) && String.eqb (str_drop (len s - len p) s) p.

(** [s[:-n]] for [n > 0] *)
Definition drop_last (n : nat) (s : string) : string :=
  str_take (len s - n) s.

(** [sub in s] *)
Fixpoint contains (s sub : string) : bool :=
  startswith s sub
  || match s with
     | EmptyString => false
     | String _ s' => contains s' sub
     end.

(** The least index [i] with [s[i:]] starting with [sub], if any. *)
Fixpoint index_of (s sub : string) : option nat :=
  if startswith s sub then Some 0
  else match s with
       | EmptyString => None
       | String _ s' => S <$> index_of s' sub
       end.

(** [s.find(sub, start)] for [start >= 0]: the lowest index at or after
    [start] where [sub] occurs, or [-1]. *)
Definition find (s sub : string) (start : nat) : Z :=
  if len s <? start then (-1)%Z
  else match index_of (str_drop start s) sub with
       | Some i => Z.of_nat (start + i)
       | None => (-1)%Z
       end.

(** A slice bound as Python clamps it: a negative bound counts from the
    end, and the result lies in [0, len]. *)
Definition clamp (n : nat) (i : Z) : nat :=
  let j := if (i <? 0)%Z then (i + Z.of_nat n)%Z else i in
  Z.to_nat (Z.min (Z.max j 0) (Z.of_nat n)).

(** [s[a:b]] *)
Definition slice (s : string) (a b : Z) : string :=
  let a' := clamp (len s) a in
  let b' := clamp (len s) b in
  str_take (b' - a') (str_drop a' s).

(** [s.split(sep)] for a single-character separator: at least one piece;
    empty pieces are kept. *)
Fixpoint split_on (sep : ascii) (s : string) : list string :=
  match s with
  | EmptyString => [EmptyString]
  | String c s' =>
      if Ascii.eqb c sep then EmptyString :: split_on sep s'
      else match split_on sep s' with
           | [] => [String c EmptyString]
           | w :: ws => String c w :: ws
           end
  end.

(** [s.split(sep, 1)] for a single-character separator. *)
Fixpoint split_first (sep : ascii) (s : string) : list string :=
  match s with
  | EmptyString => [EmptyString]
  | String c s' =>
      if Ascii.eqb c sep then [EmptyString; s']
      else match split_first sep s' with
           | [] => [String c EmptyString]
           | w :: ws => String c w :: ws
           end
  end.

(** [s.split()]: the maximal runs of non-space characters.  [cur] is the
    run being read, reversed. *)
Fixpoint split_ws_go (cur : string) (s : string) : list string :=
  match s with
  | EmptyString =>
      match cur with EmptyString => [] | _ => [String.rev cur] end
  | String c s' =>
      if is_space c
      then match cur with
           | EmptyString => split_ws_go EmptyString s'
           | _ => String.rev cur :: split_ws_go EmptyString s'
           end
      else split_ws_go (String c cur) s'
  end.

Definition split_ws (s : string) : list string := split_ws_go EmptyString s.

(** Line boundaries of [str.splitlines], for code points below 256:
    LF, VT, FF, FS, GS, RS, NEL; CR and CR LF are handled apart. *)
Definition is_linebreak (c : ascii) : bool :=
  let n := nat_of_ascii c in
  (n =? 10) || (n =? 11) || (n =? 12) || (n =? 28) || (n =? 29)
  || (n =? 30) || (n =? 133).

Definition CR : ascii := "013"%char.

(** [s.splitlines(True)]: the lines with their line ends kept.  [cur] is
    the line being read, reversed. *)
Fixpoint splitlines_go (cur : string) (s : string) : list string :=
  match s with
  | EmptyString =>
      match cur with EmptyString => [] | _ => [String.rev cur] end
  | String c s' =>
      if is_linebreak c
      then String.rev (String c cur) :: splitlines_go EmptyString s'
      else if Ascii.eqb c CR
      then match s' with
           | String d s'' =>
               if Ascii.eqb d LF
               then String.rev (String d (String c cur))
                      :: splitlines_go EmptyString s''
               else String.rev (String c cur) :: splitlines_go EmptyString s'
           | EmptyString => [String.rev (String c cur)]
           end
      else splitlines_go (String c cur) s'
  end.

Definition splitlines_keep (s : string) : list string :=
  splitlines_go EmptyString s.

(** [a + b + ...] and [''.join(l)] *)
Definition join (l : list string) : string :=
  foldr String.append EmptyString l.

(** The characters of [s], each as a string of length one: what iterating
    over a [str] yields. *)
Fixpoint chars (s : string) : list string :=
  match s with
  | EmptyString => []
  | String c s' => String c EmptyString :: chars s'
  end.

(** [sorted(l)] and [l.sort()] on strings: ascending in the
    lexicographic order of the code points. *)
Definition sort (l : list string) : list string :=
  merge_sort String.le l.

(** A [bytes] value, its bytes written as characters. *)
Definition bytes : Type := string.

(** A value that is a [str] or a [bytes]: what the pipe of a subprocess
    gives is a [bytes]. *)
Inductive text : Type :=
| Str (s : string)
| Bytes (b : bytes).

(** [a + s] with [s] a [str]: a [bytes] on the left raises [TypeError]. *)
Definition add_str (a : text) (s : string) : option string :=
  match a with
  | Str a => Some (a +:+ s)
  | Bytes _ => None
  end.

(** [a == s] with [s] a [str]: a [bytes] equals no [str]. *)
Definition text_is (a : text) (s : string) : bool :=
  match a with
  | Str a => String.eqb a s
  | Bytes _ => false
  end.

Definition as_str (a : text) : option string :=
  match a with
  | Str a => Some a
  | Bytes _ => None
  end.

Definition as_bytes (a : text) : option bytes :=
  match a with
  | Str _ => None
  | Bytes b => Some b
  end.

(** [l.sort()] on a list of such values: a list of [str] or a list of
    [bytes] is sorted; comparing a [str] with a [bytes] raises
    [TypeError]. *)
Definition sort_texts (l : list text) : option (list text) :=
  match mapM as_str l with
  | Some strs => Some (Str <$> sort strs)
  | None =>
      match mapM (B := bytes) as_bytes l with
      | Some bs => Some (Bytes <$> sort bs)
      | None => None
      end
  end.

(** What a file opened in text mode gives for the characters stored:
    CR LF and a lone CR are read as LF (universal newlines). *)
Fixpoint universal_newlines (s : string) : string :=
  match s with
  | EmptyString => EmptyString
  | String c s' =>
      if Ascii.eqb c CR then
        match s' with
        | String d s'' =>
            if Ascii.eqb d LF then String LF (universal_newlines s'')
            else String LF (universal_newlines s')
        | EmptyString => String LF EmptyString
        end
      else String c (universal_newlines s')
  end.

(** The lines of a text, each with its LF; the last one may have none. *)
Fixpoint lines_of (s : string) : list string :=
  match s with
  | EmptyString => []
  | String c s' =>
      if Ascii.eqb c LF then String c EmptyString :: lines_of s'
      else match lines_of s' with
           | [] => [String c EmptyString]
           | line :: rest => String c line :: rest
           end
  end.

(** [f.readlines()] on a file opened with [open(name, 'r')], given the
    characters stored in the file. *)
Definition readlines (file : string) : list string :=
  lines_of (universal_newlines file).

End PyStr.

(** ** Python's [re] as the script uses it

    A pattern of the fragment below is parsed to a [node], and matching a
    [node] is by derivatives; the flag [bol] says whether the position is
    the start of the string.  The fragment has literals, [.], [^],
    character sets, [\d], escaped punctuation, groups, [|] and the
    quantifiers [*], [+] and [?]; every pattern that the script writes out
    is in it.  A pattern outside the fragment is left to the [re] module
    itself, which is a parameter (the class [Re]): it says whether
    [re.compile] raises on the pattern and, if not, what the compiled
    pattern matches. *)

Module PyRe.

Inductive node : Type :=
| Empty
| Eps
| Bol
| Chr (c : ascii)
| Dot
| Digit
| CSet (neg : bool) (items : list (ascii * ascii))
| Seq (r1 r2 : node)
| Alt (r1 r2 : node)
| Star (r : node).

Definition Plus (r : node) : node := Seq r (Star r).
Definition Opt (r : node) : node := Alt r Eps.

Definition is_digit (c : ascii) : bool :=
  let n := nat_of_ascii c in (48 <=? n) && (n <=? 57).

Definition in_range (c : ascii) (lohi : ascii * ascii) : bool :=
  (nat_of_ascii lohi.1 <=? nat_of_ascii c)
  && (nat_of_ascii c <=? nat_of_ascii lohi.2).

Fixpoint nullable (bol : bool) (r : node) : bool :=
  match r with
  | Empty | Chr _ | Dot | Digit | CSet _ _ => false
  | Eps | Star _ => true
  | Bol => bol
  | Seq r1 r2 => nullable bol r1 && nullable bol r2
  | Alt r1 r2 => nullable bol r1 || nullable bol r2
  end.

Definition mk_seq (r1 r2 : node) : node :=
  match r1, r2 with
  | Empty, _ | _, Empty => Empty
  | Eps, _ => r2
  | _, _ => Seq r1 r2
  end.

Definition mk_alt (r1 r2 : node) : node :=
  match r1, r2 with
  | Empty, _ => r2
  | _, Empty => r1
  | _, _ => Alt r1 r2
  end.

Definition step (b : bool) : node := if b then Eps else Empty.

(** What is left of [r] after it has read [c] at a position whose
    start-of-string flag is [bol]. *)
Fixpoint deriv (bol : bool) (c : ascii) (r : node) : node :=
  match r with
  | Empty | Eps | Bol => Empty
  | Chr d => step (Ascii.eqb c d)
  | Dot => step (negb (Ascii.eqb c PyStr.LF))
  | Digit => step (is_digit c)
  | CSet neg items => step (xorb neg (existsb (in_range c) items))
  | Seq r1 r2 =>
      mk_alt (mk_seq (deriv bol c r1) r2)
          (if nullable bol r1 then deriv bol c r2 else Empty)
  | Alt r1 r2 => mk_alt (deriv bol c r1) (deriv bol c r2)
  | Star r1 => mk_seq (deriv bol c r1) (Star r1)
  end.

(** Some prefix of [s] matches [r]. *)
Fixpoint prefix_match (bol : bool) (r : node) (s : string) : bool :=
  nullable bol r
  || match s with
     | EmptyString => false
     | String c s' => prefix_match false (deriv bol c r) s'
     end.


Fixpoint search_from (bol : bool) (r : node) (s : string) : bool :=
  prefix_match bol r s
  || match s with
     | EmptyString => false
     | String _ s' => search_from false r s'
     end.


(** *** Parsing a pattern *)

Definition is_quant (c : ascii) : bool :=
  PyStr.eqb_ascii_in c "*+?{".

Definition is_alnum (c : ascii) : bool :=
  let n := nat_of_ascii c in
  is_digit c || ((65 <=? n) && (n <=? 90)) || ((97 <=? n) && (n <=? 122)).

(** An optional quantifier after the atom [r].  A second quantifier
    character (lazy and possessive forms, counted repeats) is outside the
    fragment. *)
Definition parse_quant (r : node) (s : string) : option (node * string) :=
  match s with
  | String q s' =>
      if PyStr.eqb_ascii_in q "*+?" then
        match s' with
        | String q' _ => if is_quant q' then None else
            Some (if Ascii.eqb q "*" then Star r
                  else if Ascii.eqb q "+" then Plus r else Opt r, s')
        | EmptyString =>
            Some (if Ascii.eqb q "*" then Star r
                  else if Ascii.eqb q "+" then Plus r else Opt r, s')
        end
      else if Ascii.eqb q "{" then None
      else Some (r, s)
  | EmptyString => Some (r, s)
  end.

(** The items of a character set up to its closing bracket: single
    characters and ranges [a-z]; escapes inside a set are outside the
    fragment. *)
Fixpoint parse_set (s : string) : option (list (ascii * ascii) * string) :=
  match s with
  | EmptyString => None
  | String c s' =>
      if Ascii.eqb c "]" then Some ([], s')
      else if Ascii.eqb c "\" then None
      else if Ascii.eqb c "[" then None
      else
        match s' with
        | String "-" (String d s'') =>
            if Ascii.eqb d "]" then
              (* a trailing dash is a literal *)
              Some ([(c, c); ("-"%char, "-"%char)], s'')
            else if Ascii.eqb d "\" then None
            else if Ascii.eqb d "[" then None
            else if nat_of_ascii d <? nat_of_ascii c then None
            else '(items, rest) ← parse_set s''; Some ((c, d) :: items, rest)
        | _ => '(items, rest) ← parse_set s'; Some ((c, c) :: items, rest)
        end
  end.

Fixpoint parse_re (fuel : nat) (s : string) : option (node * string) :=
  match fuel with
  | O => None
  | S f =>
      '(r, rest) ← parse_branch f s;
      match rest with
      | String "|" rest' =>
          '(r2, rest'') ← parse_re f rest'; Some (Alt r r2, rest'')
      | _ => Some (r, rest)
      end
  end
with parse_branch (fuel : nat) (s : string) : option (node * string) :=
  match fuel with
  | O => None
  | S f =>
      match s with
      | EmptyString => Some (Eps, s)
      | String c _ =>
          if PyStr.eqb_ascii_in c "|)" then Some (Eps, s)
          else
            '(a, rest) ← parse_atom f s;
            '(r, rest') ← parse_branch f rest;
            Some (Seq a r, rest')
      end
  end
with parse_atom (fuel : nat) (s : string) : option (node * string) :=
  match fuel with
  | O => None
  | S f =>
      match s with
      | EmptyString => None
      | String c s' =>
          if Ascii.eqb c "(" then
            match s' with
            | String "?" _ => None
            | _ =>
                '(r, rest) ← parse_re f s';
                match rest with
                | String ")" rest' => parse_quant r rest'
                | _ => None
                end
            end
          else if Ascii.eqb c "[" then
            match s' with
            | String "]" _ => None
            | String "^" (String "]" _) => None
            | String "^" s'' =>
                '(items, rest) ← parse_set s''; parse_quant (CSet true items) rest
            | _ =>
                '(items, rest) ← parse_set s'; parse_quant (CSet false items) rest
            end
          else if Ascii.eqb c "." then parse_quant Dot s'
          else if Ascii.eqb c "^" then
            match s' with
            | String q _ => if is_quant q then None else Some (Bol, s')
            | EmptyString => Some (Bol, s')
            end
          else if Ascii.eqb c "\" then
            match s' with
            | String d s'' =>
                if Ascii.eqb d "d" then parse_quant Digit s''
                else if is_alnum d then None
                else parse_quant (Chr d) s''
            | EmptyString => None
            end
          else if PyStr.eqb_ascii_in c "*+?{$" then None
          else parse_quant (Chr c) s'
      end
  end.

(** The pattern read as one of the fragment. *)
Definition parse (pattern : string) : option node :=
  match parse_re (3 * PyStr.len pattern + 3) pattern with
  | Some (r, EmptyString) => Some r
  | _ => None
  end.

(** *** Compiled patterns *)

(** A compiled pattern: a pattern of the fragment, or any other pattern
    that [re.compile] accepts, with what [re.match] and [re.search] find
    for it on each string. *)
Inductive regex : Type :=
| Parsed (r : node)
| Foreign (pattern : string) (matches searches : string -> bool).

(** [re.match(r, s) is not None] *)
Definition re_match (r : regex) (s : string) : bool :=
  match r with
  | Parsed r => prefix_match true r s
  | Foreign _ matches _ => matches s
  end.

(** [re.search(r, s) is not None] *)
Definition re_search (r : regex) (s : string) : bool :=
  match r with
  | Parsed r => search_from true r s
  | Foreign _ _ searches => searches s
  end.

(** The [re] module on the patterns outside the fragment: [None] where
    [re.compile] raises [re.error], and otherwise what the compiled
    pattern matches and finds. *)
Class Re : Type := {
  re_other : string -> option ((string -> bool) * (string -> bool));
}.

(** A pattern that starts with a quantifier: [re.compile] raises
    (nothing to repeat). *)
Definition nothing_to_repeat (pattern : string) : bool :=
  match pattern with
  | String c _ => PyStr.eqb_ascii_in c "*+?"
  | EmptyString => false
  end.

(** [re.compile(pattern)]; [None] where it raises. *)
Definition compile `{Re} (pattern : string) : option regex :=
  match parse pattern with
  | Some r => Some (Parsed r)
  | None =>
      if nothing_to_repeat pattern then None
      else '(matches, searches) ← re_other pattern;
           Some (Foreign pattern matches searches)
  end.

(** [re.match(pattern, s)] and [re.search(pattern, s)] with the pattern
    given as text. *)
Definition match_str `{Re} (pattern s : string) : option bool :=
  r ← compile pattern; Some (re_match r s).

Definition search_str `{Re} (pattern s : string) : option bool :=
  r ← compile pattern; Some (re_search r s).

End PyRe.

(** ** The script *)

Module Runtest.
Import PyStr PyRe.

(** The patterns the script compiles or searches for, each with the text
    it is compiled from ([compiled_patterns] below). *)
Definition re_const (pattern : string) : regex :=
  Parsed (default Empty (parse pattern)).

Definition RE_GET_MARK : regex :=
  Eval vm_compute in re_const "(get|mark) (ip|delegation)".
Definition RE_CREATE_RR_FROM : regex :=
  Eval vm_compute in re_const "ndcli create rr .* from".
Definition RE_ANY : regex := Eval vm_compute in re_const ".*".
Definition RE_KEY_LABEL : regex := Eval vm_compute in re_const ".*_[zk]sk_.*".
Definition RE_DIGITS : regex := Eval vm_compute in re_const "\d*".
Definition RE_DIGIT : regex := Eval vm_compute in re_const "\d".
Definition RE_DS : regex := Eval vm_compute in re_const "\d+ 8 2 .*".
Definition RE_SERIAL : regex := Eval vm_compute in re_const "set_attr serial=\d+".
Definition RE_LIST_KEYS : regex := Eval vm_compute in re_const "list zone .* keys".
Definition RE_LIST_DNSKEYS : regex :=
  Eval vm_compute in re_const "list zone .* dnskeys".
Definition RE_LIST_DS : regex := Eval vm_compute in re_const "list zone .* ds".
Definition RE_CREATED_KEY : regex :=
  Eval vm_compute in re_const ".*Created key .*_[zk]sk_.* for zone (.*)".
Definition RE_CREATING_DS : regex :=
  Eval vm_compute in re_const ".*Creating RR .* DS \d+ 8 2 .* in zone .*".
Definition RE_DELETING_DS : regex :=
  Eval vm_compute in re_const ".*Deleting RR .* DS \d+ 8 2 .* from zone .*".

Definition is_ignorable (line : string) : bool :=
  (len (strip line) =? 0) || startswith line "#".

Definition generates_table (line : string) : bool :=
  startswith line "$ ndcli list" || startswith line "$ ndcli dump zone"
  || startswith line "$ ndcli history".

Definition generates_map (line : string) : bool :=
  startswith line "$ ndcli show" || startswith line "$ ndcli modify rr"
  || re_search RE_GET_MARK line || re_search RE_CREATE_RR_FROM line.

Definition is_pdns_query (line : string) : bool :=
  contains line "dig" || contains line "drill".

(** *** process_command *)

(** [zip_longest(l1, l2, fillvalue=...)], with the fill value on each
    side. *)
Fixpoint zip_longest {A B} (fill1 : A) (fill2 : B) (l1 : list A) (l2 : list B)
  : list (A * B) :=
  match l1 with
  | [] => (fun e => (fill1, e)) <$> l2
  | a :: l1' =>
      match l2 with
      | [] => (fun a => (a, fill2)) <$> l1
      | e :: l2' => (a, e) :: zip_longest fill1 fill2 l1' l2'
      end
  end.

(** [re.match(pattern, actual)]: raises on a pattern that does not
    compile, and on a [bytes] (a [str] pattern cannot be used on it). *)
Definition match_text `{Re} (pattern : string) (actual : text) : option bool :=
  r ← compile pattern;
  actual ← as_str actual;
  Some (re_match r actual).

(** One pass of the loop body: the file [out] is the list of the strings
    written to it so far.  An actual line is a [str] or a [bytes]; the
    expected line is a [str]. *)
Definition process_line `{Re} (st : list string * bool) (ae : text * string)
  : option (list string * bool) :=
  let '(out, passed) := st in
  let '(actual, expected) := ae in
  let expected := strip_chars NL expected in
  if endswith expected " re" then
    m ← match_text (drop_last 3 expected) actual;
    if (m : bool) then Some (out ++ [expected +:+ NL], passed)
    else written ← add_str actual NL; Some (out ++ [written], false)
  else
    written ← add_str actual NL;
    Some (out ++ [written],
          if text_is actual expected then passed else false).

Fixpoint process_lines `{Re} (st : list string * bool)
    (pairs : list (text * string)) : option (list string * bool) :=
  match pairs with
  | [] => Some st
  | ae :: rest => st' ← process_line st ae; process_lines st' rest
  end.

(** Returns the file after the writes and [passed]; [None] when it
    raises: on a pattern that does not compile, on sorting a list that
    mixes [str] and [bytes], and at the first actual line that is a
    [bytes]. *)
Definition process_command `{Re} (actual_output : list text)
    (expected_output : list string) (out : list string) (sort_before : bool)
  : option (list string * bool) :=
  actual_output ←
    (if sort_before then sort_texts actual_output else Some actual_output);
  let expected_output :=
    if sort_before then sort expected_output else expected_output in
  process_lines (out, true)
    (zip_longest (Str "") "" actual_output expected_output).

(** *** table_from_lines *)

(** A cell of a table: a [str], or a compiled pattern once [add_regex]
    has put one in its place. *)
Inductive cell : Type :=
| CStr (s : string)
| CRe (r : regex).

Definition find_offsets_step (line0 : string) (offsets : list Z)
    (header : string) : list Z :=
  let start_find :=
    match last offsets with
    | Some o => Z.to_nat (o + 1)
    | None => 0
    end in
  offsets ++ [find line0 header start_find].

Definition find_offsets (line0 : string) (headers : list string) : list Z :=
  foldl (find_offsets_step line0) [] headers.

Definition fixed_cell (line : string) (offsets : list Z) (col : nat)
    (offset : Z) : string :=
  if (offset <? Z.of_nat (len line))%Z then
    let next_offset :=
      if col <? length offsets - 1
      then Z.min (default 0%Z (offsets !! (col + 1))) (Z.of_nat (len line))
      else Z.of_nat (len line) in
    strip (slice line offset next_offset)
  else EmptyString.

Definition fixed_row (offsets : list Z) (line : string) : list string :=
  imap (fixed_cell line offsets) offsets.

Fixpoint drop_leading_ignorable (lines : list string) : list string :=
  match lines with
  | [] => []
  | line :: rest =>
      if is_ignorable line then drop_leading_ignorable rest else lines
  end.

Definition is_tab_shape (cmd : string) : bool :=
  contains cmd " -H" || contains cmd "dump zone".

Definition table_from_lines (lines : list string) (cmd : string)
  : list (list string) :=
  if generates_map cmd then
    split_first ":" <$> filter (fun line => is_ignorable line = false) lines
  else if is_tab_shape cmd then
    split_on TAB <$> filter (fun line => is_ignorable line = false) lines
  else
    match drop_leading_ignorable lines with
    | [] => []
    | (line0 :: _) as lines =>
        let headers := split_ws line0 in
        let offsets := find_offsets line0 headers in
        fixed_row offsets
          <$> filter (fun line => is_ignorable line = false) lines
    end.

(** *** add_regex *)

(** [l[i] = v]: an index out of range raises. *)
Definition setitem {A} (l : list A) (i : nat) (v : A) : option (list A) :=
  if decide (i < length l) then Some (<[i:=v]> l) else None.

(** [c == s] for a cell and a [str]: a pattern equals no [str]. *)
Definition cell_is (c : cell) (s : string) : bool :=
  match c with
  | CStr t => String.eqb t s
  | CRe _ => false
  end.

Definition annotate_map_row (row : list cell) : option (list cell) :=
  c ← row !! 0;
  if cell_is c "created" || cell_is c "modified" then
    setitem row 1 (CRe RE_ANY)
  else if cell_is c "created_by" || cell_is c "modified_by" then
    setitem row 1 (CRe RE_ANY)
  else Some row.

Definition annotate_keys_row (first : regex) (row : list cell)
  : option (list cell) :=
  row ← setitem row 0 (CRe first);
  row ← setitem row 2 (CRe RE_DIGITS);
  setitem row 5 (CRe RE_ANY).

Definition annotate_dnskeys_row (row : list cell) : option (list cell) :=
  row ← setitem row 0 (CRe RE_DIGITS);
  row ← setitem row 1 (CRe RE_DIGITS);
  setitem row 3 (CRe RE_ANY).

Definition annotate_ds_row (row : list cell) : option (list cell) :=
  row ← setitem row 0 (CRe RE_DIGITS);
  row ← setitem row 2 (CRe RE_DIGIT);
  setitem row 3 (CRe RE_ANY).

Definition SOA_TAIL : string := " \d+ \d+ \d+ \d+ \d+".

Definition annotate_rr_col `{Re} (rr_row : list cell) (rr_col : nat)
  : option (list cell) :=
  if rr_col + 1 <? length rr_row then
    c ← rr_row !! rr_col;
    if cell_is c "SOA" then
      next ← rr_row !! (rr_col + 1);
      match next with
      | CStr s =>
          let stuff := split_ws s in
          s0 ← stuff !! 0;
          s1 ← stuff !! 1;
          r ← compile (s0 +:+ " " +:+ s1 +:+ SOA_TAIL);
          setitem rr_row (rr_col + 1) (CRe r)
      | CRe _ => None
      end
    else if cell_is c "DS" then setitem rr_row (rr_col + 1) (CRe RE_DS)
    else Some rr_row
  else Some rr_row.

Definition annotate_rr_row `{Re} (rr_row : list cell) : option (list cell) :=
  rr_row ← annotate_rr_col rr_row 2;
  rr_row ← annotate_rr_col rr_row 3;
  annotate_rr_col rr_row 4.

Definition annotate_history_row (row : list cell) : option (list cell) :=
  c ← row !! 0;
  row ← (if cell_is c "timestamp" then Some row else setitem row 0 (CRe RE_ANY));
  l ← last row;
  row ← match l with
        | CStr s =>
            if startswith s "set_attr serial="
            then setitem row (length row - 1) (CRe RE_SERIAL)
            else Some row
        | CRe _ => None
        end;
  k ← row !! 4;
  if cell_is k "key" then setitem row 5 (CRe RE_ANY) else Some row.

(** The inner loop of [check_regexes] on one row: the first pattern found
    in cell 0 takes its place. *)
Fixpoint check_regexes_row (regexes : list regex) (row : list cell)
  : option (list cell) :=
  match regexes with
  | [] => Some row
  | regex :: rest =>
      c ← row !! 0;
      match c with
      | CStr s =>
          if re_search regex s then setitem row 0 (CRe regex)
          else check_regexes_row rest row
      | CRe _ => None
      end
  end.

Definition check_regexes (table : list (list cell)) (regexes : list regex)
  : option (list (list cell)) :=
  mapM (check_regexes_row regexes) table.

Definition when (b : bool) (f : list (list cell) -> option (list (list cell)))
    (table : list (list cell)) : option (list (list cell)) :=
  if b then f table else Some table.

(** Returns the annotated table; [None] when it raises: an index is out
    of range, a pattern is used as a [str], or a pattern does not
    compile. *)
Definition add_regex `{Re} (table : list (list cell)) (cmd : string)
  : option (list (list cell)) :=
  if generates_map cmd then mapM annotate_map_row table
  else if generates_table cmd then
    table ← when (re_search RE_LIST_KEYS cmd)
              (mapM (annotate_keys_row RE_KEY_LABEL)) table;
    table ← when (re_search RE_LIST_DNSKEYS cmd)
              (mapM annotate_dnskeys_row) table;
    table ← when (re_search RE_LIST_KEYS cmd)
              (mapM (annotate_keys_row RE_ANY)) table;
    table ← when (re_search RE_LIST_DS cmd)
              (fun table =>
                 match table with
                 | [] => Some []
                 | row0 :: rest => (row0 ::.) <$> mapM annotate_ds_row rest
                 end) table;
    if contains cmd "dcli list zone" || contains cmd "dcli dump zone"
       || contains cmd "dcli list rrs"
    then mapM annotate_rr_row table
    else if contains cmd "dcli history" then mapM annotate_history_row table
    else Some table
  else if contains cmd "dnssec enable" || contains cmd "dnssec new" then
    check_regexes table [RE_CREATED_KEY; RE_CREATING_DS]
  else if contains cmd "dnssec disable" || contains cmd "dnssec delete"
          || contains cmd "delete zone" then
    check_regexes table [RE_DELETING_DS]
  else Some table.

(** *** match_table *)

(** One cell of [match]: a [str] of the expected row must equal the
    actual cell, a pattern must match it from its start. *)
Definition match_cell (info : cell) (c : string) : bool :=
  match info with
  | CStr s => String.eqb s c
  | CRe r => re_match r c
  end.

(** The inner function [match(row, info)]. *)
Definition match_row (row : list string) (info : list cell) : bool :=
  if negb (length row =? length info) then false
  else forallb (fun ci => match_cell ci.2 ci.1) (zip row info).

(** [list(matched.values())] *)
Definition values (matched : gmap nat nat) : list nat :=
  (map_to_list matched).*2.

(** The inner [for] loop over the expected rows from [expected_no] on:
    the index at which it breaks, if it does. *)
Fixpoint first_match (matched : gmap nat nat) (row : list string)
    (expected_no : nat) (expected_table : list (list cell)) : option nat :=
  match expected_table with
  | [] => None
  | expected_row :: rest =>
      if bool_decide (expected_no ∉ values matched) && match_row row expected_row
      then Some expected_no
      else first_match matched row (S expected_no) rest
  end.

(** The outer [for] loop over the actual rows from [no] on. *)
Fixpoint match_rows (expected_table : list (list cell)) (no : nat)
    (actual_table : list (list string)) (matched : gmap nat nat)
  : gmap nat nat :=
  match actual_table with
  | [] => matched
  | row :: rest =>
      match_rows expected_table (S no) rest
        match first_match matched row 0 expected_table with
        | Some expected_no => <[no := expected_no]> matched
        | None => matched
        end
  end.

Definition compute_matched (actual_table : list (list string))
    (expected_table : list (list cell)) : gmap nat nat :=
  match_rows expected_table 0 actual_table ∅.

(** The last loop, over the actual raw lines from [no] on;
    [expected_matched.pop(0)] raises on an empty list. *)
Fixpoint compose (matched : gmap nat nat) (no : nat)
    (actual_raw expected_matched : list string) : option (list string) :=
  match actual_raw with
  | [] => Some []
  | row :: rest =>
      if bool_decide (is_Some (matched !! no)) then
        match expected_matched with
        | [] => None
        | e :: expected_matched' =>
            (e ::.) <$> compose matched (S no) rest expected_matched'
        end
      else (row ::.) <$> compose matched (S no) rest expected_matched
  end.

(** [None] when [expected_raw[i]] is out of range. *)
Definition match_table (actual_table : list (list string))
    (expected_table : list (list cell))
    (actual_raw expected_raw : list string) : option (list string) :=
  let matched := compute_matched actual_table expected_table in
  expected_matched ←
    mapM (fun i => expected_raw !! i) (merge_sort le (values matched));
  compose matched 0 actual_raw expected_matched.

(** *** The driver *)

(** [split_cat_command]: [line.split('|')[1]] raises when there is no
    second piece. *)
Definition split_cat_command (line : string) : option (string * string) :=
  piece ← split_on "|" line !! 1;
  Some ("EOF", "$" +:+ piece).

(** [get_cat_input], with [cat_input] the text read so far: returns the
    input, the lines left and the file. *)
Fixpoint get_cat_input_from (cat_input : string) (lines : list string)
    (word : string) (out : list string)
  : string * list string * list string :=
  match lines with
  | [] => (cat_input, [], out)
  | line :: lines' =>
      if String.eqb line (word +:+ NL) then (cat_input, lines', out ++ [line])
      else get_cat_input_from (cat_input +:+ line) lines' word (out ++ [line])
  end.

Definition get_cat_input (lines : list string) (word : string)
    (out : list string) : string * list string * list string :=
  get_cat_input_from EmptyString lines word out.

(** The first inner loop of [run_test]: the lines up to the next one
    that starts with ["$ "] move to [expected_result]. *)
Fixpoint collect_expected (expected_result lines : list string)
  : list string * list string :=
  match lines with
  | [] => (expected_result, [])
  | line :: lines' =>
      if negb (startswith line "$ ")
      then collect_expected (expected_result ++ [line]) lines'
      else (expected_result, lines)
  end.

(** The second inner loop, on [expected_result] reversed:
    [lines[0:0] = expected_result.pop()] assigns a [str] to a slice, so
    what is put in front of [lines] is the characters of the popped line,
    one element each. *)
Fixpoint push_back_rev (rev_expected lines : list string)
  : list string * list string :=
  match rev_expected with
  | [] => ([], lines)
  | e :: rev_expected' =>
      if is_ignorable e then push_back_rev rev_expected' (chars e ++ lines)
      else (rev rev_expected, lines)
  end.

Definition push_back (expected_result lines : list string)
  : list string * list string :=
  push_back_rev (rev expected_result) lines.

(** The expected block of a directive and the lines left after it. *)
Definition expected_block (lines : list string) : list string * list string :=
  let '(expected_result, lines) := collect_expected [] lines in
  push_back expected_result lines.

Definition zone_commands : list string :=
  c ← ["create "; "delete "; "modify "];
  o ← ["rr"; "zone"; "zone-profile"; "zone-group"];
  [c +:+ o].

(** How the driver ends: normally, by an exception that the main program
    catches, by [sys.exit(1)] (a [SystemExit], which it does not catch),
    or (in this model only) by using up its fuel. *)
Inductive outcome (A : Type) : Type :=
| Ok (a : A)
| Raised
| Exited
| OutOfFuel.
Global Arguments Ok {A} a.
Global Arguments Raised {A}.
Global Arguments Exited {A}.
Global Arguments OutOfFuel {A}.

Definition of_option {A} (o : option A) : outcome A :=
  match o with Some a => Ok a | None => Raised end.

(** What the driver rests on, on a state [W] of the world outside the
    script: the [re] module; the CLI behind [run_command] (which returns
    what the command printed, a [str], or raises); the shell behind
    [run_system_command] (which returns the lines printed, without their
    line ends, each a [bytes] value); the shell
    commands of [clean_database] (whether their exit status is 0); the
    database and the name-server export. *)
Class Collaborators (W : Type) : Type := {
  re_module : Re;
  run_command : string -> option string -> W -> option (string * W);
  run_system_command : string -> W -> option (list bytes * W);
  clean_commands : W -> bool * W;
  test_pdns_output_process : W -> option W;
  create_pdns_output : W -> option W;
  setup_pdns_output : W -> option W;
  compare_dim_pdns_zones : W -> option (bool * W);
}.
#[global] Existing Instance re_module.

Section Driver.
Context {W : Type} `{Collaborators W}.

(** [PDNSOutputProcess.wait_updates]: when the export process is needed
    it starts the database client with binary pipes and gives it a [str]
    as input, which raises [TypeError] before anything is read; otherwise
    it does nothing. *)
Definition wait_updates (needed : bool) (w : W) : option W :=
  if needed then None else Some w.

(** [clean_database]: leaves the program when the commands fail. *)
Definition clean_database (w : W) : outcome W :=
  let '(done, w) := clean_commands w in
  if done then Ok w else Exited.

(** [pdns_needed] is the [needed] of the global [pdns_output_proc]. *)
Definition check_pdns_output (pdns_needed : bool) (line : string)
    (out : list string) (w : W) : option (bool * list string * W) :=
  if negb (existsb (fun cmd => startswith (str_drop 8 line) cmd) zone_commands)
  then Some (true, out, w)
  else
    w ← setup_pdns_output w;
    w ← wait_updates pdns_needed w;
    '(same, w) ← compare_dim_pdns_zones w;
    if negb same then Some (false, out ++ ["Zone incorrectly exported" +:+ NL], w)
    else Some (true, out, w).

(** The actual and the expected table that [run_test] builds for a
    line that starts with ["$ ndcli"]. *)
Definition directive_tables (line result : string)
    (expected_result : list string)
  : list (list string) * list (list string) :=
  if generates_table line || generates_map line
  then (table_from_lines (split_on LF result) line,
        table_from_lines (strip_chars NL <$> expected_result) line)
  else ((fun x => [x]) <$> splitlines_keep result,
        (fun x => [x]) <$> expected_result).

(** The branch of [run_test] for a line that starts with ["$ ndcli"]. *)
Definition run_ndcli (pdns_needed auto_pdns_check : bool) (line : string)
    (cmd_input : option string) (expected_result out : list string) (w : W)
  : option (bool * list string * W) :=
  '(result, w) ← run_command line cmd_input w;
  let '(actual_table, expected_table) :=
    directive_tables line result expected_result in
  expected_table ← add_regex (map (map CStr) expected_table) line;
  output ← match_table actual_table expected_table
             (splitlines_keep result) expected_result;
  let out := out ++ output in
  let ok := bool_decide (output = expected_result) in
  if auto_pdns_check then
    '(exported, out, w) ← check_pdns_output pdns_needed line out w;
    Some (if negb exported then false else ok, out, w)
  else Some (ok, out, w).

(** The branch for any other line that starts with ["$ "]. *)
Definition run_shell (pdns_needed : bool) (line : string)
    (expected_result out : list string) (w : W)
  : option (bool * list string * W) :=
  let line := strip_chars NL line in
  w ← (if is_pdns_query line then wait_updates pdns_needed w else Some w);
  '(result, w) ← run_system_command (str_drop 2 line) w;
  '(out, ok) ← process_command (Bytes <$> result) expected_result out
                 (is_pdns_query line);
  Some (ok, out, w).

(** The heredoc step at the head of the loop body. *)
Definition heredoc (line : string) (lines out : list string)
  : option (string * option string * list string * list string) :=
  if startswith line "$ cat <<EOF | ndcli" then
    '(word, line) ← split_cat_command line;
    let '(cat_input, lines, out) := get_cat_input lines word out in
    Some (line, Some cat_input, lines, out)
  else Some (line, None, lines, out).

(** The [while len(lines) > 0] loop.  The result is the value returned
    from inside the loop, if any, with the file and the world. *)
Fixpoint run_lines (fuel : nat) (pdns_needed stop_on_error auto_pdns_check : bool)
    (lines out : list string) (w : W)
  : outcome (option bool * list string * W) :=
  match fuel with
  | O => OutOfFuel
  | S fuel =>
      match lines with
      | [] => Ok (None, out, w)
      | line :: lines =>
          let out := out ++ [line] in
          match heredoc line lines out with
          | None => Raised
          | Some (line, cmd_input, lines, out) =>
              if startswith line "$ " then
                let '(expected_result, lines) := expected_block lines in
                match
                  if startswith line "$ ndcli"
                  then run_ndcli pdns_needed auto_pdns_check line cmd_input
                         expected_result out w
                  else run_shell pdns_needed line expected_result out w
                with
                | None => Raised
                | Some (ok, out, w) =>
                    if stop_on_error && negb ok then Ok (Some false, out, w)
                    else run_lines fuel pdns_needed stop_on_error
                           auto_pdns_check lines out w
                end
              else run_lines fuel pdns_needed stop_on_error auto_pdns_check
                     lines out w
          end
      end
  end.

(** An upper bound on the number of passes of the loop: every element
    of [lines] counts for its length, and for one if it is empty. *)
Definition weight (lines : list string) : nat :=
  sum_list_with (fun line => Nat.max 1 (len line)) lines.

(** [not os.system('diff testfile outfile >/dev/null')]: [diff] finds no
    difference between the test file, given by the characters stored in
    it, and the file written. *)
Definition diff (testfile : string) (out : list string) : bool :=
  String.eqb testfile (join out).

(** The scan of the lines at the head of [run_test]: whether
    [auto_pdns_check] stays on, and whether the export process is
    needed. *)
Definition scan_auto_pdns_check (lines : list string)
    (auto_pdns_check : bool) : bool :=
  if existsb (fun line => contains line "create zone-group"
                          || contains line "create output") lines
  then false else auto_pdns_check.

Definition scan_pdns_needed (lines : list string)
    (auto_pdns_check : bool) : bool :=
  existsb (fun line => contains line "drill" || contains line "dig") lines
  || auto_pdns_check.

(** What [run_test] does before it opens the output file; the flags are
    the scanned ones. *)
Definition prepare (pdns_needed auto_pdns_check : bool) (w : W) : outcome W :=
  match (if pdns_needed then test_pdns_output_process w else Some w) with
  | None => Raised
  | Some w =>
      match clean_database w with
      | Ok w =>
          of_option
            ('(_, w) ← run_command ("$ ndcli login -u admin -p p") None w;
             if auto_pdns_check then create_pdns_output w else Some w)
      | Raised => Raised
      | Exited => Exited
      | OutOfFuel => OutOfFuel
      end
  end.

(** [run_test] on a test file, given by the characters stored in it: the
    value returned and the file written.  The world after the run is not
    part of the result, so the [__exit__] of the export process, which
    only ends that process, is left out. *)
Definition run_test (testfile : string)
    (stop_on_error auto_pdns_check : bool) (w : W)
  : outcome (bool * list string) :=
  let lines := readlines testfile in
  let auto_pdns_check := scan_auto_pdns_check lines auto_pdns_check in
  let pdns_needed := scan_pdns_needed lines auto_pdns_check in
  match prepare pdns_needed auto_pdns_check w with
  | Ok w =>
      match run_lines (S (weight lines)) pdns_needed stop_on_error
              auto_pdns_check lines [] w with
      | Ok (Some returned, out, _) => Ok (returned, out)
      | Ok (None, out, _) => Ok (diff testfile out, out)
      | Raised => Raised
      | Exited => Exited
      | OutOfFuel => OutOfFuel
      end
  | Raised => Raised
  | Exited => Exited
  | OutOfFuel => OutOfFuel
  end.

End Driver.

End Runtest.

(** ** run_command *)

Module RunCommand.
Import PyStr.

(** What [run_command] rests on, on a state [W] of the world: [shlex.split]
    (which raises on an unclosed quote), the CLI behind [_ndcli], which
    returns what it printed on the standard output and on the standard
    error, and the writing of a file. *)
Class Shell (W : Type) : Type := {
  shlex_split : string -> option (list string);
  ndcli : list string -> option string -> W -> option (string * string * W);
  write_file : string -> string -> W -> option W;
}.

(** [cmd.index(x)] *)
Fixpoint index (x : string) (cmd : list string) : option nat :=
  match cmd with
  | [] => None
  | y :: cmd' => if String.eqb y x then Some 0 else S <$> index x cmd'
  end.

(** The redirection step: the command without its redirection, and the
    file named after the first [>]; [cmd[idx + 1]] raises when that [>] is
    the last word. *)
Definition split_redirection (cmd : list string)
  : option (list string * option string) :=
  if bool_decide (">" ∈ cmd) then
    idx ← index ">" cmd;
    redir_out ← cmd !! (idx + 1);
    Some (take idx cmd, Some redir_out)
  else Some (cmd, None).

(** [if redir_out:] holds for a file name that is not empty. *)
Definition truthy (redir_out : option string) : bool :=
  match redir_out with
  | Some f => negb (String.eqb f "")
  | None => false
  end.

Definition run_command `{Shell W} (line : string) (cmd_input : option string)
    (w : W) : option (string * W) :=
  cmd ← shlex_split (str_drop 7 line);
  '(cmd, redir_out) ← split_redirection cmd;
  '(out, err, w) ← ndcli cmd cmd_input w;
  if truthy redir_out then
    w ← write_file (default "" redir_out) out w;
    Some ("" +:+ err, w)
  else Some (out +:+ err, w).

End RunCommand.

(** ** The main program *)

Module Main.
Import PyStr.

Record options : Type := {
  stop_on_error : bool;
  auto_pdns_check : bool;
  run_diff : bool;
  tests : list string;
}.

(** One pass of the loop over [sys.argv[1:]]. *)
Definition parse_arg (o : options) (test : string) : options :=
  if String.eqb test "-x" then
    {| stop_on_error := true; auto_pdns_check := auto_pdns_check o;
       run_diff := run_diff o; tests := tests o |}
  else if String.eqb test "-p" then
    {| stop_on_error := stop_on_error o; auto_pdns_check := true;
       run_diff := run_diff o; tests := tests o |}
  else if String.eqb test "-d" then
    {| stop_on_error := stop_on_error o; auto_pdns_check := auto_pdns_check o;
       run_diff := true; tests := tests o |}
  else
    {| stop_on_error := stop_on_error o; auto_pdns_check := auto_pdns_check o;
       run_diff := run_diff o; tests := tests o ++ [test] |}.

Definition parse_args (argv : list string) : options :=
  foldl parse_arg
    {| stop_on_error := false; auto_pdns_check := false; run_diff := false;
       tests := [] |} argv.

(** The tests to run: those named, or else the files of the directory of
    the tests, sorted. *)
Definition tests_to_run (o : options) (listdir : list string) : list string :=
  match tests o with
  | [] => sort listdir
  | _ => tests o
  end.

(** The two arguments of [diff_files]: the two directories, or the two
    files of a test. *)
Inductive path : Type :=
| OUT_DIR
| T_DIR
| outfile (test : string)
| testfile (test : string).

(** The state of the loop over the tests: [printed] has a pair for each
    verdict printed, the name of the test and whether it was ok. *)
Record progress (W : Type) : Type := {
  failed : nat;
  diff_left : path;
  diff_right : path;
  printed : list (string * bool);
  world : W;
}.
Global Arguments failed {W} _.
Global Arguments diff_left {W} _.
Global Arguments diff_right {W} _.
Global Arguments printed {W} _.
Global Arguments world {W} _.

(** How [run_test] ends inside the [try] of the loop: with a verdict (an
    exception that [except Exception] catches counts as not ok), or by the
    [sys.exit(1)] of [clean_database], a [SystemExit], which is not caught
    and ends the program. *)
Inductive ran (W : Type) : Type :=
| Verdict (ok : bool) (w : W)
| SystemExit.
Global Arguments Verdict {W} ok w.
Global Arguments SystemExit {W}.

Section Loop.
Context {W : Type}.

(** [run_test] on the files of a test, inside the [try]. *)
Variable run_one : string -> bool -> bool -> W -> ran W.

(** The loop over the tests still to run; [single] is [len(tests) == 1].
    The result is the state the loop ends in and whether it was left by
    a [SystemExit]. *)
Fixpoint run_tests (o : options) (single : bool) (todo : list string)
    (st : progress W) : progress W * bool :=
  match todo with
  | [] => (st, false)
  | test :: todo =>
      match run_one test (stop_on_error o) (auto_pdns_check o) (world st) with
      | SystemExit => (st, true)
      | Verdict ok w =>
          let shown := printed st ++ [(test, ok)] in
          if ok then
            run_tests o single todo
              {| failed := failed st; diff_left := diff_left st;
                 diff_right := diff_right st; printed := shown; world := w |}
          else
            let st :=
              if stop_on_error o || single
              then {| failed := S (failed st); diff_left := outfile test;
                      diff_right := testfile test; printed := shown;
                      world := w |}
              else {| failed := S (failed st); diff_left := diff_left st;
                      diff_right := diff_right st; printed := shown;
                      world := w |} in
            if stop_on_error o then (st, false) else run_tests o single todo st
      end
  end.

(** The main program on [sys.argv[1:]] and the listing of the directory
    of the tests: the state at the end of the loop, the arguments of
    [diff_files] if it is called, and the exit code.  The directory of the
    outputs is taken to exist or to be created without error. *)
Definition main (argv listdir : list string) (w : W)
  : progress W * option (path * path) * nat :=
  let o := parse_args argv in
  let tests := tests_to_run o listdir in
  let '(st, exited) :=
    run_tests o (length tests =? 1) tests
      {| failed := 0; diff_left := OUT_DIR; diff_right := T_DIR;
         printed := []; world := w |} in
  if exited then (st, None, 1)
  else
    (st,
     if negb (failed st =? 0) && run_diff o
     then Some (diff_left st, diff_right st) else None,
     if failed st =? 0 then 0 else 1).

End Loop.

End Main.

Import PyStr PyRe Runtest.

(** * Notions of the statements *)

(** What the specification asks of an expected row for an actual row: the
    same length, and cell by cell either the same text or a pattern that
    matches the actual cell from its start. *)
Definition fits (row : list string) (info : list cell) : Prop :=
  length row = length info
  /\ forall i c x, row !! i = Some c -> info !! i = Some x ->
       match x with
       | CStr s => s = c
       | CRe r => re_match r c = true
       end.

(** One pass of the outer loop. *)
Definition match_step (E : list (list cell)) (m : gmap nat nat) (no : nat)
    (row : list string) : gmap nat nat :=
  match first_match m row 0 E with
  | Some e => <[no := e]> m
  | None => m
  end.

(** The indices below [n] that have an entry in [matched], in ascending
    order: the positions of the raw lines that the last loop replaces. *)
Definition positions (matched : gmap nat nat) (n : nat) : list nat :=
  filter (fun no => is_Some (matched !! no)) (seq 0 n).

(** [sorted(matched.values())]: the expected rows taken, ascending. *)
Definition taken (matched : gmap nat nat) : list nat :=
  merge_sort le (values matched).


(** Every expected row that was taken has a raw line. *)
Definition covered (matched : gmap nat nat) (expected_raw : list string)
  : Prop :=
  forall no e, matched !! no = Some e -> e < length expected_raw.

(** The matching keeps the rows in their order: of two actual rows that
    are matched, the later one is matched to the later expected row. *)
Definition order_preserving (matched : gmap nat nat) : Prop :=
  forall a b ea eb,
    a < b -> matched !! a = Some ea -> matched !! b = Some eb -> ea < eb.

(** The pairs of the loop of process_command, for actual lines that are
    [str]s. *)
Definition str_pairs (pairs : list (string * string)) : list (text * string) :=
  prod_map Str id <$> pairs.

(** A position of the line comparison passes: an expected line that ends
    in [" re"] is a pattern that matches the actual line from its start;
    any other expected line, without its newline, is the actual line. *)
Definition line_passes `{Re} (actual expected : string) : Prop :=
  let expected := strip_chars NL expected in
  if endswith expected " re"
  then match_str (drop_last 3 expected) actual = Some true
  else actual = expected.

(** The pattern of an expected line that ends in [" re"] compiles:
    [re.compile] does not raise on it. *)
Definition pattern_ok `{Re} (expected : string) : Prop :=
  let expected := strip_chars NL expected in
  endswith expected " re" = true -> is_Some (compile (drop_last 3 expected)).


(** The directives of a transcript as the driver reads them: every line
    that starts with ["$ "] once the heredoc step is done, with the heredoc
    input and the expected block. *)
Fixpoint directives (fuel : nat) (lines : list string)
  : list (string * option string * list string) :=
  match fuel with
  | O => []
  | S fuel =>
      match lines with
      | [] => []
      | line :: lines =>
          match heredoc line lines [] with
          | None => []
          | Some (line, cmd_input, lines, _) =>
              if startswith line "$ " then
                let '(expected_result, lines) := expected_block lines in
                (line, cmd_input, expected_result) :: directives fuel lines
              else directives fuel lines
          end
      end
  end.

(** The greedy matching leaves every row in its place: an actual row that
    is matched is matched to the expected row of its own index. *)
Definition in_place (matched : gmap nat nat) : Prop :=
  map_Forall (fun no e => e = no) matched.

Definition add_newline (a : string) : string := a +:+ NL.

Section Answers.
Context {W : Type} `{Collaborators W}.

(** The call of the shell that the driver makes for a directive. *)
Definition shell_call (pdns_needed : bool) (line : string) (w : W)
  : option (list bytes * W) :=
  let line := strip_chars NL line in
  w ← (if is_pdns_query line then wait_updates pdns_needed w else Some w);
  run_system_command (str_drop 2 line) w.

(** The world [w2] after the check of the export that follows a CLI
    directive when [auto_pdns_check] is on. *)
Definition after_check (pdns_needed auto_pdns_check : bool) (line : string)
    (w1 w2 : W) : Prop :=
  if auto_pdns_check
  then exists exported written,
         check_pdns_output pdns_needed line [] w1
         = Some (exported, written, w2)
  else w2 = w1.

(** That check, if made, finds the zones exported as they are. *)
Definition check_passes (pdns_needed auto_pdns_check : bool) (line : string)
    (w1 : W) : Prop :=
  if auto_pdns_check
  then exists written w2,
         check_pdns_output pdns_needed line [] w1 = Some (true, written, w2)
  else True.

(** The directives [ds], run in order from the world [w], are each
    answered with their expected output: the output of a CLI directive
    splits into the lines of its expected block, and the lines that the
    shell returns, with a newline added to each, are the expected block.
    [cli_also] and [shell_also] are further conditions on each answer. *)
Fixpoint answered
    (cli_also : string -> list string -> string -> W -> Prop)
    (shell_also : string -> list string -> Prop)
    (pdns_needed auto_pdns_check : bool)
    (ds : list (string * option string * list string)) (w : W) : Prop :=
  match ds with
  | [] => True
  | (line, cmd_input, expected_result) :: ds =>
      if startswith line "$ ndcli" then
        exists result w1 w2,
          run_command line cmd_input w = Some (result, w1)
          /\ splitlines_keep result = expected_result
          /\ cli_also line expected_result result w1
          /\ after_check pdns_needed auto_pdns_check line w1 w2
          /\ answered cli_also shell_also pdns_needed auto_pdns_check ds w2
      else
        exists result w1,
          shell_call pdns_needed line w = Some (result, w1)
          /\ add_newline <$> result = expected_result
          /\ shell_also line result
          /\ answered cli_also shell_also pdns_needed auto_pdns_check ds w1
  end.

(** The hypothesis of the specification: every directive's actual output
    is equal, line for line, to its expected output. *)
Definition outputs_equal :=
  answered (fun _ _ _ _ => True) (fun _ _ => True).

(** For a CLI directive, besides: the annotation of the expected table
    succeeds, the matching against the annotated table leaves every row
    in its place, and the check of the export, if made, passes. *)
Definition cli_in_place (pdns_needed auto_pdns_check : bool) (line : string)
    (expected_result : list string) (result : string) (w1 : W) : Prop :=
  (exists expected_table,
     add_regex
       (map (map CStr) (directive_tables line result expected_result).2) line
     = Some expected_table
     /\ in_place
          (compute_matched (directive_tables line result expected_result).1
             expected_table))
  /\ check_passes pdns_needed auto_pdns_check line w1.

(** For a shell directive, besides: the command prints nothing.  (What
    the shell prints reaches the comparison as [bytes], on which it
    raises.) *)
Definition shell_silent (line : string) (result : list string) : Prop :=
  result = [].

Definition reproduced (pdns_needed auto_pdns_check : bool) :=
  answered (cli_in_place pdns_needed auto_pdns_check) shell_silent
    pdns_needed auto_pdns_check.

End Answers.

(** A listing of DS records whose first data row has no digit in its
    third column. *)
Definition example_ds_listing : list string :=
  ["tag alg dt digest" +:+ NL; "1   8   x  abc" +:+ NL;
   "2   8   2  def" +:+ NL].

(** An [re] module for the examples, which use patterns of the fragment
    and patterns that start with a quantifier only: it takes no other
    pattern. *)
Definition example_re : Re := {| re_other _ := None |}.

(** A world for the examples: the CLI prints two key-value lines for a
    [show] command, the listing above for a [list zone] command and
    nothing otherwise; the shell prints the line hi for [echo] and nothing
    otherwise; nothing fails. *)
Definition example_world : Collaborators unit := {|
  re_module := example_re;
  run_command line cmd_input w :=
    Some (if startswith line "$ ndcli show"
          then "name: a.de" +:+ NL +:+ "created: 2020-01-01" +:+ NL
          else if startswith line "$ ndcli list zone"
          then join example_ds_listing
          else "", w);
  run_system_command cmd w :=
    Some (if startswith cmd "echo" then ["hi"] else [], w);
  clean_commands w := (true, w);
  test_pdns_output_process w := Some w;
  create_pdns_output w := Some w;
  setup_pdns_output w := Some w;
  compare_dim_pdns_zones w := Some (true, w);
|}.

(** A transcript for that world: a CLI directive with its block, a blank
    line and a comment, and a shell directive that prints nothing. *)
Definition example_transcript : string :=
  "$ ndcli show zone a.de" +:+ NL +:+ "name: a.de" +:+ NL
  +:+ "created: 2020-01-01" +:+ NL +:+ NL +:+ "# next" +:+ NL
  +:+ "$ true" +:+ NL.


(** A cell after add_regex: the cell before, or a pattern. *)
Definition annotated (c c' : cell) : Prop :=
  c' = c \/ exists r, c' = CRe r.

(** The keys of a map whose value add_regex replaces. *)
Definition stamp_key (c : cell) : bool :=
  cell_is c "created" || cell_is c "modified"
  || cell_is c "created_by" || cell_is c "modified_by".

(** What add_regex makes of a row of a map: the value of a stamp key
    becomes the pattern [.*]. *)
Definition stamped (row : list cell) : list cell :=
  match row with
  | key :: _ :: rest => if stamp_key key then key :: CRe RE_ANY :: rest else row
  | _ => row
  end.

(** The rows of a map that add_regex can annotate: not empty, and with a
    value when the key is a stamp key. *)
Definition stampable (row : list cell) : Prop :=
  match row with
  | [] => False
  | [key] => stamp_key key = false
  | _ => True
  end.

(** A shell for the examples: the words of a command are those between
    white space, the CLI prints its words, joined, on the standard output and a
    warning on the standard error, and the world is the list of the files
    written. *)
Definition example_shell : RunCommand.Shell (list (string * string)) := {|
  RunCommand.shlex_split s := Some (split_ws s);
  RunCommand.ndcli cmd _ w := Some (join cmd, "warning", w);
  RunCommand.write_file name text w := Some (w ++ [(name, text)]);
|}.

(** The names of the tests with a line [fail]. *)
Definition failures (shown : list (string * bool)) : list string :=
  (filter (fun p => p.2 = false) shown).*1.

(** * Properties *)

(** ** The compiled patterns *)

(** Every pattern constant is what [compile] gives on the text that the
    script passes to [re.compile] or [re.search]. *)
Lemma compiled_patterns `{Re} :
  compile "(get|mark) (ip|delegation)" = Some RE_GET_MARK
  /\ compile "ndcli create rr .* from" = Some RE_CREATE_RR_FROM
  /\ compile ".*" = Some RE_ANY
  /\ compile ".*_[zk]sk_.*" = Some RE_KEY_LABEL
  /\ compile "\d*" = Some RE_DIGITS
  /\ compile "\d" = Some RE_DIGIT
  /\ compile "\d+ 8 2 .*" = Some RE_DS
  /\ compile "set_attr serial=\d+" = Some RE_SERIAL
  /\ compile "list zone .* keys" = Some RE_LIST_KEYS
  /\ compile "list zone .* dnskeys" = Some RE_LIST_DNSKEYS
  /\ compile "list zone .* ds" = Some RE_LIST_DS
  /\ compile ".*Created key .*_[zk]sk_.* for zone (.*)" = Some RE_CREATED_KEY
  /\ compile ".*Creating RR .* DS \d+ 8 2 .* in zone .*" = Some RE_CREATING_DS
  /\ compile ".*Deleting RR .* DS \d+ 8 2 .* from zone .*" = Some RE_DELETING_DS.
Proof. repeat split; vm_compute; reflexivity. Qed.

(** The pattern [.*] matches from the start of every string. *)
Lemma re_any_matches (s : string) : re_match RE_ANY s = true.
Proof. destruct s; reflexivity. Qed.

(** ** The row matcher *)

Lemma match_cells_spec (row : list string) (info : list cell) :
  forallb (fun ci => match_cell ci.2 ci.1) (zip row info) = true
  <-> forall i c x, row !! i = Some c -> info !! i = Some x ->
        match x with
        | CStr s => s = c
        | CRe r => re_match r c = true
        end.
Proof.
  revert info. induction row as [|c row IH]; intros [|x info]; simpl.
  - split; [intros _ i ? ? Hi; by destruct i | done].
  - split; [intros _ i ? ? Hi; by destruct i | done].
  - split; [intros _ i ? ? _ Hi; by destruct i | done].
  - rewrite andb_true_iff, IH. split.
    + intros [Hc Hrest] [|i] c' x' Hi Hx; simplify_eq/=.
      * destruct x'; simpl in Hc; [by apply String.eqb_eq in Hc | done].
      * by eapply Hrest.
    + intros Hall. split.
      * specialize (Hall 0 c x eq_refl eq_refl).
        destruct x; simpl; [by apply String.eqb_eq | done].
      * intros i c' x' Hi Hx. by apply (Hall (S i)).
Qed.

(** The inner function [match] of the script decides [fits]. *)
Lemma match_row_fits (row : list string) (info : list cell) :
  match_row row info = true <-> fits row info.
Proof.
  unfold match_row, fits.
  destruct (length row =? length info) eqn:Hlen; simpl.
  - apply Nat.eqb_eq in Hlen. rewrite match_cells_spec. tauto.
  - apply Nat.eqb_neq in Hlen. split; [done | tauto].
Qed.

Lemma elem_of_values (m : gmap nat nat) (e : nat) :
  e ∈ values m <-> exists no, m !! no = Some e.
Proof.
  unfold values. rewrite list_elem_of_fmap. split.
  - intros [[no e'] [-> Hin]]. exists no. by apply elem_of_map_to_list.
  - intros [no Hno]. exists (no, e). split; [done|].
    by apply elem_of_map_to_list.
Qed.

(** The inner loop breaks at the first expected row, from [k] on, that is
    free and fits. *)
Lemma first_match_Some m row k E e :
  first_match m row k E = Some e ->
  k <= e
  /\ (e ∉ values m)
  /\ (exists info, E !! (e - k) = Some info /\ match_row row info = true)
  /\ forall j info, k <= j -> j < e -> E !! (j - k) = Some info ->
       j ∈ values m \/ match_row row info = false.
Proof.
  revert k. induction E as [|info0 E IH]; intros k; simpl; [done|].
  destruct (bool_decide (k ∉ values m) && match_row row info0) eqn:Hhere.
  - intros [= <-]. apply andb_true_iff in Hhere as [Hfree Hfit].
    apply bool_decide_eq_true in Hfree.
    repeat split; [lia | done | |].
    + exists info0. by rewrite Nat.sub_diag.
    + intros; lia.
  - intros Hrest. apply IH in Hrest as (Hle & Hfree & (info & Hinfo & Hfit) & Hleast).
    repeat split; [lia | done | |].
    + exists info. split; [|done].
      replace (e - k) with (S (e - S k)) by lia. done.
    + intros j info' Hkj Hje Hj.
      destruct (decide (j = k)) as [->|Hne].
      * rewrite Nat.sub_diag in Hj. simplify_eq/=.
        apply andb_false_iff in Hhere as [Hused|Hnofit]; [left|by right].
        apply bool_decide_eq_false in Hused.
        by destruct (decide (k ∈ values m)).
      * apply (Hleast j info'); [lia | lia |].
        replace (j - k) with (S (j - S k)) in Hj by lia. done.
Qed.

Lemma first_match_None m row k E :
  first_match m row k E = None ->
  forall j info, k <= j -> E !! (j - k) = Some info ->
    j ∈ values m \/ match_row row info = false.
Proof.
  revert k. induction E as [|info0 E IH]; intros k; simpl; [by intros _ j ? ? ?|].
  destruct (bool_decide (k ∉ values m) && match_row row info0) eqn:Hhere; [done|].
  intros Hrest j info Hkj Hj.
  destruct (decide (j = k)) as [->|Hne].
  - rewrite Nat.sub_diag in Hj. simplify_eq/=.
    apply andb_false_iff in Hhere as [Hused|Hnofit]; [left|by right].
    apply bool_decide_eq_false in Hused.
    by destruct (decide (k ∈ values m)).
  - apply (IH (S k) Hrest j info); [lia|].
    replace (j - k) with (S (j - S k)) in Hj by lia. done.
Qed.

Lemma first_match_lt m row k E e :
  first_match m row k E = Some e -> e < k + length E.
Proof.
  intros (Hle & _ & (info & Hinfo & _) & _)%first_match_Some.
  apply lookup_lt_Some in Hinfo. lia.
Qed.

Lemma match_rows_cons E no row rest m :
  match_rows E no (row :: rest) m
  = match_rows E (S no) rest (match_step E m no row).
Proof. reflexivity. Qed.

Lemma match_rows_app E no l1 l2 m :
  match_rows E no (l1 ++ l2) m
  = match_rows E (no + length l1) l2 (match_rows E no l1 m).
Proof.
  revert no m. induction l1 as [|row l1 IH]; intros no m; simpl.
  - by rewrite Nat.add_0_r.
  - rewrite IH. f_equal. lia.
Qed.

(** The loop from row [no] on leaves the entries below [no] alone. *)
Lemma match_rows_lookup_lt E no l m i :
  i < no -> match_rows E no l m !! i = m !! i.
Proof.
  revert no m. induction l as [|row l IH]; intros no m Hi; simpl; [done|].
  rewrite IH by lia.
  destruct (first_match m row 0 E); [|done].
  rewrite lookup_insert_ne; [done | lia].
Qed.

(** It makes entries only for the rows it reads. *)
Lemma match_rows_lookup_ge E no l m i :
  no + length l <= i -> match_rows E no l m !! i = m !! i.
Proof.
  revert no m. induction l as [|row l IH]; intros no m Hi; simpl in *; [done|].
  rewrite IH by lia.
  destruct (first_match m row 0 E); [|done].
  rewrite lookup_insert_ne; [done | lia].
Qed.

Lemma compute_matched_dom A E no e :
  compute_matched A E !! no = Some e -> no < length A.
Proof.
  intros Hno. destruct (decide (no < length A)) as [|Hge]; [done|].
  unfold compute_matched in Hno.
  rewrite match_rows_lookup_ge in Hno by (simpl; lia). done.
Qed.

(** An entry, once made, stays: the dict after the first [k] rows agrees
    with the final one on the rows before [k]. *)
Lemma compute_matched_take A E k no :
  no < k -> compute_matched (take k A) E !! no = compute_matched A E !! no.
Proof.
  intros Hno. destruct (decide (k <= length A)) as [Hk|Hk].
  - unfold compute_matched.
    assert (match_rows E 0 A ∅
            = match_rows E (0 + length (take k A)) (drop k A)
                (match_rows E 0 (take k A) ∅)) as ->
      by (by rewrite <-match_rows_app, take_drop).
    rewrite (match_rows_lookup_lt E (0 + length (take k A))); [done|].
    rewrite length_take. lia.
  - rewrite take_ge by lia. done.
Qed.

(** The entry of row [no] is what the inner loop finds against the dict
    made by the rows before it. *)
Lemma compute_matched_at A E no row :
  A !! no = Some row ->
  compute_matched A E !! no
  = first_match (compute_matched (take no A) E) row 0 E.
Proof.
  intros Hrow. pose proof (lookup_lt_Some _ _ _ Hrow) as Hlt.
  assert (compute_matched A E
          = match_rows E (S no) (drop (S no) A)
              (match_step E (compute_matched (take no A) E) no row)) as ->.
  { unfold compute_matched.
    rewrite <-(take_drop_middle A no row Hrow) at 1.
    rewrite match_rows_app, match_rows_cons.
    rewrite length_take, Nat.min_l by lia. done. }
  rewrite match_rows_lookup_lt by lia. unfold match_step.
  destruct (first_match _ row 0 E) as [e|] eqn:Hfirst.
  - by rewrite lookup_insert_eq.
  - destruct (compute_matched (take no A) E !! no) as [e|] eqn:Hno; [|done].
    apply compute_matched_dom in Hno. rewrite length_take in Hno. lia.
Qed.

(** The expected rows taken by the rows before [no]. *)
Lemma values_before A E no e :
  e ∈ values (compute_matched (take no A) E)
  <-> exists no', no' < no /\ compute_matched A E !! no' = Some e.
Proof.
  rewrite elem_of_values. split.
  - intros [no' Hno']. exists no'.
    pose proof (compute_matched_dom _ _ _ _ Hno') as Hdom.
    rewrite length_take in Hdom.
    split; [lia|]. rewrite <-(compute_matched_take A E no) by lia. done.
  - intros (no' & Hlt & Hno'). exists no'.
    by rewrite compute_matched_take.
Qed.

Lemma compute_matched_range A E no e :
  compute_matched A E !! no = Some e -> e < length E.
Proof.
  intros Hno. pose proof (compute_matched_dom _ _ _ _ Hno) as Hdom.
  destruct (lookup_lt_is_Some_2 A no Hdom) as [row Hrow].
  rewrite (compute_matched_at _ _ _ _ Hrow) in Hno.
  apply first_match_lt in Hno. lia.
Qed.

(** The greedy choice: the entry of an actual row is the first expected
    row, in declaration order, that no earlier actual row has taken and
    that fits it. *)
Lemma compute_matched_greedy A E no row e :
  A !! no = Some row ->
  compute_matched A E !! no = Some e
  <-> (exists info, E !! e = Some info /\ fits row info)
      /\ (forall no', no' < no -> compute_matched A E !! no' <> Some e)
      /\ (forall e' info', e' < e -> E !! e' = Some info' -> fits row info' ->
            exists no', no' < no /\ compute_matched A E !! no' = Some e').
Proof.
  intros Hrow. rewrite (compute_matched_at _ _ _ _ Hrow). split.
  - intros (_ & Hfree & (info & Hinfo & Hfit) & Hleast)%first_match_Some.
    rewrite Nat.sub_0_r in Hinfo. split; [|split].
    + exists info. by rewrite <-match_row_fits.
    + intros no' Hlt Hno'. apply Hfree, values_before. eauto.
    + intros e' info' Hlt Hinfo' Hfit'.
      destruct (Hleast e' info') as [Hused|Hno]; [lia | lia | | |].
      * by rewrite Nat.sub_0_r.
      * by apply values_before in Hused.
      * apply match_row_fits in Hfit'. congruence.
  - intros ((info & Hinfo & Hfit) & Hfree & Hleast).
    apply match_row_fits in Hfit.
    assert (e ∉ values (compute_matched (take no A) E)) as Hfree'.
    { intros (no' & Hlt & Hno')%values_before. by eapply Hfree. }
    destruct (first_match _ row 0 E) as [e0|] eqn:Hfirst.
    + apply first_match_Some in Hfirst
        as (_ & Hfree0 & (info0 & Hinfo0 & Hfit0) & Hleast0).
      rewrite Nat.sub_0_r in Hinfo0.
      destruct (Nat.lt_trichotomy e0 e) as [Hlt|[->|Hgt]]; [|done|].
      * destruct (Hleast e0 info0 Hlt Hinfo0) as (no' & Hlt' & Hno').
        { by apply match_row_fits. }
        exfalso. apply Hfree0, values_before. eauto.
      * destruct (Hleast0 e info) as [Hused|Hno]; [lia | lia | | |].
        -- by rewrite Nat.sub_0_r.
        -- done.
        -- congruence.
    + destruct (first_match_None _ _ _ _ Hfirst e info) as [Hused|Hno];
        [lia | by rewrite Nat.sub_0_r | done | congruence].
Qed.

(** No expected row is taken twice. *)
Lemma compute_matched_inj A E a b e :
  compute_matched A E !! a = Some e ->
  compute_matched A E !! b = Some e -> a = b.
Proof.
  assert (forall a b, a < b -> compute_matched A E !! a = Some e ->
            compute_matched A E !! b = Some e -> False) as Hlt.
  { clear a b. intros a b Hab Ha Hb.
    pose proof (compute_matched_dom _ _ _ _ Hb) as Hdom.
    destruct (lookup_lt_is_Some_2 A b Hdom) as [row Hrow].
    apply (compute_matched_greedy _ _ _ _ _ Hrow) in Hb as (_ & Hfree & _).
    by apply (Hfree a). }
  intros Ha Hb. destruct (Nat.lt_trichotomy a b) as [?|[?|?]]; [|done|].
  - by destruct (Hlt a b).
  - by destruct (Hlt b a).
Qed.

(** C2: the row matcher is greedy.  For every actual and expected table,
    the entry of each actual row in the map [matched] is the first
    expected row, in declaration order, that no earlier actual row has
    taken, that has the length of the actual row and whose cells each equal
    the actual cell (a literal) or match it from its start (a pattern);
    a row with no such expected row has no entry.  Entries are made for
    actual rows only and point to expected rows, an entry made is never
    changed by a later row, and no expected row is taken twice: the map
    is injective. *)
Theorem match_table_greedy_injective
    (actual_table : list (list string)) (expected_table : list (list cell)) :
  let matched := compute_matched actual_table expected_table in
  (forall no row, actual_table !! no = Some row ->
     forall e, matched !! no = Some e
       <-> (exists info, expected_table !! e = Some info /\ fits row info)
           /\ (forall no', no' < no -> matched !! no' <> Some e)
           /\ (forall e' info', e' < e -> expected_table !! e' = Some info' ->
                 fits row info' ->
                 exists no', no' < no /\ matched !! no' = Some e'))
  /\ (forall no e, matched !! no = Some e ->
        no < length actual_table /\ e < length expected_table)
  /\ (forall k no, no < k ->
        compute_matched (take k actual_table) expected_table !! no
        = matched !! no)
  /\ (forall a b e, matched !! a = Some e -> matched !! b = Some e -> a = b).
Proof.
  intros matched. subst matched. split; [|split; [|split]].
  - intros no row Hrow e. by apply compute_matched_greedy.
  - intros no e Hno. split.
    + by eapply compute_matched_dom.
    + by eapply compute_matched_range.
  - intros k no Hlt. by apply compute_matched_take.
  - apply compute_matched_inj.
Qed.

(** ** The output of match_table *)

(** The last loop on the raw lines from index [no] on, when the list to
    pop from is long enough: an index with an entry gets the next popped
    string, any other index keeps its raw line. *)
Lemma compose_spec (m : gmap nat nat) no raw em :
  length (filter (fun i => is_Some (m !! i)) (seq no (length raw))) <= length em ->
  exists out, compose m no raw em = Some out
    /\ length out = length raw
    /\ forall i line, raw !! i = Some line ->
         out !! i
         = if decide (is_Some (m !! (no + i)))
           then em !! length (filter (fun j => is_Some (m !! j)) (seq no i))
           else Some line.
Proof.
  revert no em. induction raw as [|row raw IH]; intros no em Hlen.
  - exists []. by repeat split.
  - simpl in Hlen. rewrite filter_cons in Hlen. simpl.
    case_bool_decide as Hno.
    + rewrite decide_True in Hlen by done.
      destruct em as [|e em]; simpl in Hlen; [lia|].
      destruct (IH (S no) em) as (out & -> & Hout & Hat); [lia|].
      exists (e :: out). simpl. split; [done|]. split; [by rewrite Hout|].
      intros [|i] line Hline; simpl in *.
      * rewrite Nat.add_0_r. rewrite decide_True by done. done.
      * rewrite (Hat i line Hline).
        replace (no + S i) with (S (no + i)) by lia.
        destruct (decide (is_Some (m !! (S (no + i))))); [|done].
        rewrite filter_cons, decide_True by done. done.
    + rewrite decide_False in Hlen by done.
      destruct (IH (S no) em) as (out & -> & Hout & Hat); [lia|].
      exists (row :: out). simpl. split; [done|]. split; [by rewrite Hout|].
      intros [|i] line Hline; simpl in *.
      * rewrite Nat.add_0_r. rewrite decide_False by done. done.
      * rewrite (Hat i line Hline).
        replace (no + S i) with (S (no + i)) by lia.
        destruct (decide (is_Some (m !! (S (no + i))))); [|done].
        rewrite filter_cons, decide_False by done. done.
Qed.

Lemma elem_of_positions m n no :
  no ∈ positions m n <-> is_Some (m !! no) /\ no < n.
Proof.
  unfold positions. rewrite list_elem_of_filter, elem_of_seq. intuition lia.
Qed.

Lemma positions_S m n :
  positions m (S n)
  = positions m n ++ (if decide (is_Some (m !! n)) then [n] else []).
Proof.
  unfold positions. rewrite seq_S, filter_app. f_equal.
Qed.

(** The [k]-th position has [k] positions below it. *)
Lemma positions_rank m n k no :
  positions m n !! k = Some no -> length (positions m no) = k.
Proof.
  induction n as [|n IH]; [done|].
  rewrite positions_S. intros Hk.
  destruct (decide (k < length (positions m n))) as [Hlt|Hge].
  - rewrite lookup_app_l in Hk by done. by apply IH.
  - rewrite lookup_app_r in Hk by lia.
    destruct (decide (is_Some (m !! n))); [|done].
    destruct (k - length (positions m n)) eqn:Hd; [|done].
    simplify_eq/=. lia.
Qed.

Lemma positions_NoDup m n : NoDup (positions m n).
Proof. apply NoDup_filter, NoDup_seq. Qed.

Lemma positions_sorted m n : StronglySorted lt (positions m n).
Proof.
  induction n as [|n IH]; [constructor|].
  rewrite positions_S. apply StronglySorted_app. split; [|split; [done|]].
  - intros a b [_ Ha]%elem_of_positions Hb.
    destruct (decide _); [|by apply elem_of_nil in Hb].
    apply list_elem_of_singleton in Hb. lia.
  - destruct (decide _); repeat constructor.
Qed.

Lemma length_values (m : gmap nat nat) : length (values m) = size m.
Proof. unfold values. by rewrite length_fmap, length_map_to_list. Qed.

(** There are no more positions than entries. *)
Lemma length_positions m n : length (positions m n) <= size m.
Proof.
  rewrite <-length_map_to_list, <-(length_fmap fst).
  apply submseteq_length, NoDup_submseteq; [apply positions_NoDup|].
  intros no [[e He] _]%elem_of_positions.
  apply list_elem_of_fmap. exists (no, e). split; [done|].
  by apply elem_of_map_to_list.
Qed.

Lemma taken_perm m : taken m ≡ₚ values m.
Proof. apply merge_sort_Permutation. Qed.

Lemma elem_of_taken m e : e ∈ taken m <-> exists no, m !! no = Some e.
Proof. by rewrite taken_perm, elem_of_values. Qed.

Lemma length_taken m : length (taken m) = size m.
Proof. by rewrite taken_perm, length_values. Qed.

(** [expected_raw[i] for i in sorted(matched.values())] is defined when the
    raw lines cover the expected rows that were taken. *)
Lemma expected_matched_Some m (expected_raw : list string) :
  (forall e, e ∈ values m -> e < length expected_raw) ->
  exists em, mapM (fun i => expected_raw !! i) (taken m) = Some em
    /\ length em = size m
    /\ forall k, em !! k = taken m !! k ≫= (fun e => expected_raw !! e).
Proof.
  intros Hcover.
  destruct (mapM (fun i => expected_raw !! i) (taken m)) as [em|] eqn:Hem.
  - exists em. split; [done|]. apply mapM_Some in Hem.
    split; [by rewrite <-(Forall2_length _ _ _ Hem), length_taken|].
    intros k. destruct (taken m !! k) as [e|] eqn:Hk; simpl.
    + destruct (Forall2_lookup_l _ _ _ _ _ Hem Hk) as (line & -> & Hline).
      done.
    + apply lookup_ge_None in Hk. apply lookup_ge_None.
      by rewrite <-(Forall2_length _ _ _ Hem).
  - exfalso. apply mapM_None in Hem.
    apply Exists_exists in Hem as (e & He & Hnone).
    rewrite taken_perm in He. apply Hcover in He.
    apply lookup_ge_None in Hnone. lia.
Qed.

Lemma positions_lookup_rank m n no :
  is_Some (m !! no) -> no < n ->
  positions m n !! length (positions m no) = Some no.
Proof.
  intros Hno. induction n as [|n IH]; [lia|]. intros Hlt.
  rewrite positions_S. destruct (decide (no = n)) as [->|Hne].
  - rewrite lookup_app_r by lia. rewrite Nat.sub_diag, decide_True by done.
    done.
  - rewrite lookup_app_l; [apply IH; lia|].
    eapply lookup_lt_Some, IH. lia.
Qed.

Lemma values_lt_length A E e :
  e ∈ values (compute_matched A E) -> e < length E.
Proof. intros [no Hno]%elem_of_values. by eapply compute_matched_range. Qed.

Lemma covered_of_length A E (rawE : list string) :
  length E <= length rawE -> covered (compute_matched A E) rawE.
Proof.
  intros Hlen no e Hno. apply compute_matched_range in Hno. lia.
Qed.

(** What match_table returns when every expected row taken has a raw
    line: a line for each actual raw line; at an index with an entry, the
    raw line of the [k]-th expected row taken, [k] being the number of
    entries below the index; at any other index, the actual raw line. *)
Lemma match_table_exact A E rawA rawE :
  covered (compute_matched A E) rawE ->
  exists out, match_table A E rawA rawE = Some out
    /\ length out = length rawA
    /\ forall no line, rawA !! no = Some line ->
         out !! no
         = if decide (is_Some (compute_matched A E !! no))
           then taken (compute_matched A E)
                  !! length (positions (compute_matched A E) no)
                  ≫= (fun e => rawE !! e)
           else Some line.
Proof.
  intros Hcover. unfold match_table.
  destruct (expected_matched_Some (compute_matched A E) rawE)
    as (em & Hem & Hlen & Hat).
  { intros e [no Hno]%elem_of_values. by eapply Hcover. }
  fold (taken (compute_matched A E)). rewrite Hem. simpl.
  destruct (compose_spec (compute_matched A E) 0 rawA em)
    as (out & Hout & Hlen' & Hat').
  { rewrite Hlen. apply length_positions. }
  exists out. split; [done|]. split; [done|].
  intros no line Hline. rewrite (Hat' no line Hline). simpl.
  destruct (decide _); [|done]. apply Hat.
Qed.

Lemma match_table_spec A E rawA rawE :
  length E <= length rawE ->
  exists out, match_table A E rawA rawE = Some out
    /\ length out = length rawA
    /\ forall no line, rawA !! no = Some line ->
         out !! no
         = if decide (is_Some (compute_matched A E !! no))
           then taken (compute_matched A E)
                  !! length (positions (compute_matched A E) no)
                  ≫= (fun e => rawE !! e)
           else Some line.
Proof. intros Hlen. by apply match_table_exact, covered_of_length. Qed.

(** At an index with an entry, the line put in is the raw line of an
    expected row that was taken. *)
Lemma taken_at_rank A E (rawA rawE : list string) no :
  covered (compute_matched A E) rawE ->
  is_Some (compute_matched A E !! no) -> no < length rawA ->
  exists e line,
    taken (compute_matched A E) !! length (positions (compute_matched A E) no)
    = Some e
    /\ rawE !! e = Some line.
Proof.
  intros Hcover Hno Hlt.
  pose proof (positions_lookup_rank _ _ _ Hno Hlt) as Hk.
  apply lookup_lt_Some in Hk.
  pose proof (length_positions (compute_matched A E) (length rawA)) as Hle.
  destruct (lookup_lt_is_Some_2 (taken (compute_matched A E))
              (length (positions (compute_matched A E) no))) as [e He].
  { rewrite length_taken. lia. }
  assert (e < length rawE) as Hlt'.
  { apply list_elem_of_lookup_2 in He.
    apply elem_of_taken in He as [no' Hno']. by eapply Hcover. }
  destruct (lookup_lt_is_Some_2 rawE e Hlt') as [line Hline].
  by exists e, line.
Qed.

Lemma unmatched_row A E no row :
  A !! no = Some row ->
  (forall info, info ∈ E -> ~ fits row info) ->
  compute_matched A E !! no = None.
Proof.
  intros Hrow Hnofit.
  destruct (compute_matched A E !! no) as [e|] eqn:Hno; [|done].
  apply (compute_matched_greedy _ _ _ _ _ Hrow) in Hno
    as ((info & Hinfo & Hfit) & _).
  destruct (Hnofit info); [|done]. by eapply list_elem_of_lookup_2.
Qed.

Lemma values_NoDup A E : NoDup (values (compute_matched A E)).
Proof.
  unfold values. apply NoDup_fmap_2_strong; [|apply NoDup_map_to_list].
  intros [a e] [b e'] Ha%elem_of_map_to_list Hb%elem_of_map_to_list ?.
  simplify_eq/=. f_equal. by eapply compute_matched_inj.
Qed.

Lemma StronglySorted_le_lt (l : list nat) :
  StronglySorted le l -> NoDup l -> StronglySorted lt l.
Proof.
  induction 1 as [|x l Hl IH Hx]; intros Hnodup; [constructor|].
  apply NoDup_cons in Hnodup as [Hnotin Hnodup].
  constructor; [by apply IH|].
  apply Forall_forall. intros y Hy.
  pose proof (proj1 (Forall_forall _ _) Hx y Hy) as Hle.
  destruct (decide (x = y)) as [->|Hne]; [done|]. lia.
Qed.

(** The expected rows taken are listed in strictly ascending order. *)
Lemma taken_sorted A E : StronglySorted lt (taken (compute_matched A E)).
Proof.
  apply StronglySorted_le_lt.
  - apply StronglySorted_merge_sort; apply _.
  - rewrite taken_perm. apply values_NoDup.
Qed.

(** When the expected rows taken are the indices below [n] that have an
    entry, the sorted list of the one is the ascending list of the other. *)
Lemma taken_eq_positions A E n :
  (forall e, (exists no, compute_matched A E !! no = Some e)
             <-> is_Some (compute_matched A E !! e) /\ e < n) ->
  taken (compute_matched A E) = positions (compute_matched A E) n.
Proof.
  intros Hsame. apply (StronglySorted_unique_strong lt).
  - intros; lia.
  - apply taken_sorted.
  - apply positions_sorted.
  - apply NoDup_Permutation.
    + rewrite taken_perm. apply values_NoDup.
    + apply positions_NoDup.
    + intros e. by rewrite elem_of_taken, elem_of_positions.
Qed.

(** In that case every index keeps its place: an index with an entry gets
    the expected raw line of the same index. *)
Lemma match_table_aligned A E rawA rawE out :
  length E <= length rawE ->
  taken (compute_matched A E) = positions (compute_matched A E) (length rawA) ->
  match_table A E rawA rawE = Some out ->
  length out = length rawA
  /\ forall no line, rawA !! no = Some line ->
       out !! no
       = if decide (is_Some (compute_matched A E !! no))
         then rawE !! no else Some line.
Proof.
  intros Hcover Htaken Hout.
  destruct (match_table_spec A E rawA rawE Hcover) as (out' & Hout' & Hlen & Hat).
  simplify_eq. split; [done|].
  intros no line Hline. rewrite (Hat no line Hline).
  destruct (decide _) as [Hno|]; [|done].
  rewrite Htaken, positions_lookup_rank; [done..|].
  by eapply lookup_lt_Some.
Qed.

(** When every actual row is matched and the tables have the same number
    of rows, every expected row is taken. *)
Lemma all_matched_onto A E :
  length A = length E ->
  (forall no, no < length A -> is_Some (compute_matched A E !! no)) ->
  forall e, (exists no, compute_matched A E !! no = Some e) <-> e < length E.
Proof.
  intros Hsize Hall.
  assert ((map_to_list (compute_matched A E)).*1 ≡ₚ seq 0 (length A)) as Hkeys.
  { apply NoDup_Permutation;
      [apply NoDup_fst_map_to_list | apply NoDup_seq |].
    intros no. rewrite elem_of_seq, list_elem_of_fmap. split.
    - intros ([no' e] & -> & Hin%elem_of_map_to_list).
      apply compute_matched_dom in Hin. simpl. lia.
    - intros [_ Hlt]. destruct (Hall no) as [e He]; [lia|].
      exists (no, e). split; [done|]. by apply elem_of_map_to_list. }
  assert (values (compute_matched A E) ≡ₚ seq 0 (length E)) as Hvalues.
  { apply submseteq_length_Permutation.
    - apply NoDup_submseteq; [apply values_NoDup|].
      intros e He%values_lt_length. apply elem_of_seq. lia.
    - unfold values. rewrite length_fmap, <-(length_fmap fst), Hkeys.
      rewrite !length_seq. lia. }
  intros e. rewrite <-elem_of_values, Hvalues, elem_of_seq. lia.
Qed.

Lemma StronglySorted_fmap_on {A B} (R1 : relation A) (R2 : relation B)
    (f : A -> B) (l : list A) :
  (forall x y, x ∈ l -> y ∈ l -> R1 x y -> R2 (f x) (f y)) ->
  StronglySorted R1 l -> StronglySorted R2 (f <$> l).
Proof.
  intros Hf Hl. induction Hl as [|x l Hl IH Hx]; [constructor|].
  rewrite fmap_cons. constructor.
  - apply IH. intros y z Hy Hz. apply Hf; by right.
  - apply Forall_fmap, Forall_forall. intros y Hy. simpl.
    apply Hf; [by left | by right|].
    by apply (proj1 (Forall_forall _ _) Hx).
Qed.

(** When the matching keeps the rows in their order, the expected rows
    taken, in ascending order, are the rows matched to the actual rows
    that have an entry, in the order of these: the [k]-th actual row with
    an entry is matched to the [k]-th expected row taken. *)
Lemma taken_order_preserving A E no e :
  order_preserving (compute_matched A E) ->
  compute_matched A E !! no = Some e ->
  taken (compute_matched A E) !! length (positions (compute_matched A E) no)
  = Some e.
Proof.
  intros Horder Hno. set (m := compute_matched A E) in *.
  set (f := fun no => default 0 (m !! no)).
  assert (taken m = f <$> positions m (length A)) as ->.
  { apply (StronglySorted_unique_strong lt).
    - intros; lia.
    - apply taken_sorted.
    - apply (StronglySorted_fmap_on lt lt); [|apply positions_sorted].
      intros a b [[ea Ha] _]%elem_of_positions [[eb Hb] _]%elem_of_positions
        Hlt.
      unfold f. rewrite Ha, Hb. simpl. by eapply Horder.
    - apply NoDup_Permutation.
      + rewrite taken_perm. apply values_NoDup.
      + apply NoDup_fmap_2_strong; [|apply positions_NoDup].
        intros a b [[ea Ha] _]%elem_of_positions
          [[eb Hb] _]%elem_of_positions.
        unfold f. rewrite Ha, Hb. simpl. intros ->.
        by eapply compute_matched_inj.
      + intros e'. rewrite elem_of_taken, list_elem_of_fmap. split.
        * intros [no' Hno']. exists no'. unfold f. rewrite Hno'.
          split; [done|]. apply elem_of_positions. split; [by eexists|].
          by eapply compute_matched_dom.
        * intros (no' & -> & [[e'' He''] _]%elem_of_positions).
          exists no'. unfold f. by rewrite He''. }
  rewrite list_lookup_fmap, positions_lookup_rank.
  - simpl. unfold f. by rewrite Hno.
  - by eexists.
  - by eapply compute_matched_dom.
Qed.




(** C10 as stated fails in its last part: every actual row is matched
    and the tables have the same size, but the output is not the expected
    raw lines when the actual raw lines are more than the rows.  Here the
    CLI prints a blank line before the one line of the map, as at the call
    of run_test. *)
Lemma more_raw_lines_than_rows :
  table_from_lines (split_on LF (NL +:+ "name: a" +:+ NL))
    ("$ ndcli show zone a" +:+ NL) = [["name"; " a"]]
  /\ splitlines_keep (NL +:+ "name: a" +:+ NL) = [NL; "name: a" +:+ NL]
  /\ compute_matched [["name"; " a"]] [[CStr "name"; CStr " a"]] !! 0 = Some 0
  /\ match_table [["name"; " a"]] [[CStr "name"; CStr " a"]]
       [NL; "name: a" +:+ NL] ["name: a" +:+ NL]
     = Some ["name: a" +:+ NL; "name: a" +:+ NL].
Proof. repeat split; vm_compute; reflexivity. Qed.

(** C10, amended: the order of the substituted lines.  Provided every
    expected row that was taken has a raw line: the indices of the raw
    lines that are replaced and the expected rows that were taken are both
    listed in strictly ascending order, and the [k]-th index receives the
    raw text of the [k]-th expected row taken; when every actual row is
    matched, the tables have the same size and each list of raw lines has
    one line for each row of its table, the output is the expected raw
    lines in their declared order.  The line an index receives need not be
    that of the expected row its own row was matched to: with actual rows
    b, a and expected rows a, b, the row b is matched to the expected row 1
    and receives the raw line of the expected row 0. *)
Theorem match_table_declaration_order :
  (forall (actual_table : list (list string))
          (expected_table : list (list cell))
          (actual_raw expected_raw : list string),
     let matched := compute_matched actual_table expected_table in
     covered matched expected_raw ->
     exists out,
       match_table actual_table expected_table actual_raw expected_raw
       = Some out
       /\ StronglySorted lt (positions matched (length actual_raw))
       /\ (forall no, no ∈ positions matched (length actual_raw)
                      <-> is_Some (matched !! no) /\ no < length actual_raw)
       /\ StronglySorted lt (taken matched)
       /\ (forall e, e ∈ taken matched <-> exists no, matched !! no = Some e)
       /\ (forall k no, positions matched (length actual_raw) !! k = Some no ->
             exists e text,
               taken matched !! k = Some e
               /\ expected_raw !! e = Some text
               /\ out !! no = Some text)
       /\ (length actual_table = length expected_table ->
           length actual_raw = length actual_table ->
           length expected_raw = length expected_table ->
           (forall no, no < length actual_table -> is_Some (matched !! no)) ->
           out = expected_raw))
  /\ (compute_matched [["b"]; ["a"]] [[CStr "a"]; [CStr "b"]] !! 0 = Some 1
      /\ match_table [["b"]; ["a"]] [[CStr "a"]; [CStr "b"]]
           ["b"; "a"] ["a"; "b"] = Some ["a"; "b"]).
Proof.
  split; [|by vm_compute].
  intros A E rawA rawE matched Hcover. subst matched.
  destruct (match_table_exact A E rawA rawE Hcover) as (out & Hout & Hlen & Hat).
  exists out. split; [done|].
  split; [apply positions_sorted|]. split; [apply elem_of_positions|].
  split; [apply taken_sorted|]. split; [apply elem_of_taken|]. split.
  - intros k no Hk.
    pose proof (list_elem_of_lookup_2 _ _ _ Hk) as [Hno Hlt]%elem_of_positions.
    destruct (lookup_lt_is_Some_2 rawA no Hlt) as [line Hline].
    destruct (taken_at_rank A E rawA rawE no Hcover Hno Hlt)
      as (e & text & He & Htext).
    rewrite (positions_rank _ _ _ _ Hk) in He.
    exists e, text. split; [done|]. split; [done|].
    rewrite (Hat no line Hline), decide_True by done.
    rewrite (positions_rank _ _ _ _ Hk), He. done.
  - intros Hsize HrawA HrawE Hall.
    assert (length E <= length rawE) as Hlen' by lia.
    destruct (match_table_aligned A E rawA rawE out Hlen') as [_ Hsame];
      [|done|].
    { apply taken_eq_positions. intros e.
      rewrite (all_matched_onto A E Hsize Hall e). split.
      - intros He. split; [apply Hall|]; lia.
      - lia. }
    apply list_eq. intros no.
    destruct (rawA !! no) as [line|] eqn:Hline.
    + rewrite (Hsame no line Hline), decide_True; [done|].
      apply Hall. apply lookup_lt_Some in Hline. lia.
    + apply lookup_ge_None in Hline.
      rewrite (proj2 (lookup_ge_None out no)) by lia.
      symmetry. apply lookup_ge_None. lia.
Qed.

Lemma match_table_declaration_order_witness :
  exists out,
    match_table [["x"]; ["y"]] [[CStr "y"]; [CStr "x"]] ["x"; "y"] ["Y"; "X"]
    = Some out
    /\ out = ["Y"; "X"].
Proof.
  destruct (proj1 match_table_declaration_order
              [["x"]; ["y"]] [[CStr "y"]; [CStr "x"]] ["x"; "y"] ["Y"; "X"])
    as (out & Hout & _ & _ & _ & _ & _ & Hall).
  - apply covered_of_length. simpl. lia.
  - exists out. split; [exact Hout|].
    apply Hall; [reflexivity..|].
    intros no Hno. simpl in Hno.
    destruct no as [|[|no]]; [vm_compute; eauto | vm_compute; eauto | lia].
Defined.

(** ** Examples of the specification *)

(** C4: permutation tolerance.  On the actual rows b, a and the expected
    rows a, b (one literal cell each, the raw lines being the cell texts)
    match_table matches both actual rows and its output is the expected raw
    lines, while process_command on the same two lists of lines, without
    sorting, returns False. *)
Theorem permutation_tolerance `{Re} :
  compute_matched [["b"]; ["a"]] [[CStr "a"]; [CStr "b"]] !! 0 = Some 1
  /\ compute_matched [["b"]; ["a"]] [[CStr "a"]; [CStr "b"]] !! 1 = Some 0
  /\ match_table [["b"]; ["a"]] [[CStr "a"]; [CStr "b"]] ["b"; "a"] ["a"; "b"]
     = Some ["a"; "b"]
  /\ process_command [Str "b"; Str "a"] ["a"; "b"] [] false
     = Some (["b" +:+ NL; "a" +:+ NL], false).
Proof. repeat split; vm_compute; reflexivity. Qed.

(** C5: fixed-width extraction.  For a command of the fixed-width shape,
    the header line and the data line of the specification give the
    offsets 0, 6 and 12, each found by a search that starts just past the
    offset before it, and the data row host1, A, 3600, after the row of the
    header itself; no cell of the two rows has white space at either
    end. *)
Theorem fixed_width_roundtrip (cmd : string) :
  generates_map cmd = false -> is_tab_shape cmd = false ->
  let header := "NAME  TYPE  TTL" in
  split_ws header = ["NAME"; "TYPE"; "TTL"]
  /\ find_offsets header (split_ws header)
     = [find header "NAME" 0; find header "TYPE" (0 + 1);
        find header "TTL" (6 + 1)]
  /\ find_offsets header (split_ws header) = [0; 6; 12]%Z
  /\ table_from_lines [header; "host1  A     3600"] cmd
     = [["NAME"; "TYPE"; "TTL"]; ["host1"; "A"; "3600"]]
  /\ Forall (Forall (fun c => strip c = c))
       (table_from_lines [header; "host1  A     3600"] cmd).
Proof.
  intros Hmap Htab header. unfold table_from_lines. rewrite Hmap, Htab.
  repeat split; try (vm_compute; reflexivity).
  vm_compute. repeat constructor.
Qed.

Lemma fixed_width_roundtrip_witness :
  table_from_lines ["NAME  TYPE  TTL"; "host1  A     3600"]
    ("$ ndcli list rrs" +:+ NL)
  = [["NAME"; "TYPE"; "TTL"]; ["host1"; "A"; "3600"]].
Proof.
  apply (fixed_width_roundtrip ("$ ndcli list rrs" +:+ NL)).
  - vm_compute. reflexivity.
  - vm_compute. reflexivity.
Defined.

(** C6 as stated fails: the second cell of the row parsed from
    ["created: 2020-01-01"] keeps the space after the colon. *)
Lemma map_shape_keeps_space :
  generates_map ("$ ndcli show zone a.de" +:+ NL) = true
  /\ table_from_lines ["created: 2020-01-01"] ("$ ndcli show zone a.de" +:+ NL)
     <> [["created"; "2020-01-01"]].
Proof. split; [by vm_compute|]. vm_compute. intros [=]. Qed.

(** C6, amended: for a map-shape command the line ["created: 2020-01-01"]
    is split at its first colon into the cells ["created"] and
    [" 2020-01-01"], the second with the space that follows the colon;
    add_regex puts the pattern [.*] in the place of the second cell, and
    the annotated row then matches the actual row with the key ["created"]
    and any value. *)
Theorem map_shape_parsing `{Re} (cmd : string) :
  generates_map cmd = true ->
  table_from_lines ["created: 2020-01-01"] cmd = [["created"; " 2020-01-01"]]
  /\ add_regex (map (map CStr) (table_from_lines ["created: 2020-01-01"] cmd)) cmd
     = Some [[CStr "created"; CRe RE_ANY]]
  /\ compile ".*" = Some RE_ANY
  /\ (forall v, match_cell (CRe RE_ANY) v = true)
  /\ (forall v, match_row ["created"; v] [CStr "created"; CRe RE_ANY] = true)
  /\ (forall v raw expected_raw,
        match_table [["created"; v]] [[CStr "created"; CRe RE_ANY]]
          [raw] [expected_raw] = Some [expected_raw]).
Proof.
  intros Hmap. unfold table_from_lines, add_regex. rewrite Hmap.
  assert (forall v, match_row ["created"; v] [CStr "created"; CRe RE_ANY] = true)
    as Hrow.
  { intros v. unfold match_row, match_cell.
    cbn -[re_match]. by rewrite re_any_matches. }
  repeat split; try (vm_compute; reflexivity).
  - intros v. apply re_any_matches.
  - done.
  - intros v raw expected_raw. unfold match_table, compute_matched. simpl.
    rewrite Hrow. reflexivity.
Qed.

Lemma map_shape_parsing_witness :
  table_from_lines ["created: 2020-01-01"] ("$ ndcli show zone a.de" +:+ NL)
  = [["created"; " 2020-01-01"]].
Proof.
  apply (map_shape_parsing (H := example_re) ("$ ndcli show zone a.de" +:+ NL)).
  vm_compute. reflexivity.
Defined.

(** ** The line comparator *)

Lemma len_app (a b : string) : len (a +:+ b) = len a + len b.
Proof. unfold len. induction a as [|c a IH]; simpl; [done|]. by rewrite IH. Qed.

Lemma str_drop_app (a b : string) : str_drop (len a) (a +:+ b) = b.
Proof. induction a as [|c a IH]; simpl; [by destruct b|done]. Qed.

Lemma str_take_app (a b : string) : str_take (len a) (a +:+ b) = a.
Proof. induction a as [|c a IH]; simpl; [by destruct b|]. by rewrite IH. Qed.

Lemma endswith_app (a b : string) : endswith (a +:+ b) b = true.
Proof.
  unfold endswith. rewrite len_app.
  replace (len a + len b - len b) with (len a) by lia.
  rewrite str_drop_app, String.eqb_refl, andb_true_r.
  apply Nat.leb_le. lia.
Qed.

Lemma drop_last_app (a b : string) : drop_last (len b) (a +:+ b) = a.
Proof.
  unfold drop_last. rewrite len_app.
  replace (len a + len b - len b) with (len a) by lia.
  apply str_take_app.
Qed.

Lemma rstrip_by_keeps p s c :
  p c = false -> rstrip_by p (s +:+ String c "") = s +:+ String c "".
Proof.
  intros Hc. induction s as [|x s IH].
  - simpl. by rewrite Hc.
  - change (String x s +:+ String c "") with (String x (s +:+ String c "")).
    cbn [rstrip_by]. rewrite IH. by destruct s.
Qed.

Lemma parse_nothing_to_repeat pattern :
  nothing_to_repeat pattern = true -> parse pattern = None.
Proof.
  destruct pattern as [|c rest]; [done|]. simpl. intros Hc.
  unfold parse.
  replace (3 * len (String c rest) + 3) with (S (S (S (3 * len rest + 3))))
    by (unfold len; simpl; lia).
  apply orb_true_iff in Hc as [Hc|Hc];
    [|apply orb_true_iff in Hc as [Hc|Hc];
      [|apply orb_true_iff in Hc as [Hc|Hc]; [|done]]];
    apply Ascii.eqb_eq in Hc; subst c; reflexivity.
Qed.

Lemma compile_nothing_to_repeat `{Re} pattern :
  nothing_to_repeat pattern = true -> compile pattern = None.
Proof.
  intros Hq. unfold compile. by rewrite parse_nothing_to_repeat, Hq.
Qed.

Lemma quantifier_not_pattern_ok `{Re} pattern :
  nothing_to_repeat pattern = true -> ~ pattern_ok (pattern +:+ " re").
Proof.
  intros Hq. unfold pattern_ok.
  assert (strip_chars NL (pattern +:+ " re") = pattern +:+ " re") as ->.
  { unfold strip_chars, strip_by.
    destruct pattern as [|c rest]; [done|].
    assert (eqb_ascii_in c NL = false) as Hc.
    { simpl in Hq.
      apply orb_true_iff in Hq as [Hc|Hq];
        [|apply orb_true_iff in Hq as [Hc|Hq];
          [|apply orb_true_iff in Hq as [Hc|Hq]; [|done]]];
        apply Ascii.eqb_eq in Hc; by subst c. }
    change (String c rest +:+ " re") with (String c (rest +:+ " re")).
    cbn [lstrip_by]. rewrite Hc.
    assert (String c (rest +:+ " re")
            = (String c rest +:+ " r") +:+ String "e" "") as ->.
    { change (String c (rest +:+ " re")) with (String c rest +:+ " re").
      generalize (String c rest). intros a.
      induction a as [|x a IH]; [done|].
      change (String x a +:+ " re") with (String x (a +:+ " re")).
      by rewrite IH. }
    by apply rstrip_by_keeps. }
  intros Hok. destruct Hok as [r Hr]; [apply (endswith_app pattern " re")|].
  pose proof (drop_last_app pattern " re") as Hd.
  change (len " re") with 3 in Hd. rewrite Hd in Hr.
  by rewrite compile_nothing_to_repeat in Hr.
Qed.

(** One pass of the loop of process_command, on an actual line that is a
    [str], writes one string and clears [passed] exactly when the
    position does not pass. *)
Lemma process_line_spec `{Re} out passed a e :
  pattern_ok e ->
  exists w ok,
    process_line (out, passed) (Str a, e) = Some (out ++ [w], passed && ok)
    /\ (ok = true <-> line_passes a e)
    /\ (endswith (strip_chars NL e) " re" = true ->
        exists r, compile (drop_last 3 (strip_chars NL e)) = Some r
          /\ if re_match r a
             then w = strip_chars NL e +:+ NL /\ ok = true
             else w = a +:+ NL /\ ok = false)
    /\ (endswith (strip_chars NL e) " re" = false -> w = a +:+ NL).
Proof.
  unfold pattern_ok, line_passes, process_line, match_text, match_str.
  intros Hok.
  destruct (endswith (strip_chars NL e) " re") eqn:Hre.
  - destruct (Hok eq_refl) as [r Hr]. rewrite Hr. simpl.
    destruct (re_match r a) eqn:Hm.
    + exists (strip_chars NL e +:+ NL), true. rewrite andb_true_r.
      repeat split; try done. exists r. by rewrite Hm.
    + exists (a +:+ NL), false. rewrite andb_false_r.
      repeat split; try done. exists r. by rewrite Hm.
  - exists (a +:+ NL), (String.eqb a (strip_chars NL e)). simpl.
    split; [by destruct (String.eqb a _), passed|].
    split; [apply String.eqb_eq|]. done.
Qed.

(** A pattern that does not compile makes the pass raise, whatever the
    actual line is. *)
Lemma process_line_raises `{Re} st a e :
  ~ pattern_ok e -> process_line st (a, e) = None.
Proof.
  unfold pattern_ok, process_line, match_text. intros Hbad.
  destruct st as [out passed].
  destruct (endswith (strip_chars NL e) " re"); [|by destruct Hbad].
  destruct (compile (drop_last 3 (strip_chars NL e))) eqn:Hc; [|done].
  destruct Hbad. intros _. by eexists.
Qed.

(** An actual line that is a [bytes] makes the pass raise. *)
Lemma process_line_bytes `{Re} st b e :
  process_line st (Bytes b, e) = None.
Proof.
  unfold process_line, match_text. destruct st as [out passed].
  destruct (endswith (strip_chars NL e) " re"); [|done].
  by destruct (compile (drop_last 3 (strip_chars NL e))).
Qed.

Lemma zip_longest_Str (actual expected : list string) :
  zip_longest (Str "") "" (Str <$> actual) expected
  = str_pairs (zip_longest "" "" actual expected).
Proof.
  unfold str_pairs. revert expected.
  induction actual as [|a actual IH]; intros expected.
  - simpl. rewrite <- list_fmap_compose. done.
  - destruct expected as [|e expected].
    + simpl. f_equal. rewrite <- !list_fmap_compose. done.
    + simpl. by rewrite IH.
Qed.

Lemma sort_texts_Str (l : list string) :
  sort_texts (Str <$> l) = Some (Str <$> sort l).
Proof.
  unfold sort_texts.
  assert (mapM as_str (Str <$> l) = Some l) as ->; [|done].
  apply mapM_Some. induction l; by constructor.
Qed.

Lemma process_lines_spec `{Re} pairs out passed :
  (forall a e, (a, e) ∈ pairs -> pattern_ok e) ->
  exists written passed',
    process_lines (out, passed) (str_pairs pairs) = Some (out ++ written, passed')
    /\ length written = length pairs
    /\ (passed' = true
        <-> passed = true /\ forall a e, (a, e) ∈ pairs -> line_passes a e)
    /\ (forall i a e, pairs !! i = Some (a, e) ->
          endswith (strip_chars NL e) " re" = true ->
          exists r, compile (drop_last 3 (strip_chars NL e)) = Some r
            /\ if re_match r a
               then written !! i = Some (strip_chars NL e +:+ NL)
               else written !! i = Some (a +:+ NL) /\ passed' = false)
    /\ (forall i a e, pairs !! i = Some (a, e) ->
          endswith (strip_chars NL e) " re" = false ->
          written !! i = Some (a +:+ NL)).
Proof.
  revert out passed. induction pairs as [|[a e] pairs IH]; intros out passed Hok.
  - exists [], passed. simpl. rewrite app_nil_r.
    split; [done|]. split; [done|]. split; [|split].
    + split; [|by intros [-> _]].
      intros ->. split; [done|]. intros a e Hin. by apply elem_of_nil in Hin.
    + intros i a e Hi. by destruct i.
    + intros i a e Hi. by destruct i.
  - destruct (process_line_spec out passed a e) as (w & ok & Hline & Hpass & Hre & Hplain).
    { apply (Hok a e). by left. }
    destruct (IH (out ++ [w]) (passed && ok)) as (written & passed' & Hrest & Hlen & Hall & Hat & Hat').
    { intros a' e' Hin. apply (Hok a' e'). by right. }
    exists (w :: written), passed'.
    change (process_lines (out, passed) (str_pairs ((a, e) :: pairs)))
      with (process_line (out, passed) (Str a, e)
              ≫= fun st => process_lines st (str_pairs pairs)).
    rewrite Hline. simpl. rewrite Hrest, <-app_assoc. simpl.
    split; [done|]. split; [by rewrite Hlen|]. split; [|split].
    + rewrite Hall, andb_true_iff, Hpass. split.
      * intros [[Hp Ha] Hrest'].
        split; [done|]. intros a' e' [[= -> ->]|Hin]%elem_of_cons; auto.
      * intros [Hp Hall']. repeat split; [done| |].
        -- apply Hall'. by left.
        -- intros a' e' Hin. apply Hall'. by right.
    + intros [|i] a' e' Hi Hends; simpl in *.
      * simplify_eq. destruct (Hre Hends) as (r & Hr & Hcase).
        exists r. split; [done|].
        destruct (re_match r a'); destruct Hcase as [-> ->]; [done|].
        split; [done|]. rewrite andb_false_r in Hall.
        destruct passed'; [|done]. by destruct (proj1 Hall eq_refl).
      * by apply (Hat i a' e').
    + intros [|i] a' e' Hi Hends; simpl in *.
      * simplify_eq. by rewrite (Hplain Hends).
      * by apply (Hat' i a' e').
Qed.

(** The loop raises as soon as the pattern of one expected line does not
    compile. *)
Lemma process_lines_raises `{Re} pairs st :
  (exists a e, (a, e) ∈ pairs /\ ~ pattern_ok e) ->
  process_lines st pairs = None.
Proof.
  revert st. induction pairs as [|[a e] pairs IH]; intros st (a' & e' & Hin & Hbad).
  - by apply elem_of_nil in Hin.
  - simpl. destruct (process_line st (a, e)) as [st'|] eqn:Hline; [|done].
    simpl. apply elem_of_cons in Hin as [[= -> ->]|Hin].
    + by rewrite process_line_raises in Hline.
    + apply IH. eauto.
Qed.

(** C7 as stated fails: a line that ends in [" re"] need not hold a
    pattern.  On the expected line ["* re"], whose pattern starts with a
    quantifier, [re.match] raises, so process_command writes nothing for
    the position and returns nothing. *)
Lemma invalid_pattern_raises :
  endswith "* re" " re" = true
  /\ @compile example_re "*" = None
  /\ @process_command example_re [Str "x"] ["* re" +:+ NL] [] false = None.
Proof. repeat split; vm_compute; reflexivity. Qed.

(** C7, amended: the regex suffix.  In process_command on actual lines
    that are [str]s (the lists being sorted first when sorting is asked
    for, and the shorter one filled up with empty lines): when the pattern
    of every expected line that ends in [" re"] compiles, a line is
    written for every position; at the position of such an expected line
    the pattern is the line without the suffix, matched from the start of
    the actual line; when it matches, the expected line is written and
    the position passes; when it does not, the actual line is written and
    the result is False; the result is True exactly when every position
    passes.  When the pattern of some such line does not compile (a
    pattern that starts with a quantifier never does), process_command
    raises.  The expected line ["^foo.* re"] against ["foobar"] passes and
    is written; ["bar re"] against ["baz"] fails, with ["baz"] written. *)
Theorem process_command_regex_suffix `{Re} :
  (forall (actual_output expected_output out : list string) (sort_before : bool),
     let pairs :=
       zip_longest "" ""
         (if sort_before then sort actual_output else actual_output)
         (if sort_before then sort expected_output else expected_output) in
     ((forall a e, (a, e) ∈ pairs -> pattern_ok e) ->
      exists written passed,
        process_command (Str <$> actual_output) expected_output out sort_before
        = Some (out ++ written, passed)
        /\ length written = length pairs
        /\ (forall i a e, pairs !! i = Some (a, e) ->
              endswith (strip_chars NL e) " re" = true ->
              exists r, compile (drop_last 3 (strip_chars NL e)) = Some r
                /\ if re_match r a
                   then written !! i = Some (strip_chars NL e +:+ NL)
                        /\ line_passes a e
                   else written !! i = Some (a +:+ NL) /\ passed = false)
        /\ (forall i a e, pairs !! i = Some (a, e) ->
              endswith (strip_chars NL e) " re" = false ->
              written !! i = Some (a +:+ NL))
        /\ (passed = true <-> forall a e, (a, e) ∈ pairs -> line_passes a e))
     /\ ((exists a e, (a, e) ∈ pairs /\ ~ pattern_ok e) ->
         process_command (Str <$> actual_output) expected_output out sort_before
         = None))
  /\ (forall pattern, nothing_to_repeat pattern = true ->
        ~ pattern_ok (pattern +:+ " re"))
  /\ process_command [Str "foobar"] ["^foo.* re" +:+ NL] [] false
     = Some (["^foo.* re" +:+ NL], true)
  /\ process_command [Str "baz"] ["bar re" +:+ NL] [] false
     = Some (["baz" +:+ NL], false).
Proof.
  split; [|split; [|by vm_compute]].
  - intros actual_output expected_output out sort_before pairs.
    assert (process_command (Str <$> actual_output) expected_output out
              sort_before
            = process_lines (out, true) (str_pairs pairs)) as ->.
    { unfold process_command, pairs. destruct sort_before.
      - rewrite sort_texts_Str. simpl. by rewrite zip_longest_Str.
      - simpl. by rewrite zip_longest_Str. }
    split.
    + intros Hok.
      destruct (process_lines_spec pairs out true Hok)
        as (written & passed & Hrun & Hlen & Hall & Hat & Hat').
      exists written, passed. split; [done|]. split; [done|].
      split; [|split; [done|]].
      * intros i a e Hi Hends.
        destruct (Hat i a e Hi Hends) as (r & Hr & Hcase).
        exists r. split; [done|]. destruct (re_match r a) eqn:Hm; [|done].
        split; [done|]. unfold line_passes, match_str. rewrite Hends, Hr. simpl.
        by rewrite Hm.
      * rewrite Hall. tauto.
    + intros (a & e & Hin & Hbad). apply process_lines_raises.
      exists (Str a), e. split; [|done].
      unfold str_pairs. apply list_elem_of_fmap. by exists (a, e).
  - intros pattern. apply quantifier_not_pattern_ok.
Qed.

Lemma process_command_regex_suffix_witness :
  exists written passed,
    @process_command example_re [Str "foobar"; Str "x"] ["^foo.* re" +:+ NL]
      [] false
    = Some (written, passed)
    /\ length written = 2.
Proof.
  destruct (proj1 (proj1 (process_command_regex_suffix (H := example_re))
              ["foobar"; "x"] ["^foo.* re" +:+ NL] [] false))
    as (written & passed & Hrun & Hlen & _).
  - intros a e Hin.
    repeat (apply elem_of_cons in Hin as [[= -> ->]|Hin]);
      [| |by apply elem_of_nil in Hin]; intros _; vm_compute; eauto.
  - exists written, passed. split; [exact Hrun | exact Hlen].
Defined.

(** ** The driver *)

Lemma str_app_assoc (a b c : string) : (a +:+ b) +:+ c = a +:+ (b +:+ c).
Proof.
  induction a as [|x a IH]; [done|].
  change (String x ((a +:+ b) +:+ c) = String x (a +:+ (b +:+ c))).
  by rewrite IH.
Qed.

Lemma str_app_nil_r (a : string) : a +:+ "" = a.
Proof.
  induction a as [|x a IH]; [done|].
  change (String x (a +:+ "") = String x a). by rewrite IH.
Qed.

Lemma join_cons (a : string) (l : list string) : join (a :: l) = a +:+ join l.
Proof. reflexivity. Qed.

Lemma join_app (l1 l2 : list string) : join (l1 ++ l2) = join l1 +:+ join l2.
Proof.
  induction l1 as [|a l1 IH]; [done|].
  rewrite <-app_comm_cons, !join_cons, IH. by rewrite str_app_assoc.
Qed.

(** The characters of a line, put together again, are the line. *)
Lemma join_chars (e : string) : join (chars e) = e.
Proof.
  induction e as [|c e IH]; [done|].
  change (String c (join (chars e)) = String c e). by rewrite IH.
Qed.

Lemma weight_app (l1 l2 : list string) :
  weight (l1 ++ l2) = weight l1 + weight l2.
Proof. apply sum_list_with_app. Qed.

Lemma weight_chars_len (e : string) : weight (chars e) = len e.
Proof.
  unfold weight. induction e as [|c e IH]; simpl in *; [done|].
  rewrite IH. done.
Qed.

Lemma weight_chars (e : string) : weight (chars e) <= weight [e].
Proof. rewrite weight_chars_len. unfold weight. simpl. lia. Qed.

(** [get_cat_input] takes lines from the head of [lines] and writes each
    of them; what it takes does not depend on the file. *)
Lemma get_cat_input_from_spec cat_input lines word :
  exists cat_input' consumed rest,
    lines = consumed ++ rest
    /\ forall out,
         get_cat_input_from cat_input lines word out
         = (cat_input', rest, out ++ consumed).
Proof.
  revert cat_input. induction lines as [|line lines IH]; intros cat_input.
  - exists cat_input, [], []. split; [done|]. intros out. simpl.
    by rewrite app_nil_r.
  - simpl. destruct (String.eqb line (word +:+ NL)).
    + by exists cat_input, [line], lines.
    + destruct (IH (cat_input +:+ line)) as (ci & consumed & rest & -> & Hrun).
      exists ci, (line :: consumed), rest. split; [done|].
      intros out. rewrite Hrun, <-app_assoc. done.
Qed.

(** The first inner loop splits [lines] before the first line that starts
    with ["$ "]. *)
Lemma collect_expected_spec expected_result lines :
  exists block rest,
    collect_expected expected_result lines = (expected_result ++ block, rest)
    /\ lines = block ++ rest
    /\ Forall (fun line => startswith line "$ " = false) block
    /\ (forall line, head rest = Some line -> startswith line "$ " = true).
Proof.
  revert expected_result.
  induction lines as [|line lines IH]; intros expected_result; simpl.
  - exists [], []. by rewrite app_nil_r.
  - destruct (startswith line "$ ") eqn:Hline; simpl.
    + exists [], (line :: lines). rewrite app_nil_r.
      repeat split; [constructor|]. by intros ? [= <-].
    + destruct (IH (expected_result ++ [line]))
        as (block & rest & -> & -> & Hblock & Hrest).
      exists (line :: block), rest. rewrite <-app_assoc.
      repeat split; [by constructor | done].
Qed.

(** The second inner loop keeps the text: the block that is left, followed
    by the new [lines], reads as the block followed by the old [lines];
    and it adds nothing to the weight. *)
Lemma push_back_rev_spec rev_expected lines :
  join ((push_back_rev rev_expected lines).1
        ++ (push_back_rev rev_expected lines).2)
  = join (rev rev_expected ++ lines)
  /\ weight (push_back_rev rev_expected lines).2
     <= weight rev_expected + weight lines.
Proof.
  revert lines. induction rev_expected as [|e r IH]; intros lines; simpl.
  - split; [done | lia].
  - destruct (is_ignorable e); simpl.
    + destruct (IH (chars e ++ lines)) as [Hjoin Hweight]. split.
      * rewrite Hjoin, <-!app_assoc, !join_app. simpl.
        by rewrite join_chars, str_app_nil_r.
      * rewrite weight_app in Hweight.
        pose proof (weight_chars e) as He. unfold weight in *. simpl in *. lia.
    + split; [done|]. unfold weight. simpl. lia.
Qed.

Lemma weight_rev (l : list string) : weight (rev l) = weight l.
Proof.
  induction l as [|a l IH]; [done|]. simpl.
  rewrite weight_app, IH. unfold weight. simpl. lia.
Qed.

(** The expected block of a directive and the lines left after it read
    together as the lines before, and the lines left weigh no more. *)
Lemma expected_block_spec lines :
  join ((expected_block lines).1 ++ (expected_block lines).2) = join lines
  /\ weight (expected_block lines).2 <= weight lines.
Proof.
  unfold expected_block.
  destruct (collect_expected_spec [] lines) as (block & rest & -> & -> & _).
  simpl. unfold push_back.
  destruct (push_back_rev_spec (rev block) rest) as [Hjoin Hweight].
  rewrite rev_involutive in Hjoin. split; [done|].
  rewrite weight_rev in Hweight. rewrite weight_app. lia.
Qed.

(** The block that is left does not end in an ignorable line. *)
Lemma push_back_rev_last rev_expected lines e :
  last (push_back_rev rev_expected lines).1 = Some e -> is_ignorable e = false.
Proof.
  revert lines. induction rev_expected as [|e0 r IH]; intros lines; simpl.
  - done.
  - destruct (is_ignorable e0) eqn:He0; simpl.
    + apply IH.
    + rewrite last_snoc. by intros [= <-].
Qed.

Lemma expected_block_last lines e :
  last (expected_block lines).1 = Some e -> is_ignorable e = false.
Proof.
  unfold expected_block. destruct (collect_expected [] lines) as [block rest].
  apply push_back_rev_last.
Qed.

(** The heredoc step takes lines from the head of [lines] and writes each
    of them; what it takes does not depend on the file. *)
Lemma heredoc_spec line lines :
  (forall out, heredoc line lines out = None)
  \/ exists line' cmd_input consumed rest,
       lines = consumed ++ rest
       /\ forall out,
            heredoc line lines out
            = Some (line', cmd_input, rest, out ++ consumed).
Proof.
  unfold heredoc. destruct (startswith line "$ cat <<EOF | ndcli").
  - destruct (split_cat_command line) as [[word line']|]; simpl; [|by left].
    right. unfold get_cat_input.
    destruct (get_cat_input_from_spec "" lines word)
      as (cat_input & consumed & rest & -> & Hrun).
    exists line', (Some cat_input), consumed, rest. split; [done|].
    intros out. by rewrite Hrun.
  - right. exists line, None, [], lines. split; [done|].
    intros out. by rewrite app_nil_r.
Qed.

(** *** The expected raw lines cover the expected table *)

Lemma drop_leading_ignorable_length lines :
  length (drop_leading_ignorable lines) <= length lines.
Proof.
  induction lines as [|line lines IH]; simpl; [done|].
  destruct (is_ignorable line); simpl; lia.
Qed.

Lemma table_from_lines_length lines cmd :
  length (table_from_lines lines cmd) <= length lines.
Proof.
  unfold table_from_lines.
  destruct (generates_map cmd); [|destruct (is_tab_shape cmd)].
  - rewrite length_fmap. apply length_filter.
  - rewrite length_fmap. apply length_filter.
  - pose proof (drop_leading_ignorable_length lines) as Hdrop.
    destruct (drop_leading_ignorable lines) as [|line0 rest] eqn:Hlines;
      [simpl; lia|].
    rewrite length_fmap.
    pose proof (length_filter (fun line => is_ignorable line = false)
                  (line0 :: rest)).
    lia.
Qed.

Lemma directive_tables_length line result expected_result :
  length (directive_tables line result expected_result).2
  <= length expected_result.
Proof.
  unfold directive_tables.
  destruct (generates_table line || generates_map line); simpl.
  - etrans; [apply table_from_lines_length|]. by rewrite length_fmap.
  - by rewrite length_fmap.
Qed.

Lemma when_length b f table table' :
  (forall t t', f t = Some t' -> length t' = length t) ->
  when b f table = Some table' -> length table' = length table.
Proof. intros Hf. unfold when. destruct b; [apply Hf | by intros [= <-]]. Qed.

(** add_regex changes cells only: the annotated table has as many rows. *)
Lemma add_regex_length `{Re} table cmd table' :
  add_regex table cmd = Some table' -> length table' = length table.
Proof.
  assert (forall f (t t' : list (list cell)),
            mapM f t = Some t' -> length t' = length t) as HmapM.
  { intros f t t' Hm. symmetry. by eapply length_mapM. }
  unfold add_regex, check_regexes.
  destruct (generates_map cmd); [apply HmapM|].
  destruct (generates_table cmd).
  - intros Hrun.
    apply bind_Some in Hrun as (t1 & H1 & Hrun).
    apply bind_Some in Hrun as (t2 & H2 & Hrun).
    apply bind_Some in Hrun as (t3 & H3 & Hrun).
    apply bind_Some in Hrun as (t4 & H4 & Hrun).
    apply when_length in H1; [|apply HmapM].
    apply when_length in H2; [|apply HmapM].
    apply when_length in H3; [|apply HmapM].
    apply when_length in H4.
    2:{ intros [|row0 t] t'; [by intros [= <-]|].
        intros (t'' & Hm & ->)%fmap_Some. simpl. f_equal. by eapply HmapM. }
    assert (length table' = length t4) as ->; [|congruence].
    destruct (contains cmd "dcli list zone" || contains cmd "dcli dump zone"
              || contains cmd "dcli list rrs"); [by eapply HmapM|].
    destruct (contains cmd "dcli history"); [by eapply HmapM|].
    by simplify_eq.
  - destruct (contains cmd "dnssec enable" || contains cmd "dnssec new");
      [apply HmapM|].
    destruct (contains cmd "dnssec disable" || contains cmd "dnssec delete"
              || contains cmd "delete zone"); [apply HmapM|].
    by intros [= <-].
Qed.

(** When the matching leaves every row in its place and the actual raw
    lines are the expected ones, match_table returns them as they are. *)
Lemma match_table_in_place A E raw :
  length E <= length raw ->
  in_place (compute_matched A E) ->
  match_table A E raw raw = Some raw.
Proof.
  intros Hcover Hplace.
  destruct (match_table_spec A E raw raw Hcover) as (out & Hout & Hlen & _).
  rewrite Hout. f_equal.
  destruct (match_table_aligned A E raw raw out Hcover) as [_ Hsame]; [|done|].
  { apply taken_eq_positions. intros e. split.
    - intros [no Hno]. pose proof (Hplace no e Hno) as ->. simpl in *.
      split; [by rewrite Hno|].
      apply compute_matched_range in Hno. lia.
    - intros [[e' He'] _]. exists e.
      by rewrite He', (Hplace e e' He'). }
  apply list_eq. intros no. destruct (raw !! no) as [line|] eqn:Hline.
  - rewrite (Hsame no line Hline). by destruct (decide _).
  - apply lookup_ge_None. apply lookup_ge_None in Hline. lia.
Qed.

(** A sufficient condition: the tables have the same number of rows and
    every expected row, as annotated, fits the actual row of its index. *)
Lemma self_match_in_place A E :
  length A = length E ->
  (forall no row info, A !! no = Some row -> E !! no = Some info ->
     fits row info) ->
  in_place (compute_matched A E).
Proof.
  intros Hsize Hfit.
  assert (forall n no, no < n -> no < length A ->
            compute_matched A E !! no = Some no) as Hid.
  { induction n as [|n IH]; [lia|]. intros no Hlt Hdom.
    destruct (decide (no = n)) as [->|]; [|apply IH; lia].
    destruct (lookup_lt_is_Some_2 A n Hdom) as [row Hrow].
    destruct (lookup_lt_is_Some_2 E n) as [info Hinfo]; [lia|].
    apply (compute_matched_greedy _ _ _ _ _ Hrow). split; [|split].
    - exists info. eauto.
    - intros no' Hlt'. rewrite IH by lia. intros [=]. lia.
    - intros e' info' Hlt' _ _. exists e'. split; [done|]. apply IH; lia. }
  intros no e Hno. pose proof (compute_matched_dom _ _ _ _ Hno) as Hdom.
  rewrite (Hid (S no) no) in Hno by lia. by simplify_eq.
Qed.

(** The check of the export writes at the end of the file, if at all. *)
Lemma check_pdns_output_out `{Collaborators W} pdns_needed line out (w : W) :
  check_pdns_output pdns_needed line out w
  = (fun r => (r.1.1, out ++ r.1.2, r.2))
      <$> check_pdns_output pdns_needed line [] w.
Proof.
  unfold check_pdns_output.
  destruct (negb (existsb _ zone_commands)); simpl; [by rewrite app_nil_r|].
  destruct (setup_pdns_output w) as [w1|]; simpl; [|done].
  destruct (wait_updates pdns_needed w1) as [w2|]; simpl; [|done].
  destruct (compare_dim_pdns_zones w2) as [[same w3]|]; simpl; [|done].
  destruct same; simpl; [by rewrite app_nil_r | done].
Qed.

Lemma check_pdns_output_passes `{Collaborators W} pdns_needed line
    (w w' : W) written :
  check_pdns_output pdns_needed line [] w = Some (true, written, w') ->
  written = [].
Proof.
  unfold check_pdns_output.
  destruct (negb (existsb _ zone_commands)); simpl; [by intros [= <- _]|].
  destruct (setup_pdns_output w) as [w1|]; simpl; [|done].
  destruct (wait_updates pdns_needed w1) as [w2|]; simpl; [|done].
  destruct (compare_dim_pdns_zones w2) as [[same w3]|]; simpl; [|done].
  destruct same; simpl; [by intros [= <- _] | done].
Qed.

(** A CLI directive that is reproduced writes its expected block and is
    found ok. *)
Lemma run_ndcli_reproduced `{Collaborators W} pdns_needed auto_pdns_check
    line cmd_input expected_result out (w w1 w2 : W) result :
  run_command line cmd_input w = Some (result, w1) ->
  splitlines_keep result = expected_result ->
  cli_in_place pdns_needed auto_pdns_check line expected_result result w1 ->
  after_check pdns_needed auto_pdns_check line w1 w2 ->
  run_ndcli pdns_needed auto_pdns_check line cmd_input expected_result out w
  = Some (true, out ++ expected_result, w2).
Proof.
  intros Hrun Hlines [(expected_table & Hannot & Hplace) Hcheck] Hafter.
  unfold run_ndcli. rewrite Hrun. simpl.
  pose proof (directive_tables_length line result expected_result) as Hlen.
  destruct (directive_tables line result expected_result)
    as [actual_table expected_table0].
  simpl in *. rewrite Hannot. simpl.
  apply add_regex_length in Hannot. rewrite length_map in Hannot.
  rewrite Hlines, match_table_in_place by (done || lia). simpl.
  rewrite bool_decide_eq_true_2 by done.
  unfold after_check, check_passes in *.
  destruct auto_pdns_check; [|by subst w2].
  destruct Hcheck as (written & w2' & Hcheck).
  destruct Hafter as (exported & written' & Hafter).
  rewrite Hcheck in Hafter. simplify_eq.
  rewrite check_pdns_output_out, Hcheck.
  apply check_pdns_output_passes in Hcheck as ->. simpl.
  by rewrite app_nil_r.
Qed.

(** *** Stripping a line of its newline *)

Lemma lstrip_by_len p s : len (lstrip_by p s) <= len s.
Proof.
  induction s as [|c s IH]; simpl; [done|]. destruct (p c); simpl; lia.
Qed.

Lemma rstrip_by_len p s : len (rstrip_by p s) <= len s.
Proof.
  induction s as [|c s IH]; simpl; [done|].
  destruct (rstrip_by p s); [destruct (p c)|]; simpl in *; lia.
Qed.

(** *** A shell directive *)

(** With nothing printed and nothing expected the comparison writes
    nothing and passes. *)
Lemma process_command_nothing `{Re} out sort_before :
  process_command [] [] out sort_before = Some (out, true).
Proof. by destruct sort_before. Qed.

(** The comparison raises on what the shell prints: the lines are
    [bytes], and the first of them cannot be matched with a [str] pattern
    nor written with a [str] newline. *)
Lemma process_command_bytes `{Re} (result : list bytes) expected_output out
    sort_before :
  result <> [] ->
  process_command (Bytes <$> result) expected_output out sort_before = None.
Proof.
  intros Hresult. unfold process_command.
  assert (exists b rest expected,
            (if sort_before then sort_texts (Bytes <$> result)
             else Some (Bytes <$> result)) = Some (Bytes b :: rest)
            /\ (if sort_before then sort expected_output else expected_output)
               = expected)
    as (b & rest & expected & -> & ->).
  { destruct sort_before.
    - unfold sort_texts.
      assert (mapM as_str (Bytes <$> result) = None) as ->.
      { destruct result as [|b0 result]; [done|]. done. }
      assert (mapM as_bytes (Bytes <$> result) = Some result) as ->.
      { apply mapM_Some. clear. induction result; by constructor. }
      simpl. destruct (sort result) as [|b rest] eqn:Hsort.
      + apply (f_equal length) in Hsort. unfold sort in Hsort.
        rewrite (Permutation_length (merge_sort_Permutation _ result)) in Hsort.
        by destruct result.
      + by exists b, (Bytes <$> rest), (sort expected_output).
    - destruct result as [|b result]; [done|].
      by exists b, (Bytes <$> result), expected_output. }
  destruct expected as [|e expected]; cbn -[process_line];
    by rewrite process_line_bytes.
Qed.

(** A shell directive that is reproduced writes nothing and passes. *)
Lemma run_shell_reproduced `{Collaborators W} pdns_needed line
    expected_result out (w w1 : W) result :
  shell_call pdns_needed line w = Some (result, w1) ->
  add_newline <$> result = expected_result ->
  shell_silent line result ->
  run_shell pdns_needed line expected_result out w
  = Some (true, out ++ expected_result, w1).
Proof.
  unfold shell_call, run_shell, shell_silent. intros Hcall <- ->.
  destruct (if is_pdns_query (strip_chars NL line)
            then wait_updates pdns_needed w else Some w) as [w0|];
    [|done].
  simpl in *. rewrite Hcall. simpl.
  rewrite process_command_nothing. simpl. by rewrite app_nil_r.
Qed.

(** A shell directive whose command prints a line at least raises. *)
Lemma run_shell_raises `{Collaborators W} pdns_needed line expected_result
    out (w w1 : W) result :
  shell_call pdns_needed line w = Some (result, w1) ->
  result <> [] ->
  run_shell pdns_needed line expected_result out w = None.
Proof.
  unfold shell_call, run_shell. intros Hcall Hresult.
  destruct (if is_pdns_query (strip_chars NL line)
            then wait_updates pdns_needed w else Some w) as [w0|];
    [|done].
  simpl in *. rewrite Hcall. simpl.
  by rewrite process_command_bytes.
Qed.

(** *** The heredoc step does not raise *)

Lemma startswith_app s p : startswith s p = true -> exists r, s = p +:+ r.
Proof.
  revert s. induction p as [|a p IH]; intros s; simpl.
  - by exists s.
  - destruct s as [|b s]; [done|].
    intros [Hab Hrest]%andb_true_iff. apply Ascii.eqb_eq in Hab as ->.
    destruct (IH s Hrest) as [r ->]. by exists r.
Qed.

Lemma eqb_ascii_in_app c p r :
  eqb_ascii_in c (p +:+ r) = eqb_ascii_in c p || eqb_ascii_in c r.
Proof.
  induction p as [|a p IH]; [done|].
  change (eqb_ascii_in c (String a (p +:+ r))
          = eqb_ascii_in c (String a p) || eqb_ascii_in c r).
  simpl. by rewrite IH, orb_assoc.
Qed.

Lemma split_on_nonempty sep s : split_on sep s <> [].
Proof.
  destruct s as [|c s]; simpl; [done|].
  destruct (Ascii.eqb c sep); [done|]. by destruct (split_on sep s).
Qed.

(** A string that has the separator splits into two pieces at least. *)
Lemma split_on_second sep s :
  eqb_ascii_in sep s = true -> is_Some (split_on sep s !! 1).
Proof.
  induction s as [|c s IH]; simpl; [done|].
  rewrite (Ascii.eqb_sym sep c).
  destruct (Ascii.eqb c sep) eqn:Hc; simpl.
  - intros _. pose proof (split_on_nonempty sep s).
    destruct (split_on sep s); [done | by eexists].
  - intros Hin. specialize (IH Hin).
    pose proof (split_on_nonempty sep s).
    destruct (split_on sep s) as [|w ws]; [done|]. exact IH.
Qed.

Lemma heredoc_total line lines out : is_Some (heredoc line lines out).
Proof.
  unfold heredoc.
  destruct (startswith line "$ cat <<EOF | ndcli") eqn:Hcat; [|by eexists].
  unfold split_cat_command.
  destruct (split_on_second "|" line) as [piece Hpiece].
  { apply startswith_app in Hcat as [r ->]. by rewrite eqb_ascii_in_app. }
  rewrite Hpiece. simpl.
  destruct (get_cat_input lines "EOF" out) as [[cat_input lines'] out'].
  by eexists.
Qed.

(** *** The loop of the driver *)

Lemma run_lines_S `{Collaborators W} fuel pdns_needed stop_on_error
    auto_pdns_check line lines out (w : W) :
  run_lines (S fuel) pdns_needed stop_on_error auto_pdns_check (line :: lines)
    out w
  = match heredoc line lines (out ++ [line]) with
    | None => Raised
    | Some (line, cmd_input, lines, out) =>
        if startswith line "$ " then
          let '(expected_result, lines) := expected_block lines in
          match
            if startswith line "$ ndcli"
            then run_ndcli pdns_needed auto_pdns_check line cmd_input
                   expected_result out w
            else run_shell pdns_needed line expected_result out w
          with
          | None => Raised
          | Some (ok, out, w) =>
              if stop_on_error && negb ok then Ok (Some false, out, w)
              else run_lines fuel pdns_needed stop_on_error auto_pdns_check
                     lines out w
          end
        else run_lines fuel pdns_needed stop_on_error auto_pdns_check
               lines out w
    end.
Proof. reflexivity. Qed.

Lemma directives_S fuel line lines :
  directives (S fuel) (line :: lines)
  = match heredoc line lines [] with
    | None => []
    | Some (line, cmd_input, lines, _) =>
        if startswith line "$ " then
          let '(expected_result, lines) := expected_block lines in
          (line, cmd_input, expected_result) :: directives fuel lines
        else directives fuel lines
    end.
Proof. reflexivity. Qed.

Lemma answered_cons `{Collaborators W} cli_also shell_also pdns_needed
    auto_pdns_check line cmd_input expected_result ds (w : W) :
  answered cli_also shell_also pdns_needed auto_pdns_check
    ((line, cmd_input, expected_result) :: ds) w
  = if startswith line "$ ndcli" then
      exists result w1 w2,
        run_command line cmd_input w = Some (result, w1)
        /\ splitlines_keep result = expected_result
        /\ cli_also line expected_result result w1
        /\ after_check pdns_needed auto_pdns_check line w1 w2
        /\ answered cli_also shell_also pdns_needed auto_pdns_check ds w2
    else
      exists result w1,
        shell_call pdns_needed line w = Some (result, w1)
        /\ add_newline <$> result = expected_result
        /\ shell_also line result
        /\ answered cli_also shell_also pdns_needed auto_pdns_check ds w1.
Proof. reflexivity. Qed.

Lemma weight_cons line lines :
  weight (line :: lines) = Nat.max 1 (len line) + weight lines.
Proof. reflexivity. Qed.

(** When every directive is reproduced, the loop runs to the end of the
    lines, within its fuel, and what it writes reads as the lines. *)
Lemma run_lines_reproduced `{Collaborators W} fuel pdns_needed stop_on_error
    auto_pdns_check lines out (w : W) :
  weight lines < fuel ->
  reproduced pdns_needed auto_pdns_check (directives fuel lines) w ->
  exists written w',
    run_lines fuel pdns_needed stop_on_error auto_pdns_check lines out w
    = Ok (None, out ++ written, w')
    /\ join written = join lines.
Proof.
  revert lines out w.
  induction fuel as [|fuel IH]; intros lines out w Hfuel Hrep; [lia|].
  destruct lines as [|line lines].
  { exists [], w. simpl. by rewrite app_nil_r. }
  rewrite weight_cons in Hfuel.
  destruct (heredoc_spec line lines)
    as [Hnone|(line' & cmd_input & consumed & rest & -> & Hheredoc)].
  { destruct (heredoc_total line lines []) as [? Hsome].
    by rewrite Hnone in Hsome. }
  rewrite weight_app in Hfuel.
  rewrite run_lines_S, Hheredoc. rewrite directives_S, Hheredoc in Hrep.
  destruct (startswith line' "$ ") eqn:Hdirective.
  - pose proof (expected_block_spec rest) as [Hjoin Hweight].
    destruct (expected_block rest) as [expected_result lines2].
    simpl in Hjoin, Hweight. unfold reproduced in Hrep.
    rewrite answered_cons in Hrep.
    assert (exists w2,
      (if startswith line' "$ ndcli"
       then run_ndcli pdns_needed auto_pdns_check line' cmd_input
              expected_result ((out ++ [line]) ++ consumed) w
       else run_shell pdns_needed line' expected_result
              ((out ++ [line]) ++ consumed) w)
      = Some (true, ((out ++ [line]) ++ consumed) ++ expected_result, w2)
      /\ reproduced pdns_needed auto_pdns_check (directives fuel lines2) w2)
      as (w2 & -> & Hrest).
    { destruct (startswith line' "$ ndcli").
      - destruct Hrep as (result & w1 & w2 & Hrun & Hlines & Halso & Hafter
                          & Hrest).
        exists w2. split; [|done].
        by apply run_ndcli_reproduced with (result := result) (w1 := w1).
      - destruct Hrep as (result & w1 & Hcall & Hlines & Halso & Hrest).
        exists w1. split; [|done].
        by apply run_shell_reproduced with (result := result). }
    rewrite andb_false_r.
    destruct (IH lines2 (((out ++ [line]) ++ consumed) ++ expected_result) w2)
      as (written & w' & -> & Hwritten); [lia | done |].
    exists ([line] ++ consumed ++ expected_result ++ written), w'.
    split; [by rewrite <-!app_assoc|].
    rewrite !join_app, Hwritten, (join_cons line (consumed ++ rest)), join_app.
    rewrite join_app in Hjoin. rewrite <-Hjoin.
    simpl. by rewrite str_app_nil_r.
  - destruct (IH rest ((out ++ [line]) ++ consumed) w)
      as (written & w' & -> & Hwritten); [lia | done |].
    exists ([line] ++ consumed ++ written), w'.
    split; [by rewrite <-!app_assoc|].
    rewrite !join_app, Hwritten, (join_cons line (consumed ++ rest)), join_app.
    simpl. by rewrite str_app_nil_r.
Qed.

(** Being reproduced is more than being answered with the expected
    output. *)
Lemma reproduced_outputs_equal `{Collaborators W} pdns_needed auto_pdns_check
    ds (w : W) :
  reproduced pdns_needed auto_pdns_check ds w ->
  outputs_equal pdns_needed auto_pdns_check ds w.
Proof.
  unfold reproduced, outputs_equal. revert w.
  induction ds as [|[[line cmd_input] expected_result] ds IH]; intros w; [done|].
  rewrite !answered_cons. destruct (startswith line "$ ndcli").
  - intros (result & w1 & w2 & ? & ? & _ & ? & ?). exists result, w1, w2.
    repeat (split; [done|]). by apply IH.
  - intros (result & w1 & ? & ? & _ & ?). exists result, w1.
    repeat (split; [done|]). by apply IH.
Qed.

(** *** Reading the test file *)

Lemma join_lines_of (s : string) : join (lines_of s) = s.
Proof.
  induction s as [|c s IH]; [done|]. cbn [lines_of].
  destruct (Ascii.eqb c LF).
  - rewrite join_cons, IH. done.
  - destruct (lines_of s) as [|line rest].
    + simpl in IH. subst s. done.
    + rewrite join_cons in *. rewrite <- IH. done.
Qed.

(** The lines read are the text of the file with its line ends read as
    LF. *)
Lemma join_readlines (file : string) :
  join (readlines file) = universal_newlines file.
Proof. apply join_lines_of. Qed.

(** Reading loses nothing exactly when the file has no carriage return. *)
Lemma universal_newlines_id (file : string) :
  universal_newlines file = file <-> eqb_ascii_in CR file = false.
Proof.
  induction file as [|c file IH]; [done|].
  cbn [universal_newlines eqb_ascii_in]. rewrite (Ascii.eqb_sym CR c).
  destruct (Ascii.eqb c CR) eqn:Hc; simpl.
  - apply Ascii.eqb_eq in Hc as ->. split; [|done].
    destruct file as [|d file]; [done|].
    destruct (Ascii.eqb d LF); intros [=].
  - rewrite <- IH. split; [by intros [=] | by intros ->].
Qed.

(** C1 as stated fails.  The directive lists the DS records of a zone
    and the CLI prints the expected block, line for line.  The annotation
    puts a digit pattern in the third column of every expected data row,
    which the first actual data row does not match; the second actual data
    row is then matched to the first expected data row and receives its
    raw line, so the file written has the first data row twice, and
    run_test returns False. *)
Lemma reordered_rows_rewrite_block :
  let testfile := "$ ndcli list zone a.de ds" +:+ NL +:+ join example_ds_listing in
  readlines testfile = ("$ ndcli list zone a.de ds" +:+ NL) :: example_ds_listing
  /\ @outputs_equal unit example_world false false
       (directives (S (weight (readlines testfile))) (readlines testfile)) tt
  /\ @run_test unit example_world testfile false false tt
     = Ok (false, ["$ ndcli list zone a.de ds" +:+ NL;
                   "tag alg dt digest" +:+ NL; "1   8   x  abc" +:+ NL;
                   "1   8   x  abc" +:+ NL]).
Proof.
  split; [by vm_compute|]. split; [|by vm_compute].
  vm_compute. exists (join example_ds_listing), tt, tt. by repeat split.
Qed.

(** The expected output does not suffice on the shell path either: what
    the shell prints is a list of [bytes], on which the comparison raises.
    Here the command prints the line hi, which is the expected block. *)
Lemma shell_output_raises :
  @outputs_equal unit example_world false false
    (directives 5 ["$ echo hi" +:+ NL; "hi" +:+ NL]) tt
  /\ @run_test unit example_world ("$ echo hi" +:+ NL +:+ "hi" +:+ NL)
       false false tt
     = Raised.
Proof.
  split; [|by vm_compute].
  vm_compute. exists ["hi"], tt. by repeat split.
Qed.

(** C1, amended: idempotence on success.  For every test file without a
    carriage return, every world and both settings of the two flags: if
    the steps before the loop succeed and every directive, run in its
    turn, is reproduced, then run_test returns True and the file it writes
    is the test file, character for character.  A CLI directive is
    reproduced when its output splits into the lines of its expected
    block, the annotation of its expected table succeeds, the matching
    leaves every row in its place and the check of the export, if made,
    passes; a shell directive, when its command prints nothing and its
    expected block is empty. *)
Theorem idempotence_on_success `{Collaborators W} (testfile : string)
    (stop_on_error auto_pdns_check : bool) (w w0 : W) :
  let lines := readlines testfile in
  let checking := scan_auto_pdns_check lines auto_pdns_check in
  let pdns_needed := scan_pdns_needed lines checking in
  eqb_ascii_in CR testfile = false ->
  prepare pdns_needed checking w = Ok w0 ->
  reproduced pdns_needed checking (directives (S (weight lines)) lines) w0 ->
  exists out,
    run_test testfile stop_on_error auto_pdns_check w = Ok (true, out)
    /\ join out = testfile.
Proof.
  cbv zeta. intros Hcr Hprepare Hrep. unfold run_test. cbv zeta.
  rewrite Hprepare.
  edestruct (run_lines_reproduced (S (weight (readlines testfile))))
    as (written & w' & -> & Hwritten); [|exact Hrep|]; [lia|].
  exists written. simpl. unfold diff.
  rewrite join_readlines in Hwritten.
  apply universal_newlines_id in Hcr. rewrite Hcr in Hwritten.
  rewrite Hwritten, String.eqb_refl. done.
Qed.

Lemma idempotence_on_success_witness :
  exists out,
    @run_test unit example_world example_transcript true false tt
    = Ok (true, out)
    /\ join out = example_transcript.
Proof.
  apply (idempotence_on_success (H := example_world)
           example_transcript true false tt tt).
  - vm_compute. reflexivity.
  - vm_compute. reflexivity.
  - unfold reproduced.
    assert (directives (S (weight (readlines example_transcript)))
              (readlines example_transcript)
            = [("$ ndcli show zone a.de" +:+ NL, None,
                ["name: a.de" +:+ NL; "created: 2020-01-01" +:+ NL]);
               ("$ true" +:+ NL, None, [])]) as ->
      by (vm_compute; reflexivity).
    assert (scan_auto_pdns_check (readlines example_transcript) false = false)
      as -> by (vm_compute; reflexivity).
    assert (scan_pdns_needed (readlines example_transcript) false = false)
      as -> by (vm_compute; reflexivity).
    rewrite answered_cons.
    assert (startswith ("$ ndcli show zone a.de" +:+ NL) "$ ndcli" = true)
      as -> by reflexivity.
    exists ("name: a.de" +:+ NL +:+ "created: 2020-01-01" +:+ NL), tt, tt.
    split; [vm_compute; reflexivity|]. split; [vm_compute; reflexivity|].
    split; [|split; [reflexivity|]].
    + split; [|exact I].
      exists [[CStr "name"; CStr " a.de"]; [CStr "created"; CRe RE_ANY]].
      split; [vm_compute; reflexivity|].
      apply self_match_in_place.
      * vm_compute. reflexivity.
      * intros no row info Hrow Hinfo. apply match_row_fits.
        destruct no as [|[|no]]; vm_compute in Hrow, Hinfo; simplify_eq;
          vm_compute; reflexivity.
    + rewrite answered_cons.
      assert (startswith ("$ true" +:+ NL) "$ ndcli" = false)
        as -> by reflexivity.
      exists [], tt.
      split; [vm_compute; reflexivity|]. split; [reflexivity|].
      split; [reflexivity|exact I].
Defined.

(** The precondition of the statements on match_table holds where
    [run_test] calls it: the annotated expected table has no more rows than
    the expected block has lines. *)
Lemma call_site_cover `{Re} line result expected_result expected_table :
  add_regex (map (map CStr) (directive_tables line result expected_result).2)
    line = Some expected_table ->
  length expected_table <= length expected_result.
Proof.
  intros Hannot%add_regex_length. rewrite length_map in Hannot.
  pose proof (directive_tables_length line result expected_result). lia.
Qed.




(** * Further properties of the script *)

(** ** table_from_lines *)

Lemma filter_drop_leading_ignorable lines :
  filter (fun line => is_ignorable line = false) (drop_leading_ignorable lines)
  = filter (fun line => is_ignorable line = false) lines.
Proof.
  induction lines as [|line lines IH]; simpl; [done|].
  destruct (is_ignorable line) eqn:Hline; [|done].
  rewrite filter_cons_False; [done|]. by rewrite Hline.
Qed.

(** X1: table_from_lines, in each of its three shapes, returns one row for
    each line that is not ignorable; when every line is ignorable (or there
    is none) the table is empty. *)
Theorem table_rows_per_line (lines : list string) (cmd : string) :
  length (table_from_lines lines cmd)
  = length (filter (fun line => is_ignorable line = false) lines)
  /\ (Forall (fun line => is_ignorable line = true) lines ->
      table_from_lines lines cmd = []).
Proof.
  assert (length (table_from_lines lines cmd)
          = length (filter (fun line => is_ignorable line = false) lines))
    as Hlen.
  { unfold table_from_lines.
    destruct (generates_map cmd); [by rewrite length_fmap|].
    destruct (is_tab_shape cmd); [by rewrite length_fmap|].
    rewrite <-filter_drop_leading_ignorable.
    destruct (drop_leading_ignorable lines) as [|line0 rest]; [done|].
    by rewrite length_fmap. }
  split; [done|]. intros Hall. apply length_zero_iff_nil. rewrite Hlen.
  clear Hlen. induction Hall as [|line lines Hline _ IH]; [done|].
  rewrite filter_cons_False; [done|]. by rewrite Hline.
Qed.

Lemma concat_cons_head sep c w ws :
  String.concat sep (String c w :: ws) = String c (String.concat sep (w :: ws)).
Proof. by destruct ws. Qed.

Lemma split_first_concat sep s :
  String.concat (String sep "") (split_first sep s) = s.
Proof.
  induction s as [|c s IH]; [done|]. cbn [split_first].
  destruct (Ascii.eqb c sep) eqn:Hc.
  - apply Ascii.eqb_eq in Hc as ->. done.
  - destruct (split_first sep s) as [|w ws]; [simpl in IH; by subst|].
    rewrite concat_cons_head. by rewrite IH.
Qed.

Lemma split_first_shape sep s :
  exists key rest,
    split_first sep s = key :: rest
    /\ eqb_ascii_in sep key = false
    /\ length rest <= 1.
Proof.
  induction s as [|c s (key & rest & IH & Hkey & Hrest)]; simpl.
  - exists "", []. repeat split; simpl; lia.
  - destruct (Ascii.eqb c sep) eqn:Hc.
    + exists "", [s]. repeat split; simpl; lia.
    + rewrite IH. exists (String c key), rest. simpl.
      rewrite Ascii.eqb_sym, Hc, Hkey. done.
Qed.

(** X2: the map shape keeps the text.  For a map-shape command the rows
    are those of the lines that are not ignorable, in order; each row has
    one cell (a line without colon) or two, the first cell has no colon,
    and the cells of a row joined by a colon are the line. *)
Theorem map_shape_roundtrip (lines : list string) (cmd : string) :
  generates_map cmd = true ->
  Forall2 (fun row line =>
             String.concat ":" row = line
             /\ exists key rest, row = key :: rest
                  /\ eqb_ascii_in ":" key = false /\ length rest <= 1)
    (table_from_lines lines cmd)
    (filter (fun line => is_ignorable line = false) lines).
Proof.
  intros Hmap. unfold table_from_lines. rewrite Hmap.
  apply Forall2_fmap_l, Forall_Forall2_diag, Forall_forall.
  intros line _. split; [apply split_first_concat | apply split_first_shape].
Qed.

Lemma map_shape_roundtrip_witness :
  Forall2 (fun row line =>
             String.concat ":" row = line
             /\ exists key rest, row = key :: rest
                  /\ eqb_ascii_in ":" key = false /\ length rest <= 1)
    (table_from_lines ["ttl: 1:2"; ""; "none"] ("$ ndcli show zone a.de" +:+ NL))
    ["ttl: 1:2"; "none"].
Proof.
  apply (map_shape_roundtrip ["ttl: 1:2"; ""; "none"]
           ("$ ndcli show zone a.de" +:+ NL)).
  vm_compute. reflexivity.
Defined.

Lemma split_on_concat sep s :
  String.concat (String sep "") (split_on sep s) = s.
Proof.
  induction s as [|c s IH]; [done|]. cbn [split_on].
  pose proof (split_on_nonempty sep s) as Hne.
  destruct (Ascii.eqb c sep) eqn:Hc.
  - apply Ascii.eqb_eq in Hc as ->.
    destruct (split_on sep s) as [|w ws]; [done|].
    change (String.concat (String sep "") ("" :: w :: ws))
      with (String sep (String.concat (String sep "") (w :: ws))).
    by rewrite IH.
  - destruct (split_on sep s) as [|w ws]; [done|].
    rewrite concat_cons_head. by rewrite IH.
Qed.

Lemma split_on_no_sep sep s :
  Forall (fun cell => eqb_ascii_in sep cell = false) (split_on sep s).
Proof.
  induction s as [|c s IH]; simpl; [by repeat constructor|].
  destruct (Ascii.eqb c sep) eqn:Hc; [by constructor|].
  destruct (split_on sep s) as [|w ws]; simpl.
  - repeat constructor. simpl. by rewrite Ascii.eqb_sym, Hc.
  - apply Forall_cons in IH as [Hw Hws]. constructor; [|done].
    simpl. by rewrite Ascii.eqb_sym, Hc, Hw.
Qed.

(** X3: the tab-delimited shape keeps the text.  For a command of that
    shape (a machine-readable listing or a zone dump that is not a map
    command) the rows are those of the lines that are not ignorable, in
    order; a row has a cell at least, no cell holds a tab, and the cells of
    a row joined by tabs are the line, empty cells included. *)
Theorem tab_shape_roundtrip (lines : list string) (cmd : string) :
  generates_map cmd = false -> is_tab_shape cmd = true ->
  Forall2 (fun row line =>
             String.concat (String TAB "") row = line
             /\ row <> []
             /\ Forall (fun cell => eqb_ascii_in TAB cell = false) row)
    (table_from_lines lines cmd)
    (filter (fun line => is_ignorable line = false) lines).
Proof.
  intros Hmap Htab. unfold table_from_lines. rewrite Hmap, Htab.
  apply Forall2_fmap_l, Forall_Forall2_diag, Forall_forall.
  intros line _. split; [apply split_on_concat|].
  split; [apply split_on_nonempty | apply split_on_no_sep].
Qed.

Lemma tab_shape_roundtrip_witness :
  Forall2 (fun row line =>
             String.concat (String TAB "") row = line
             /\ row <> []
             /\ Forall (fun cell => eqb_ascii_in TAB cell = false) row)
    (table_from_lines [String "a" (String TAB (String TAB "b")); "# c"]
       ("$ ndcli list zones -H" +:+ NL))
    [String "a" (String TAB (String TAB "b"))].
Proof.
  apply (tab_shape_roundtrip [String "a" (String TAB (String TAB "b")); "# c"]
           ("$ ndcli list zones -H" +:+ NL)).
  - vm_compute. reflexivity.
  - vm_compute. reflexivity.
Defined.

Lemma lstrip_by_head p s c s' : lstrip_by p s = String c s' -> p c = false.
Proof.
  induction s as [|x s IH]; simpl; [done|].
  destruct (p x) eqn:Hx; [done|]. by intros [= <- <-].
Qed.

Lemma rstrip_by_idem p s : rstrip_by p (rstrip_by p s) = rstrip_by p s.
Proof.
  induction s as [|c s IH]; simpl; [done|].
  destruct (rstrip_by p s) as [|x r] eqn:Hr.
  - destruct (p c) eqn:Hc; simpl; [done|]. by rewrite Hc.
  - change (rstrip_by p (String c (String x r)) = String c (String x r)).
    cbn [rstrip_by] in IH |- *. by rewrite IH.
Qed.

Lemma rstrip_by_keeps_head p c s :
  p c = false -> exists r, rstrip_by p (String c s) = String c r.
Proof.
  intros Hc. simpl. destruct (rstrip_by p s); [rewrite Hc|]; by eexists.
Qed.

(** Stripping twice is stripping once. *)
Lemma strip_by_idem p s : strip_by p (strip_by p s) = strip_by p s.
Proof.
  unfold strip_by. destruct (lstrip_by p s) as [|c u] eqn:Hu; [done|].
  pose proof (lstrip_by_head _ _ _ _ Hu) as Hc.
  destruct (rstrip_by_keeps_head p c u Hc) as [r Hr].
  rewrite Hr. simpl lstrip_by. rewrite Hc, <-Hr. apply rstrip_by_idem.
Qed.

Lemma find_offsets_length_from line0 headers offsets :
  length (foldl (find_offsets_step line0) offsets headers)
  = length offsets + length headers.
Proof.
  revert offsets. induction headers as [|h headers IH]; intros offsets; simpl.
  - lia.
  - rewrite IH. unfold find_offsets_step. rewrite length_app. simpl. lia.
Qed.

Lemma head_drop_leading_ignorable lines :
  head (drop_leading_ignorable lines)
  = head (filter (fun line => is_ignorable line = false) lines).
Proof.
  induction lines as [|line lines IH]; simpl; [done|].
  destruct (is_ignorable line) eqn:Hline.
  - rewrite filter_cons_False; [done|]. by rewrite Hline.
  - by rewrite filter_cons_True.
Qed.

(** X4: the fixed-width shape.  For a command of that shape, with the
    header being the first line that is not ignorable: every row has as
    many cells as the header has words, whatever the length of its line,
    and no cell has white space at either end (stripping it changes
    nothing). *)
Theorem fixed_shape_rows (lines : list string) (cmd header : string) :
  generates_map cmd = false -> is_tab_shape cmd = false ->
  head (filter (fun line => is_ignorable line = false) lines) = Some header ->
  Forall (fun row => length row = length (split_ws header)
                     /\ Forall (fun c => strip c = c) row)
    (table_from_lines lines cmd).
Proof.
  intros Hmap Htab Hheader. unfold table_from_lines. rewrite Hmap, Htab.
  rewrite <-head_drop_leading_ignorable in Hheader.
  destruct (drop_leading_ignorable lines) as [|line0 rest]; [done|].
  simpl in Hheader. simplify_eq.
  apply Forall_fmap, Forall_forall. intros line _. simpl.
  unfold fixed_row. split.
  - rewrite length_imap. unfold find_offsets.
    by rewrite find_offsets_length_from.
  - apply Forall_forall. intros c Hc.
    apply list_elem_of_lookup in Hc as [col Hc].
    rewrite list_lookup_imap in Hc.
    destruct (find_offsets header (split_ws header) !! col) as [offset|];
      simplify_eq/=.
    unfold fixed_cell. destruct (offset <? Z.of_nat (len line))%Z; [|done].
    apply strip_by_idem.
Qed.

Lemma fixed_shape_rows_witness :
  Forall (fun row => length row = length (split_ws "NAME  TYPE  TTL")
                     /\ Forall (fun c => strip c = c) row)
    (table_from_lines [""; "NAME  TYPE  TTL"; "host1  A"; "host22222222 AAAA 5"]
       ("$ ndcli list rrs" +:+ NL)).
Proof.
  apply (fixed_shape_rows
           [""; "NAME  TYPE  TTL"; "host1  A"; "host22222222 AAAA 5"]
           ("$ ndcli list rrs" +:+ NL) "NAME  TYPE  TTL").
  - vm_compute. reflexivity.
  - vm_compute. reflexivity.
  - vm_compute. reflexivity.
Defined.

(** ** add_regex *)

Lemma annotated_refl (row : list cell) : Forall2 annotated row row.
Proof. apply Forall_Forall2_diag, Forall_forall. intros c _. by left. Qed.

Lemma annotated_trans (row row' row'' : list cell) :
  Forall2 annotated row row' -> Forall2 annotated row' row'' ->
  Forall2 annotated row row''.
Proof.
  intros H1 H2. revert row'' H2.
  induction H1 as [|c c' row row' Hc _ IH]; intros row'' H2.
  - by apply Forall2_nil_inv_l in H2 as ->.
  - apply Forall2_cons_inv_l in H2 as (c'' & rest & Hc' & Hrest & ->).
    constructor; [|by apply IH].
    destruct Hc' as [->|[r ->]]; [done|]. right. by exists r.
Qed.

Lemma setitem_annotated (row row' : list cell) i r :
  setitem row i (CRe r) = Some row' -> Forall2 annotated row row'.
Proof.
  unfold setitem. destruct (decide (i < length row)); [|done].
  intros [= <-]. clear l. revert i.
  induction row as [|c row IH]; intros i; [constructor|].
  destruct i as [|i]; simpl.
  - constructor; [right; by exists r | apply annotated_refl].
  - constructor; [by left | apply IH].
Qed.

Lemma mapM_annotated (f : list cell -> option (list cell)) table table' :
  (forall row row', f row = Some row' -> Forall2 annotated row row') ->
  mapM f table = Some table' -> Forall2 (Forall2 annotated) table table'.
Proof.
  intros Hf Hm%mapM_Some. eapply Forall2_impl; [exact Hm|]. exact Hf.
Qed.

(** The steps of a row annotation, taken apart: each bind, each test. *)
Ltac annotation_steps :=
  repeat match goal with
    | H : _ ≫= _ = Some _ |- _ => apply bind_Some in H as (? & ? & H)
    | H : (if ?b then _ else _) = Some _ |- _ => destruct b eqn:?
    | H : match ?x with _ => _ end = Some _ |- _ => destruct x eqn:?
    end;
  simplify_eq.

Ltac annotated_chain :=
  repeat match goal with
    | H : setitem _ _ (CRe _) = Some _ |- _ => apply setitem_annotated in H
    end;
  eauto using annotated_refl, annotated_trans.

Lemma annotate_map_row_annotated row row' :
  annotate_map_row row = Some row' -> Forall2 annotated row row'.
Proof.
  unfold annotate_map_row. intros H. annotation_steps; annotated_chain.
Qed.

Lemma annotate_keys_row_annotated first row row' :
  annotate_keys_row first row = Some row' -> Forall2 annotated row row'.
Proof.
  unfold annotate_keys_row. intros H. annotation_steps; annotated_chain.
Qed.

Lemma annotate_dnskeys_row_annotated row row' :
  annotate_dnskeys_row row = Some row' -> Forall2 annotated row row'.
Proof.
  unfold annotate_dnskeys_row. intros H. annotation_steps; annotated_chain.
Qed.

Lemma annotate_ds_row_annotated row row' :
  annotate_ds_row row = Some row' -> Forall2 annotated row row'.
Proof.
  unfold annotate_ds_row. intros H. annotation_steps; annotated_chain.
Qed.

Lemma annotate_rr_col_annotated `{Re} row col row' :
  annotate_rr_col row col = Some row' -> Forall2 annotated row row'.
Proof.
  unfold annotate_rr_col. intros Hrun. annotation_steps; annotated_chain.
Qed.

Lemma annotate_rr_row_annotated `{Re} row row' :
  annotate_rr_row row = Some row' -> Forall2 annotated row row'.
Proof.
  unfold annotate_rr_row. intros Hrun.
  apply bind_Some in Hrun as (r1 & H1%annotate_rr_col_annotated & Hrun).
  apply bind_Some in Hrun as (r2 & H2%annotate_rr_col_annotated & Hrun).
  apply annotate_rr_col_annotated in Hrun. eauto using annotated_trans.
Qed.

Lemma annotate_history_row_annotated row row' :
  annotate_history_row row = Some row' -> Forall2 annotated row row'.
Proof.
  unfold annotate_history_row. intros H. annotation_steps; annotated_chain.
Qed.

Lemma check_regexes_row_annotated regexes row row' :
  check_regexes_row regexes row = Some row' -> Forall2 annotated row row'.
Proof.
  induction regexes as [|regex regexes IH]; simpl.
  - intros [= <-]. apply annotated_refl.
  - intros H. annotation_steps; annotated_chain.
Qed.

Lemma when_annotated b f table table' :
  (forall t t', f t = Some t' -> Forall2 (Forall2 annotated) t t') ->
  when b f table = Some table' -> Forall2 (Forall2 annotated) table table'.
Proof.
  intros Hf. unfold when. destruct b; [apply Hf|]. intros [= <-].
  apply Forall_Forall2_diag, Forall_forall. intros row _. apply annotated_refl.
Qed.

Lemma table_annotated_trans (t t' t'' : list (list cell)) :
  Forall2 (Forall2 annotated) t t' -> Forall2 (Forall2 annotated) t' t'' ->
  Forall2 (Forall2 annotated) t t''.
Proof.
  intros H1 H2. revert t'' H2.
  induction H1 as [|row row' t t' Hrow _ IH]; intros t'' H2.
  - by apply Forall2_nil_inv_l in H2 as ->.
  - apply Forall2_cons_inv_l in H2 as (row'' & rest & Hrow' & Hrest & ->).
    constructor; [by eapply annotated_trans | by apply IH].
Qed.

(** X6: add_regex changes cells into patterns and nothing else.  When it
    returns, the annotated table has the rows of the table, each with as
    many cells, and every cell is the cell before or a pattern: no row or
    cell is added, dropped or moved, and no literal is replaced by another
    literal. *)
Theorem add_regex_only_annotates `{Re} (table : list (list cell)) (cmd : string)
    (table' : list (list cell)) :
  add_regex table cmd = Some table' ->
  Forall2 (Forall2 annotated) table table'
  /\ length table' = length table
  /\ forall no row row', table !! no = Some row -> table' !! no = Some row' ->
       length row' = length row.
Proof.
  intros Hrun.
  assert (Forall2 (Forall2 annotated) table table') as Hall.
  { assert (forall t : list (list cell), Forall2 (Forall2 annotated) t t)
      as Hrefl.
    { intros t. apply Forall_Forall2_diag, Forall_forall.
      intros row _. apply annotated_refl. }
    revert Hrun. unfold add_regex, check_regexes.
    destruct (generates_map cmd).
    { apply mapM_annotated, annotate_map_row_annotated. }
    destruct (generates_table cmd).
    - intros Hrun.
      apply bind_Some in Hrun as (t1 & H1 & Hrun).
      apply bind_Some in Hrun as (t2 & H2 & Hrun).
      apply bind_Some in Hrun as (t3 & H3 & Hrun).
      apply bind_Some in Hrun as (t4 & H4 & Hrun).
      apply when_annotated in H1;
        [|intros t t'; apply mapM_annotated, annotate_keys_row_annotated].
      apply when_annotated in H2;
        [|intros t t'; apply mapM_annotated, annotate_dnskeys_row_annotated].
      apply when_annotated in H3;
        [|intros t t'; apply mapM_annotated, annotate_keys_row_annotated].
      apply when_annotated in H4.
      2:{ intros [|row0 t] t'; [by intros [= <-]|].
          intros (t'' & Hm & ->)%fmap_Some.
          constructor; [apply annotated_refl|].
          revert Hm. apply mapM_annotated, annotate_ds_row_annotated. }
      assert (Forall2 (Forall2 annotated) t4 table') as H5.
      { destruct (contains cmd "dcli list zone" || contains cmd "dcli dump zone"
                  || contains cmd "dcli list rrs").
        { revert Hrun. apply mapM_annotated, annotate_rr_row_annotated. }
        destruct (contains cmd "dcli history").
        { revert Hrun. apply mapM_annotated, annotate_history_row_annotated. }
        simplify_eq. apply Hrefl. }
      eauto using table_annotated_trans.
    - destruct (contains cmd "dnssec enable" || contains cmd "dnssec new").
      { apply mapM_annotated, check_regexes_row_annotated. }
      destruct (contains cmd "dnssec disable" || contains cmd "dnssec delete"
                || contains cmd "delete zone").
      { apply mapM_annotated, check_regexes_row_annotated. }
      intros [= <-]. apply Hrefl. }
  split; [done|]. split; [symmetry; by eapply Forall2_length|].
  intros no row row' Hrow Hrow'.
  pose proof (Forall2_lookup_lr _ _ _ _ _ _ Hall Hrow Hrow') as Hcells.
  symmetry. by eapply Forall2_length.
Qed.

Lemma add_regex_only_annotates_witness :
  Forall2 (Forall2 annotated)
    [[CStr "created"; CStr " 2020"]; [CStr "name"; CStr " a.de"]]
    [[CStr "created"; CRe RE_ANY]; [CStr "name"; CStr " a.de"]].
Proof.
  apply (add_regex_only_annotates (H := example_re)
           [[CStr "created"; CStr " 2020"]; [CStr "name"; CStr " a.de"]]
           ("$ ndcli show zone a.de" +:+ NL)).
  vm_compute. reflexivity.
Defined.

Lemma annotate_map_row_cases row :
  annotate_map_row row
  = match row with
    | [] => None
    | [key] => if stamp_key key then None else Some row
    | _ => Some (stamped row)
    end.
Proof.
  unfold annotate_map_row, stamped, stamp_key, setitem.
  destruct row as [|key [|value rest]]; simpl; [done| |].
  - destruct (cell_is key "created"), (cell_is key "modified"),
      (cell_is key "created_by"), (cell_is key "modified_by"); done.
  - destruct (cell_is key "created"), (cell_is key "modified"),
      (cell_is key "created_by"), (cell_is key "modified_by"); simpl;
      try done; (destruct (decide _); [done | lia]).
Qed.

(** X7: add_regex on a map.  For a map-shape command add_regex raises
    exactly when some row is empty or is the lone key [created],
    [modified], [created_by] or [modified_by] (the row of a line such as
    ["created"], without colon: the value to replace is missing); when it
    returns, the value cell of each row with such a key is the pattern [.*]
    and every other cell is as before. *)
Theorem add_regex_map_rows `{Re} (table : list (list cell)) (cmd : string) :
  generates_map cmd = true ->
  (is_Some (add_regex table cmd) <-> Forall stampable table)
  /\ (forall table', add_regex table cmd = Some table' ->
        table' = stamped <$> table).
Proof.
  intros Hmap. unfold add_regex. rewrite Hmap. split.
  - rewrite mapM_is_Some. apply Forall_iff. intros row. simpl.
    rewrite annotate_map_row_cases. unfold stampable.
    destruct row as [|key [|value rest]].
    + split; [by intros [? ?] | done].
    + destruct (stamp_key key); split; try done; by intros [? ?].
    + split; [done | by eexists].
  - intros table' Hrun%mapM_Some.
    induction Hrun as [|row row' t t' Hrow _ IH]; [done|].
    rewrite fmap_cons, <-IH. f_equal.
    rewrite annotate_map_row_cases in Hrow.
    destruct row as [|key [|value rest]]; [done| |by simplify_eq].
    destruct (stamp_key key) eqn:Hkey; [done|]. by simplify_eq.
Qed.

Lemma add_regex_map_rows_witness :
  @add_regex example_re [[CStr "name"; CStr " a"]; [CStr "created"]]
    ("$ ndcli show zone a.de" +:+ NL) = None.
Proof.
  destruct (add_regex_map_rows (H := example_re)
              [[CStr "name"; CStr " a"]; [CStr "created"]]
              ("$ ndcli show zone a.de" +:+ NL)) as [Hsome _].
  - vm_compute. reflexivity.
  - destruct (add_regex _ _) as [t|] eqn:Hrun; [|reflexivity].
    exfalso. assert (is_Some (Some t)) as Hs by (by eexists).
    apply Hsome in Hs. apply Forall_cons in Hs as [_ Hs].
    apply Forall_cons in Hs as [Hs _]. vm_compute in Hs. discriminate.
Defined.

(** ** match_table *)

(** X8: when match_table raises.  It raises exactly when an expected row
    that was taken has no raw line, its index being past the end of the
    expected raw lines; the actual raw lines never make it raise. *)
Theorem match_table_raises
    (actual_table : list (list string)) (expected_table : list (list cell))
    (actual_raw expected_raw : list string) :
  match_table actual_table expected_table actual_raw expected_raw = None
  <-> exists no e,
        compute_matched actual_table expected_table !! no = Some e
        /\ length expected_raw <= e.
Proof.
  split.
  - intros Hnone.
    destruct (decide (Forall (fun e => e < length expected_raw)
                        (values (compute_matched actual_table expected_table))))
      as [Hall|Hsome].
    + exfalso. rewrite Forall_forall in Hall.
      destruct (expected_matched_Some _ expected_raw Hall)
        as (em & Hem & Hlen & _).
      destruct (compose_spec (compute_matched actual_table expected_table)
                  0 actual_raw em) as (out & Hout & _).
      { rewrite Hlen. apply length_positions. }
      unfold match_table in Hnone. fold (taken (compute_matched actual_table
        expected_table)) in Hnone. rewrite Hem in Hnone. simpl in Hnone.
      congruence.
    + apply not_Forall_Exists in Hsome; [|apply _].
      apply Exists_exists in Hsome as (e & [no Hno]%elem_of_values & Hge).
      exists no, e. split; [done|]. simpl in Hge. lia.
  - intros (no & e & Hno & Hge). unfold match_table.
    destruct (mapM (fun i => expected_raw !! i)
                (merge_sort le (values (compute_matched actual_table
                                          expected_table))))
      as [em|] eqn:Hem; [|done].
    exfalso. apply mapM_Some in Hem.
    assert (e ∈ merge_sort le (values (compute_matched actual_table
                                         expected_table))) as Hin.
    { apply elem_of_taken. eauto. }
    apply list_elem_of_lookup in Hin as [k Hk].
    destruct (Forall2_lookup_l _ _ _ _ _ Hem Hk) as (line & _ & Hline).
    apply lookup_lt_Some in Hline. lia.
Qed.

(** With tables of the same size whose rows fit index by index, every
    actual row is matched to the expected row of its index. *)
Lemma self_match_identity A E no :
  length A = length E ->
  (forall no row info, A !! no = Some row -> E !! no = Some info ->
     fits row info) ->
  no < length A -> compute_matched A E !! no = Some no.
Proof.
  intros Hsize Hfit. induction (lt_wf no) as [no _ IH]. intros Hdom.
  destruct (lookup_lt_is_Some_2 A no Hdom) as [row Hrow].
  destruct (lookup_lt_is_Some_2 E no) as [info Hinfo]; [lia|].
  apply (compute_matched_greedy _ _ _ _ _ Hrow). split; [|split].
  - exists info. eauto.
  - intros no' Hlt. rewrite IH by lia. intros [=]. lia.
  - intros e' info' Hlt _ _. exists e'. split; [done|]. apply IH; lia.
Qed.

(** X9: a passing comparison.  When the actual and the expected table have
    the same number of rows, each list of raw lines has a line for each
    row, and every expected row fits the actual row of the same index
    (literal cells equal, patterns matching), match_table returns the
    expected raw lines, whatever the actual raw lines are: equal rows,
    which each fit more than one expected row, are paired in order. *)
Theorem match_table_passes
    (actual_table : list (list string)) (expected_table : list (list cell))
    (actual_raw expected_raw : list string) :
  length actual_table = length expected_table ->
  length actual_raw = length actual_table ->
  length expected_raw = length expected_table ->
  (forall no row info,
     actual_table !! no = Some row -> expected_table !! no = Some info ->
     fits row info) ->
  match_table actual_table expected_table actual_raw expected_raw
  = Some expected_raw.
Proof.
  intros Hsize HrawA HrawE Hfit.
  destruct (match_table_spec actual_table expected_table actual_raw
              expected_raw) as (out & Hout & Hlen & _); [lia|].
  rewrite Hout. f_equal.
  destruct (match_table_aligned actual_table expected_table actual_raw
              expected_raw out) as [_ Hsame]; [lia | | done |].
  { apply taken_eq_positions. intros e. split.
    - intros [no Hno].
      pose proof (compute_matched_dom _ _ _ _ Hno) as Hdom.
      rewrite (self_match_identity _ _ no Hsize Hfit Hdom) in Hno.
      simplify_eq. split; [|lia].
      by rewrite (self_match_identity _ _ e Hsize Hfit Hdom).
    - intros [_ Hlt]. exists e. apply self_match_identity; [done..|lia]. }
  apply list_eq. intros no. destruct (actual_raw !! no) as [line|] eqn:Hline.
  - rewrite (Hsame no line Hline).
    apply lookup_lt_Some in Hline.
    rewrite decide_True; [done|].
    rewrite (self_match_identity _ _ no Hsize Hfit); [by eexists | lia].
  - apply lookup_ge_None in Hline.
    rewrite (proj2 (lookup_ge_None out no)) by lia.
    symmetry. apply lookup_ge_None. lia.
Qed.

Lemma match_table_passes_witness :
  match_table [["x"; "1"]; ["x"; "2"]]
    [[CStr "x"; CRe RE_ANY]; [CStr "x"; CRe RE_ANY]] ["x 1"; "x 2"]
    ["x 7"; "x 8"]
  = Some ["x 7"; "x 8"].
Proof.
  apply (match_table_passes [["x"; "1"]; ["x"; "2"]]
           [[CStr "x"; CRe RE_ANY]; [CStr "x"; CRe RE_ANY]]);
    try reflexivity.
  intros no row info Hrow Hinfo. apply match_row_fits.
  destruct no as [|[|no]]; simpl in Hrow, Hinfo; simplify_eq;
    vm_compute; reflexivity.
Defined.

(** ** process_command *)

Lemma sort_permutation (l1 l2 : list string) : l1 ≡ₚ l2 -> sort l1 = sort l2.
Proof.
  intros Hperm. unfold sort. apply (Sorted_unique String.le).
  - apply Sorted_merge_sort. apply _.
  - apply Sorted_merge_sort. apply _.
  - by rewrite !merge_sort_Permutation.
Qed.

Lemma mapM_permutation {A B} (f : A -> option B) (l l' : list A) k :
  l ≡ₚ l' -> mapM f l = Some k -> exists k', mapM f l' = Some k' /\ k ≡ₚ k'.
Proof.
  intros Hperm. revert k.
  induction Hperm as [|x l l' _ IH|x y l|l l' l'' _ IH1 _ IH2]; intros k Hk.
  - exists k. done.
  - simpl in *. apply bind_Some in Hk as (y & Hy & Hk).
    apply bind_Some in Hk as (k0 & Hk0 & Hk).
    change (Some (y :: k0) = Some k) in Hk. simplify_eq.
    destruct (IH k0 Hk0) as (k' & -> & Hperm'). rewrite Hy. simpl.
    exists (y :: k'). split; [done|]. by apply Permutation_skip.
  - simpl in *. apply bind_Some in Hk as (y' & Hy' & Hk).
    apply bind_Some in Hk as (k0 & Hk0 & Hk).
    change (Some (y' :: k0) = Some k) in Hk. simplify_eq.
    apply bind_Some in Hk0 as (x' & Hx' & Hk0).
    apply bind_Some in Hk0 as (k1 & Hk1 & Hk0).
    change (Some (x' :: k1) = Some k0) in Hk0. simplify_eq.
    rewrite Hx', Hy', Hk1. simpl.
    exists (x' :: y' :: k1). split; [done|]. apply Permutation_swap.
  - destruct (IH1 k Hk) as (k' & Hk' & Hperm').
    destruct (IH2 k' Hk') as (k'' & Hk'' & Hperm'').
    exists k''. split; [done|]. by etrans.
Qed.

Lemma mapM_permutation_None {A B} (f : A -> option B) (l l' : list A) :
  l ≡ₚ l' -> mapM f l = None -> mapM f l' = None.
Proof.
  intros Hperm Hnone. destruct (mapM f l') as [k'|] eqn:Hk'; [|done].
  symmetry in Hperm.
  destruct (mapM_permutation f l' l k' Hperm Hk') as (k & Hk & _).
  congruence.
Qed.

(** Sorting does not depend on the order of the list, nor does whether it
    raises. *)
Lemma sort_texts_permutation (l l' : list text) :
  l ≡ₚ l' -> sort_texts l = sort_texts l'.
Proof.
  intros Hperm. unfold sort_texts.
  destruct (mapM as_str l) as [strs|] eqn:Hstrs.
  - destruct (mapM_permutation _ _ _ _ Hperm Hstrs) as (strs' & -> & Hp).
    by rewrite (sort_permutation _ _ Hp).
  - rewrite (mapM_permutation_None _ _ _ Hperm Hstrs).
    destruct (mapM as_bytes l) as [bs|] eqn:Hbs.
    + destruct (mapM_permutation _ _ _ _ Hperm Hbs) as (bs' & -> & Hp).
      simpl. by rewrite (sort_permutation _ _ Hp).
    + by rewrite (mapM_permutation_None _ _ _ Hperm Hbs).
Qed.

(** X10: sorting makes the comparison blind to order.  With [sort_before]
    set, process_command gives the same file and the same result, or
    raises alike, for any two orders of the actual lines and any two
    orders of the expected lines. *)
Theorem process_command_sorted_any_order `{Re}
    (actual_output actual_output' : list text)
    (expected_output expected_output' out : list string) :
  actual_output ≡ₚ actual_output' ->
  expected_output ≡ₚ expected_output' ->
  process_command actual_output expected_output out true
  = process_command actual_output' expected_output' out true.
Proof.
  intros Ha He. unfold process_command.
  by rewrite (sort_texts_permutation _ _ Ha), (sort_permutation _ _ He).
Qed.

Lemma process_command_sorted_any_order_witness :
  @process_command example_re [Str "b"; Str "a"] ["a" +:+ NL; "b" +:+ NL]
    [] true
  = @process_command example_re [Str "a"; Str "b"] ["b" +:+ NL; "a" +:+ NL]
      [] true.
Proof.
  apply (process_command_sorted_any_order (H := example_re)
           [Str "b"; Str "a"] [Str "a"; Str "b"]
           ["a" +:+ NL; "b" +:+ NL] ["b" +:+ NL; "a" +:+ NL] []).
  - apply Permutation_swap.
  - apply Permutation_swap.
Defined.

Lemma fill_left_fst (l : list string) :
  ((fun e => ("", e)) <$> l).*1 = replicate (length l) "".
Proof. induction l as [|e l IH]; [done|]. simpl. f_equal. apply IH. Qed.

Lemma fill_left_snd (l : list string) : ((fun e => ("", e)) <$> l).*2 = l.
Proof. induction l as [|e l IH]; [done|]. simpl. f_equal. apply IH. Qed.

Lemma fill_right_fst (l : list string) : ((fun a => (a, "")) <$> l).*1 = l.
Proof. induction l as [|e l IH]; [done|]. simpl. f_equal. apply IH. Qed.

Lemma fill_right_snd (l : list string) :
  ((fun a => (a, "")) <$> l).*2 = replicate (length l) "".
Proof. induction l as [|e l IH]; [done|]. simpl. f_equal. apply IH. Qed.

Lemma zip_longest_fst (l1 l2 : list string) :
  (zip_longest "" "" l1 l2).*1 = l1 ++ replicate (length l2 - length l1) "".
Proof.
  revert l2. induction l1 as [|a l1 IH]; intros l2.
  - simpl. by rewrite Nat.sub_0_r, fill_left_fst.
  - destruct l2 as [|e l2].
    + change (zip_longest "" "" (a :: l1) [])
        with ((fun a => (a, "")) <$> (a :: l1)).
      rewrite fill_right_fst. simpl. by rewrite app_nil_r.
    + simpl. f_equal. apply IH.
Qed.

Lemma zip_longest_snd (l1 l2 : list string) :
  (zip_longest "" "" l1 l2).*2 = l2 ++ replicate (length l1 - length l2) "".
Proof.
  revert l2. induction l1 as [|a l1 IH]; intros l2.
  - simpl. by rewrite fill_left_snd, app_nil_r.
  - destruct l2 as [|e l2].
    + change (zip_longest "" "" (a :: l1) [])
        with ((fun a => (a, "")) <$> (a :: l1)).
      by rewrite fill_right_snd.
    + simpl. f_equal. apply IH.
Qed.

Lemma process_lines_plain `{Re} pairs out passed :
  Forall (fun ae => endswith (strip_chars NL ae.2) " re" = false) pairs ->
  exists passed',
    process_lines (out, passed) (str_pairs pairs)
    = Some (out ++ (add_newline <$> pairs.*1), passed')
    /\ (passed' = true
        <-> passed = true /\ pairs.*1 = strip_chars NL <$> pairs.*2).
Proof.
  intros Hplain. revert out passed.
  induction Hplain as [|[a e] pairs Hae _ IH]; intros out passed.
  - exists passed. simpl. rewrite app_nil_r. split; [done|]. tauto.
  - change (process_lines (out, passed) (str_pairs ((a, e) :: pairs)))
      with (process_line (out, passed) (Str a, e)
              ≫= fun st => process_lines st (str_pairs pairs)).
    unfold process_line. simpl in Hae. rewrite Hae. simpl.
    destruct (IH (out ++ [a +:+ NL])
                (if String.eqb a (strip_chars NL e) then passed else false))
      as (passed' & -> & Hpassed).
    exists passed'. rewrite <-app_assoc. split; [done|].
    etrans; [exact Hpassed|].
    destruct (String.eqb a (strip_chars NL e)) eqn:Heq.
    + apply String.eqb_eq in Heq. split.
      * intros [Hp Hq]. split; [done|]. f_equal; [done | exact Hq].
      * intros [Hp Hq]. split; [done|]. injection Hq as _ Hq. exact Hq.
    + apply String.eqb_neq in Heq. split; [by intros [? _]|].
      intros [_ Hq]. injection Hq as Hq _. done.
Qed.

(** X11: the comparison without patterns.  On actual lines that are
    [str]s, when no expected line ends in [" re"], process_command does
    not raise; it writes the actual lines, each followed by a newline, and
    an empty line for each expected line beyond the actual ones; and it
    returns True exactly when the actual lines, filled up with empty lines
    to the number of the expected ones, are the expected lines stripped of
    their newlines, filled up likewise.  (With [sort_before] the lines are
    the sorted ones.) *)
Theorem process_command_plain `{Re}
    (actual_output expected_output out : list string) (sort_before : bool) :
  let actual := if sort_before then sort actual_output else actual_output in
  let expected :=
    if sort_before then sort expected_output else expected_output in
  let filled_actual :=
    actual ++ replicate (length expected - length actual) "" in
  let filled_expected :=
    expected ++ replicate (length actual - length expected) "" in
  Forall (fun e => endswith (strip_chars NL e) " re" = false) expected_output ->
  exists passed,
    process_command (Str <$> actual_output) expected_output out sort_before
    = Some (out ++ (add_newline <$> filled_actual), passed)
    /\ (passed = true
        <-> filled_actual = strip_chars NL <$> filled_expected).
Proof.
  intros actual expected filled_actual filled_expected Hplain.
  assert (Forall (fun e => endswith (strip_chars NL e) " re" = false) expected)
    as Hplain'.
  { subst expected. destruct sort_before; [|done].
    unfold sort. by rewrite merge_sort_Permutation. }
  destruct (process_lines_plain (zip_longest "" "" actual expected) out true)
    as (passed & Hrun & Hpassed).
  { apply Forall_forall. intros [a e] Hin. simpl.
    assert (e ∈ (zip_longest "" "" actual expected).*2) as He.
    { apply list_elem_of_fmap. by exists (a, e). }
    rewrite zip_longest_snd in He. apply elem_of_app in He as [He|He].
    - by apply (proj1 (Forall_forall _ _) Hplain').
    - apply elem_of_replicate in He as [-> _]. reflexivity. }
  exists passed.
  assert (process_command (Str <$> actual_output) expected_output out
            sort_before
          = process_lines (out, true)
              (str_pairs (zip_longest "" "" actual expected))) as ->.
  { unfold process_command, actual, expected. destruct sort_before.
    - rewrite sort_texts_Str. simpl. by rewrite zip_longest_Str.
    - simpl. by rewrite zip_longest_Str. }
  rewrite Hrun, zip_longest_fst, zip_longest_snd in *.
  split; [done|]. rewrite Hpassed. tauto.
Qed.

Lemma process_command_plain_witness :
  exists passed,
    @process_command example_re [Str "a"] ["a" +:+ NL; "b" +:+ NL] [] false
    = Some (["a" +:+ NL; NL], passed)
    /\ (passed = true <-> ["a"; ""] = ["a"; "b"]).
Proof.
  apply (process_command_plain (H := example_re)
           ["a"] ["a" +:+ NL; "b" +:+ NL] [] false).
  repeat constructor.
Defined.

(** ** The heredoc *)

Lemma get_cat_input_from_found cat_input before word rest out :
  (word +:+ NL) ∉ before ->
  get_cat_input_from cat_input (before ++ (word +:+ NL) :: rest) word out
  = (cat_input +:+ join before, rest, out ++ before ++ [word +:+ NL]).
Proof.
  revert cat_input out. induction before as [|line before IH];
    intros cat_input out Hnotin; simpl.
  - by rewrite String.eqb_refl, str_app_nil_r.
  - apply not_elem_of_cons in Hnotin as [Hne Hnotin].
    destruct (String.eqb line (word +:+ NL)) eqn:Heq.
    { apply String.eqb_eq in Heq. congruence. }
    rewrite IH by done. rewrite <-app_assoc, str_app_assoc. done.
Qed.

Lemma get_cat_input_from_missing cat_input lines word out :
  (word +:+ NL) ∉ lines ->
  get_cat_input_from cat_input lines word out
  = (cat_input +:+ join lines, [], out ++ lines).
Proof.
  revert cat_input out. induction lines as [|line lines IH];
    intros cat_input out Hnotin; simpl.
  - by rewrite str_app_nil_r, app_nil_r.
  - apply not_elem_of_cons in Hnotin as [Hne Hnotin].
    destruct (String.eqb line (word +:+ NL)) eqn:Heq.
    { apply String.eqb_eq in Heq. congruence. }
    rewrite IH by done. rewrite <-app_assoc, str_app_assoc. done.
Qed.

(** X12: get_cat_input.  It takes the lines up to and with the first line
    that is the terminator word followed by a newline, writes each of them
    to the file, the terminator too, and returns the text of the lines
    before the terminator; without a terminator line it takes and writes
    every line and returns the text of them all.  A line that has the word
    with other text, or without the newline, does not end the input. *)
Theorem get_cat_input_reads (lines : list string) (word : string)
    (out : list string) :
  (forall before rest,
     lines = before ++ (word +:+ NL) :: rest -> (word +:+ NL) ∉ before ->
     get_cat_input lines word out
     = (join before, rest, out ++ before ++ [word +:+ NL]))
  /\ ((word +:+ NL) ∉ lines ->
      get_cat_input lines word out = (join lines, [], out ++ lines)).
Proof.
  unfold get_cat_input. split.
  - intros before rest -> Hnotin. by rewrite get_cat_input_from_found.
  - intros Hnotin. by rewrite get_cat_input_from_missing.
Qed.

Lemma get_cat_input_reads_witness :
  get_cat_input ["a" +:+ NL; "EOF"; "EOF" +:+ NL; "b" +:+ NL] "EOF" []
  = (join ["a" +:+ NL; "EOF"], ["b" +:+ NL],
     [] ++ ["a" +:+ NL; "EOF"] ++ ["EOF" +:+ NL]).
Proof.
  apply (proj1 (get_cat_input_reads
                  ["a" +:+ NL; "EOF"; "EOF" +:+ NL; "b" +:+ NL] "EOF" [])
           ["a" +:+ NL; "EOF"] ["b" +:+ NL]).
  - reflexivity.
  - intros Hin. repeat (apply elem_of_cons in Hin as [[=]|Hin]).
    by apply elem_of_nil in Hin.
Defined.

Lemma split_on_app_nosep sep p r :
  eqb_ascii_in sep p = false ->
  split_on sep (p +:+ r)
  = match split_on sep r with
    | hd :: tl => (p +:+ hd) :: tl
    | [] => [p]
    end.
Proof.
  induction p as [|c p IH]; intros Hp.
  - change ("" +:+ r) with r. pose proof (split_on_nonempty sep r).
    destruct (split_on sep r); [done | reflexivity].
  - simpl in Hp. apply orb_false_iff in Hp as [Hc Hp].
    change (String c p +:+ r) with (String c (p +:+ r)). cbn [split_on].
    rewrite Ascii.eqb_sym, Hc, (IH Hp).
    pose proof (split_on_nonempty sep r).
    by destruct (split_on sep r).
Qed.

Lemma startswith_prefix p r : startswith (p +:+ r) p = true.
Proof.
  induction p as [|c p IH]; [by destruct r|].
  change (String c p +:+ r) with (String c (p +:+ r)). simpl.
  by rewrite Ascii.eqb_refl, IH.
Qed.

(** X13: the heredoc line.  For a line that starts with
    ["$ cat <<EOF | ndcli"], split_cat_command does not raise: the word is
    [EOF] and the command is a dollar sign followed by the text between the
    first and the second bar (or the end of the line), so it starts with
    ["$ ndcli"] and the directive goes to the CLI branch; what follows a
    second bar is dropped. *)
Theorem split_cat_command_heredoc (line : string) :
  startswith line "$ cat <<EOF | ndcli" = true ->
  exists rest piece,
    line = "$ cat <<EOF | ndcli" +:+ rest
    /\ head (split_on "|" rest) = Some piece
    /\ split_cat_command line = Some ("EOF", "$ ndcli" +:+ piece)
    /\ startswith ("$ ndcli" +:+ piece) "$ ndcli" = true.
Proof.
  intros [rest ->]%startswith_app.
  pose proof (split_on_nonempty "|" rest) as Hne.
  destruct (split_on "|" rest) as [|piece tl] eqn:Hsplit; [done|].
  exists rest, piece. split; [done|]. split; [by rewrite Hsplit|].
  split; [|apply startswith_prefix].
  unfold split_cat_command.
  change ("$ cat <<EOF | ndcli" +:+ rest)
    with ("$ cat <<EOF " +:+ String "|" (" ndcli" +:+ rest)).
  rewrite split_on_app_nosep by reflexivity.
  cbn [split_on]. rewrite Ascii.eqb_refl.
  rewrite (split_on_app_nosep "|" " ndcli" rest) by reflexivity.
  rewrite Hsplit. done.
Qed.

Lemma split_cat_command_heredoc_witness :
  exists rest piece,
    "$ cat <<EOF | ndcli import rev-zone | x" +:+ NL
    = "$ cat <<EOF | ndcli" +:+ rest
    /\ head (split_on "|" rest) = Some piece
    /\ split_cat_command ("$ cat <<EOF | ndcli import rev-zone | x" +:+ NL)
       = Some ("EOF", "$ ndcli" +:+ piece)
    /\ startswith ("$ ndcli" +:+ piece) "$ ndcli" = true.
Proof.
  apply (split_cat_command_heredoc
           ("$ cat <<EOF | ndcli import rev-zone | x" +:+ NL)).
  reflexivity.
Defined.

(** ** The expected block *)

Lemma push_back_rev_parts rev_expected lines :
  exists ignorable kept,
    rev_expected = ignorable ++ kept
    /\ Forall (fun e => is_ignorable e = true) ignorable
    /\ (forall e, head kept = Some e -> is_ignorable e = false)
    /\ push_back_rev rev_expected lines
       = (rev kept, (rev ignorable ≫= chars) ++ lines).
Proof.
  revert lines. induction rev_expected as [|e r IH]; intros lines.
  - exists [], []. by repeat split.
  - simpl. destruct (is_ignorable e) eqn:He.
    + destruct (IH (chars e ++ lines))
        as (ignorable & kept & -> & Hign & Hkept & ->).
      exists (e :: ignorable), kept. split; [done|].
      split; [by constructor|]. split; [done|]. f_equal. simpl.
      rewrite bind_app. simpl. by rewrite app_nil_r, <-app_assoc.
    + exists [], (e :: r). split; [done|]. split; [constructor|].
      split; [by intros ? [= <-]|]. done.
Qed.

(** X14: the expected block and the lines left.  The lines after a
    directive split into three parts: the expected block, which has no line
    starting with ["$ "] and does not end in an ignorable line; ignorable
    lines, none starting with ["$ "]; and the rest, which is empty or
    starts with the next line that starts with ["$ "].  The lines left for
    the loop are the characters of the ignorable lines, one element for
    each character, in their order, followed by the rest. *)
Theorem expected_block_parts (lines : list string) :
  exists block ignorable rest,
    lines = block ++ ignorable ++ rest
    /\ expected_block lines = (block, (ignorable ≫= chars) ++ rest)
    /\ Forall (fun line => startswith line "$ " = false) (block ++ ignorable)
    /\ Forall (fun line => is_ignorable line = true) ignorable
    /\ (forall e, last block = Some e -> is_ignorable e = false)
    /\ (forall line, head rest = Some line -> startswith line "$ " = true).
Proof.
  unfold expected_block.
  destruct (collect_expected_spec [] lines)
    as (block0 & rest & -> & -> & Hblock & Hrest).
  simpl. unfold push_back.
  destruct (push_back_rev_parts (rev block0) rest)
    as (ignorable & kept & Hsplit & Hign & Hkept & ->).
  assert (block0 = rev kept ++ rev ignorable) as ->.
  { by rewrite <-(rev_involutive block0), Hsplit, rev_app_distr. }
  exists (rev kept), (rev ignorable), rest.
  split; [by rewrite app_assoc|]. split; [done|]. split; [done|].
  split; [|split; [|done]].
  - apply Forall_forall. intros e He. apply list_elem_of_In, in_rev in He.
    by apply (proj1 (Forall_forall _ _) Hign), list_elem_of_In.
  - intros e He. apply Hkept. destruct kept as [|k kept]; [done|].
    simpl in He. rewrite last_snoc in He. by simplify_eq.
Qed.

(** ** The loop of the driver, in general *)

Lemma prepare_ends `{Collaborators W} pdns_needed auto_pdns_check (w : W) :
  prepare pdns_needed auto_pdns_check w <> OutOfFuel.
Proof.
  unfold prepare, clean_database.
  destruct (if pdns_needed then _ else _) as [w1|]; [|done].
  destruct (clean_commands w1) as [[] w2]; [|done].
  by destruct (_ ≫= _).
Qed.

(** X15: the loop ends.  The push-back can make the list of lines longer,
    yet run_test never uses up the fuel that the model gives its loop: on
    every test file and in every world it returns, raises or leaves the
    program.  Every pass takes a line off, and what the push-back puts in
    front weighs no more than the lines it was taken from. *)
Theorem run_test_terminates `{Collaborators W} (testfile : string)
    (stop_on_error auto_pdns_check : bool) (w : W) :
  run_test testfile stop_on_error auto_pdns_check w <> OutOfFuel.
Proof.
  assert (forall fuel needed auto ls out (w : W),
            weight ls < fuel ->
            run_lines fuel needed stop_on_error auto ls out w <> OutOfFuel)
    as Hloop.
  { clear w. induction fuel as [|fuel IH]; intros needed auto ls out w Hfuel;
      [lia|].
    destruct ls as [|line ls]; [done|].
    rewrite weight_cons in Hfuel. rewrite run_lines_S.
    destruct (heredoc_spec line ls)
      as [Hnone|(line' & cmd_input & consumed & rest & -> & Hheredoc)].
    { by rewrite Hnone. }
    rewrite weight_app in Hfuel. rewrite Hheredoc.
    destruct (startswith line' "$ "); [|apply IH; lia].
    pose proof (expected_block_spec rest) as [_ Hweight].
    destruct (expected_block rest) as [expected_result lines2].
    simpl in Hweight.
    destruct (if startswith line' "$ ndcli" then _ else _)
      as [[[ok out'] w']|]; [|done].
    destruct (stop_on_error && negb ok); [done|]. apply IH. lia. }
  unfold run_test. cbv zeta.
  pose proof (prepare_ends
                (scan_pdns_needed (readlines testfile)
                   (scan_auto_pdns_check (readlines testfile) auto_pdns_check))
                (scan_auto_pdns_check (readlines testfile) auto_pdns_check) w)
    as Hprepare.
  destruct (prepare _ _ w) as [w0| | |]; [|done..].
  match goal with
  | |- context [run_lines ?fuel ?needed _ ?auto ?ls [] w0] =>
      specialize (Hloop fuel needed auto ls [] w0);
      destruct (run_lines fuel needed stop_on_error auto ls [] w0)
        as [[[[returned|] out] w']| | |]
  end; try done.
  exfalso. apply Hloop; [lia | done].
Qed.

Lemma heredoc_plain line lines out :
  startswith line "$ " = false ->
  heredoc line lines out = Some (line, None, lines, out).
Proof.
  intros Hline. unfold heredoc.
  destruct (startswith line "$ cat <<EOF | ndcli") eqn:Hcat; [|done].
  apply startswith_app in Hcat as [rest ->].
  change ("$ cat <<EOF | ndcli" +:+ rest)
    with ("$ " +:+ ("cat <<EOF | ndcli" +:+ rest)) in Hline.
  by rewrite startswith_prefix in Hline.
Qed.

(** The loop on lines none of which starts with ["$ "]: it writes them
    and goes on with the lines after them. *)
Lemma run_lines_plain `{Collaborators W} plain fuel pdns_needed stop_on_error
    auto_pdns_check lines out (w : W) :
  Forall (fun line => startswith line "$ " = false) plain ->
  run_lines (length plain + fuel) pdns_needed stop_on_error auto_pdns_check
    (plain ++ lines) out w
  = run_lines fuel pdns_needed stop_on_error auto_pdns_check lines
      (out ++ plain) w.
Proof.
  intros Hplain. revert out.
  induction Hplain as [|line plain Hline _ IH]; intros out.
  - by rewrite app_nil_r.
  - change (length (line :: plain) + fuel) with (S (length plain + fuel)).
    change ((line :: plain) ++ lines) with (line :: (plain ++ lines)).
    rewrite run_lines_S, heredoc_plain, Hline by done.
    rewrite IH. by rewrite <-app_assoc.
Qed.

Lemma length_le_weight (lines : list string) : length lines <= weight lines.
Proof.
  induction lines as [|line lines IH]; [done|].
  rewrite weight_cons. simpl. lia.
Qed.

(** ** The push-back of the trailing ignorable lines *)

Lemma join_bind_chars (lines : list string) :
  join (lines ≫= chars) = join lines.
Proof.
  induction lines as [|line lines IH]; [done|].
  change ((line :: lines) ≫= chars) with (chars line ++ (lines ≫= chars)).
  by rewrite join_app, join_chars, IH, join_cons.
Qed.

Lemma chars_plain (lines : list string) :
  Forall (fun line => startswith line "$ " = false) (lines ≫= chars).
Proof.
  apply Forall_forall. intros c (line & Hc & _)%list_elem_of_bind.
  revert Hc. clear. induction line as [|a line IH]; simpl.
  - by intros ?%elem_of_nil.
  - intros [->|Hc]%elem_of_cons; [|by apply IH].
    simpl. by rewrite andb_false_r.
Qed.

(** C8: the trailing ignorable lines of an expected block move forward.
    The lines after a directive are the expected block, then ignorable
    lines, then the rest, which is empty or starts with the next
    directive.  The block of the directive is the first part: it does not
    end in an ignorable line, so every trailing ignorable line is left
    out of it.  These lines are put back in front of the rest, their text
    unchanged (as single characters, none of which starts a directive), and
    the loop, going on, writes this text as it is and comes to the rest:
    the lines are written in front of the next directive and belong to
    what comes before its block. *)
Theorem pushback_moves_ignorable_lines `{Collaborators W}
    (lines : list string) :
  exists block ignorable rest,
    lines = block ++ ignorable ++ rest
    /\ Forall (fun line => is_ignorable line = true) ignorable
    /\ (forall e, last block = Some e -> is_ignorable e = false)
    /\ (forall line, head rest = Some line -> startswith line "$ " = true)
    /\ (expected_block lines).1 = block
    /\ join (expected_block lines).2 = join (ignorable ++ rest)
    /\ exists written,
         join written = join ignorable
         /\ forall fuel pdns_needed stop_on_error auto_pdns_check out (w : W),
              run_lines (length written + fuel) pdns_needed stop_on_error
                auto_pdns_check (expected_block lines).2 out w
              = run_lines fuel pdns_needed stop_on_error auto_pdns_check
                  rest (out ++ written) w.
Proof.
  unfold expected_block.
  destruct (collect_expected_spec [] lines)
    as (block0 & rest & -> & -> & Hblock & Hrest).
  simpl. unfold push_back.
  destruct (push_back_rev_parts (rev block0) rest)
    as (ignorable & kept & Hsplit & Hign & Hkept & ->).
  assert (block0 = rev kept ++ rev ignorable) as ->.
  { by rewrite <-(rev_involutive block0), Hsplit, rev_app_distr. }
  exists (rev kept), (rev ignorable), rest. simpl.
  split; [by rewrite app_assoc|]. split.
  { apply Forall_forall. intros e He. apply list_elem_of_In, in_rev in He.
    by apply (proj1 (Forall_forall _ _) Hign), list_elem_of_In. }
  split.
  { intros e He. apply Hkept. destruct kept as [|k kept]; [done|].
    simpl in He. rewrite last_snoc in He. by simplify_eq. }
  split; [done|]. split; [done|].
  split; [by rewrite !join_app, join_bind_chars|].
  exists (rev ignorable ≫= chars). split; [apply join_bind_chars|].
  intros fuel needed stop auto out w.
  apply run_lines_plain, chars_plain.
Qed.

(** X16: a test file without directives.  When no line starts with
    ["$ "] (comments, blank lines, any other text) and the steps before the
    loop succeed, run_test calls neither the CLI nor the shell in its loop
    and writes the lines as it read them, one after the other; it returns
    True exactly when the file has no carriage return (one is read and
    written as a line feed, which [diff] finds). *)
Theorem transcript_without_directives `{Collaborators W}
    (testfile : string) (stop_on_error auto_pdns_check : bool) (w w0 : W) :
  let lines := readlines testfile in
  let checking := scan_auto_pdns_check lines auto_pdns_check in
  Forall (fun line => startswith line "$ " = false) lines ->
  prepare (scan_pdns_needed lines checking) checking w = Ok w0 ->
  run_test testfile stop_on_error auto_pdns_check w
  = Ok (negb (eqb_ascii_in CR testfile), lines)
  /\ forall fuel pdns_needed auto out,
       length lines < fuel ->
       run_lines fuel pdns_needed stop_on_error auto lines out w0
       = Ok (None, out ++ lines, w0).
Proof.
  cbv zeta. intros Hplain Hprepare.
  assert (forall fuel pdns_needed auto out,
            length (readlines testfile) < fuel ->
            run_lines fuel pdns_needed stop_on_error auto (readlines testfile)
              out w0
            = Ok (None, out ++ readlines testfile, w0)) as Hloop.
  { intros fuel needed auto out Hfuel.
    pose proof (run_lines_plain (readlines testfile)
                  (S (fuel - S (length (readlines testfile)))) needed
                  stop_on_error auto [] out w0 Hplain) as Hrun.
    rewrite app_nil_r in Hrun.
    replace (length (readlines testfile)
             + S (fuel - S (length (readlines testfile)))) with fuel
      in Hrun by lia.
    by rewrite Hrun. }
  split; [|done]. unfold run_test. cbv zeta. rewrite Hprepare, Hloop.
  - rewrite app_nil_l. unfold diff. rewrite join_readlines. do 2 f_equal.
    pose proof (universal_newlines_id testfile) as Hid.
    destruct (String.eqb testfile (universal_newlines testfile)) eqn:Heq.
    + apply String.eqb_eq in Heq. symmetry in Heq.
      by rewrite (proj1 Hid Heq).
    + apply String.eqb_neq in Heq.
      destruct (eqb_ascii_in CR testfile); [done|].
      destruct Heq. symmetry. by apply Hid.
  - pose proof (length_le_weight (readlines testfile)). lia.
Qed.

Lemma transcript_without_directives_witness :
  @run_test unit example_world
    ("# a comment" +:+ String CR NL +:+ NL +:+ "text" +:+ NL) true false tt
  = Ok (false, ["# a comment" +:+ NL; NL; "text" +:+ NL]).
Proof.
  apply (transcript_without_directives (H := example_world)
           ("# a comment" +:+ String CR NL +:+ NL +:+ "text" +:+ NL)
           true false tt tt).
  - vm_compute. repeat constructor.
  - reflexivity.
Defined.

(** X17: fail-fast only cuts a run short.  A return from inside the loop
    happens in fail-fast mode only and its value is False; and when
    run_test returns True in fail-fast mode, it returns True with the same
    file written without fail-fast. *)
Theorem fail_fast_only_cuts `{Collaborators W} (testfile : string)
    (auto_pdns_check : bool) (w : W) :
  (forall fuel pdns_needed stop_on_error auto ls out (w1 w' : W) returned out',
     run_lines fuel pdns_needed stop_on_error auto ls out w1
     = Ok (Some returned, out', w')
     -> stop_on_error = true /\ returned = false)
  /\ (forall out,
        run_test testfile true auto_pdns_check w = Ok (true, out) ->
        run_test testfile false auto_pdns_check w = Ok (true, out)).
Proof.
  assert (forall fuel needed stop_on_error auto ls out (w1 w' : W) returned
                 out',
            run_lines fuel needed stop_on_error auto ls out w1
            = Ok (Some returned, out', w')
            -> stop_on_error = true /\ returned = false) as Hearly.
  { induction fuel as [|fuel IH];
      intros needed stop_on_error auto ls out w1 w' returned out'; [done|].
    destruct ls as [|line ls]; [done|]. rewrite run_lines_S.
    destruct (heredoc line ls (out ++ [line]))
      as [[[[line' cmd_input] ls'] out1]|]; [|done].
    destruct (startswith line' "$ "); [|apply IH].
    destruct (expected_block ls') as [expected_result ls2].
    destruct (if startswith line' "$ ndcli" then _ else _)
      as [[[ok out2] w2]|]; [|done].
    destruct stop_on_error; simpl; [|apply IH].
    destruct ok; simpl; [apply IH|]. by intros [= <- <- <-]. }
  assert (forall fuel needed auto ls out (w1 w' : W) out',
            run_lines fuel needed true auto ls out w1 = Ok (None, out', w')
            -> run_lines fuel needed false auto ls out w1
               = Ok (None, out', w'))
    as Hsame.
  { induction fuel as [|fuel IH]; intros needed auto ls out w1 w' out'; [done|].
    destruct ls as [|line ls]; [done|]. rewrite !run_lines_S.
    destruct (heredoc line ls (out ++ [line]))
      as [[[[line' cmd_input] ls'] out1]|]; [|done].
    destruct (startswith line' "$ "); [|apply IH].
    destruct (expected_block ls') as [expected_result ls2].
    destruct (if startswith line' "$ ndcli" then _ else _)
      as [[[ok out2] w2]|]; [|done].
    destruct ok; simpl; [apply IH | done]. }
  split; [exact Hearly|].
  intros out. unfold run_test. cbv zeta.
  destruct (prepare _ _ w) as [w0| | |]; [|done..].
  destruct (run_lines _ _ true _ _ [] w0)
    as [[[[returned|] out'] w']| | |] eqn:Hrun; try done.
  - apply Hearly in Hrun as [_ ->]. done.
  - apply Hsame in Hrun. by rewrite Hrun.
Qed.

(** X18: a CLI directive found ok.  When the branch for a line starting
    with ["$ ndcli"] reports ok, what it wrote to the file is exactly the
    expected block of the directive: the output of match_table was the
    block, and the check of the export, if made, wrote nothing. *)
Theorem run_ndcli_ok_writes_block `{Collaborators W}
    (pdns_needed auto_pdns_check : bool)
    (line : string) (cmd_input : option string)
    (expected_result out out' : list string) (w w' : W) :
  run_ndcli pdns_needed auto_pdns_check line cmd_input expected_result out w
  = Some (true, out', w') ->
  out' = out ++ expected_result.
Proof.
  unfold run_ndcli. intros Hrun.
  apply bind_Some in Hrun as ([result w1] & Hcmd & Hrun). simpl in Hrun.
  destruct (directive_tables line result expected_result)
    as [actual_table expected_table0].
  apply bind_Some in Hrun as (expected_table & Hannot & Hrun).
  apply bind_Some in Hrun as (output & Hmatch & Hrun). simpl in Hrun.
  destruct auto_pdns_check.
  - rewrite check_pdns_output_out in Hrun.
    destruct (check_pdns_output pdns_needed line [] w1)
      as [[[exported diag] w2]|] eqn:Hcheck; [|done].
    simpl in Hrun. destruct exported; simpl in Hrun; [|by simplify_eq].
    apply check_pdns_output_passes in Hcheck as ->.
    case_bool_decide; simplify_eq. by rewrite app_nil_r.
  - case_bool_decide; by simplify_eq.
Qed.

Lemma run_ndcli_ok_writes_block_witness :
  exists w',
    @run_ndcli unit example_world false false
      ("$ ndcli show zone a.de" +:+ NL) None
      ["name: a.de" +:+ NL; "created: 2020-01-01" +:+ NL] ["x"] tt
    = Some (true, ["x"] ++ ["name: a.de" +:+ NL; "created: 2020-01-01" +:+ NL],
            w').
Proof.
  destruct (@run_ndcli unit example_world false false
              ("$ ndcli show zone a.de" +:+ NL) None
              ["name: a.de" +:+ NL; "created: 2020-01-01" +:+ NL] ["x"] tt)
    as [[[ok out'] w']|] eqn:Hrun; [|vm_compute in Hrun; discriminate].
  assert (ok = true) as -> by (vm_compute in Hrun; congruence).
  exists w'. f_equal. f_equal. f_equal.
  exact (run_ndcli_ok_writes_block (H := example_world) false false _ None _
           ["x"] out' tt w' Hrun).
Defined.

Lemma fail_fast_only_cuts_witness :
  @run_test unit example_world example_transcript false false tt
  = Ok (true, ["$ ndcli show zone a.de" +:+ NL; "name: a.de" +:+ NL;
               "created: 2020-01-01" +:+ NL; NL; "#"; " "; "n"; "e"; "x"; "t";
               NL; "$ true" +:+ NL]).
Proof.
  apply (proj2 (fail_fast_only_cuts (H := example_world)
                  example_transcript false tt)).
  vm_compute. reflexivity.
Defined.

(** ** A shell directive *)

Lemma startswith_app_r (s r sub : string) :
  startswith s sub = true -> startswith (s +:+ r) sub = true.
Proof.
  revert s. induction sub as [|a sub IH]; intros s.
  { intros _. by destruct (s +:+ r). }
  destruct s as [|b s]; [done|].
  change (String b s +:+ r) with (String b (s +:+ r)). simpl.
  intros [Hab Hrest]%andb_true_iff. by rewrite Hab, IH.
Qed.

Lemma contains_app_l (s r sub : string) :
  contains s sub = true -> contains (s +:+ r) sub = true.
Proof.
  induction s as [|c s IH].
  - simpl. destruct sub as [|a sub]; [by destruct r|]. done.
  - change (String c s +:+ r) with (String c (s +:+ r)).
    cbn [contains]. intros [Hstart|Hrest]%orb_true_iff.
    + apply orb_true_iff. left.
      by apply (startswith_app_r (String c s) r sub).
    + apply orb_true_iff. right. by apply IH.
Qed.

Lemma contains_app_r (l s sub : string) :
  contains s sub = true -> contains (l +:+ s) sub = true.
Proof.
  intros Hs. induction l as [|c l IH]; [done|].
  change (String c l +:+ s) with (String c (l +:+ s)).
  cbn [contains]. rewrite IH. apply orb_true_r.
Qed.

Lemma lstrip_by_suffix p s : exists l, s = l +:+ lstrip_by p s.
Proof.
  induction s as [|c s [l IH]]; [by exists ""|].
  simpl. destruct (p c).
  - exists (String c l). by rewrite IH at 1.
  - by exists "".
Qed.

Lemma rstrip_by_prefix p s : exists r, s = rstrip_by p s +:+ r.
Proof.
  induction s as [|c s [r IH]]; [by exists ""|].
  simpl. destruct (rstrip_by p s) as [|x t] eqn:Ht.
  - destruct (p c).
    + by exists (String c s).
    + exists s. done.
  - exists r. by rewrite IH at 1.
Qed.

(** What a line holds after stripping, it held before. *)
Lemma contains_strip_by p s sub :
  contains (strip_by p s) sub = true -> contains s sub = true.
Proof.
  unfold strip_by. intros Hsub.
  destruct (lstrip_by_suffix p s) as [l Hl].
  destruct (rstrip_by_prefix p (lstrip_by p s)) as [r Hr].
  rewrite Hl, Hr. by apply contains_app_r, contains_app_l.
Qed.

(** X23: a shell directive that prints.  The lines that the shell returns
    are [bytes]; when there is one at least, the branch of run_test for
    the directive raises, whatever the expected block is: the first line
    can neither be matched with a [str] pattern nor written with a [str]
    newline.  And a resolver query (a line with [dig] or [drill]) raises
    before its command is run whenever the export process is needed,
    which is so for every list of lines that has the line of the
    query. *)
Theorem shell_directive_raises `{Collaborators W} (pdns_needed : bool)
    (line : string) (expected_result out : list string) (w : W) :
  (forall result w1,
     shell_call pdns_needed line w = Some (result, w1) -> result <> [] ->
     run_shell pdns_needed line expected_result out w = None)
  /\ (is_pdns_query (strip_chars NL line) = true ->
      (pdns_needed = true ->
       run_shell pdns_needed line expected_result out w = None)
      /\ forall lines auto_pdns_check,
           line ∈ lines -> scan_pdns_needed lines auto_pdns_check = true).
Proof.
  split.
  - intros result w1. apply run_shell_raises.
  - intros Hquery. split.
    + intros ->. unfold run_shell. cbv zeta. by rewrite Hquery.
    + intros lines auto Hin. unfold scan_pdns_needed.
      apply orb_true_iff. left. apply existsb_exists. exists line.
      split; [by apply list_elem_of_In|].
      unfold is_pdns_query in Hquery.
      apply orb_true_iff in Hquery as [Hdig|Hdrill].
      * apply orb_true_iff. right. by eapply contains_strip_by.
      * apply orb_true_iff. left. by eapply contains_strip_by.
Qed.

(** ** run_command *)

Lemma index_first x before after :
  x ∉ before -> RunCommand.index x (before ++ x :: after) = Some (length before).
Proof.
  induction before as [|y before IH]; intros Hnotin; simpl.
  - by rewrite String.eqb_refl.
  - apply not_elem_of_cons in Hnotin as [Hne Hnotin].
    destruct (String.eqb y x) eqn:Heq.
    { apply String.eqb_eq in Heq. congruence. }
    by rewrite IH.
Qed.

Lemma split_redirection_first before after :
  ">" ∉ before ->
  RunCommand.split_redirection (before ++ ">" :: after)
  = match after with
    | redir_out :: _ => Some (before, Some redir_out)
    | [] => None
    end.
Proof.
  intros Hnotin. unfold RunCommand.split_redirection.
  rewrite bool_decide_eq_true_2 by set_solver.
  rewrite index_first by done. simpl.
  rewrite lookup_app_r by lia.
  replace (length before + 1 - length before) with 1 by lia.
  destruct after as [|redir_out after]; simpl; [done|].
  by rewrite take_app_length.
Qed.

(** X19: the redirection of run_command.  Without a word [>] the CLI gets
    all the words of the command and run_command returns what it printed,
    the standard output followed by the standard error.  With a word [>],
    the CLI gets the words before the first one only; when a file name
    follows that is not empty, the standard output goes to the file and
    only the standard error is returned; when the file name is the empty
    word, nothing is written and both outputs are returned; when no word
    follows, run_command raises before the CLI is called. *)
Theorem run_command_redirection `{RunCommand.Shell W} (line : string)
    (cmd_input : option string) (w : W) (cmd : list string) :
  RunCommand.shlex_split (str_drop 7 line) = Some cmd ->
  ((">" ∉ cmd) ->
   RunCommand.run_command line cmd_input w
   = '(out, err, w1) ← RunCommand.ndcli cmd cmd_input w;
     Some (out +:+ err, w1))
  /\ (forall before redir_out after,
        cmd = before ++ ">" :: redir_out :: after -> ">" ∉ before ->
        RunCommand.run_command line cmd_input w
        = '(out, err, w1) ← RunCommand.ndcli before cmd_input w;
          if String.eqb redir_out "" then Some (out +:+ err, w1)
          else w2 ← RunCommand.write_file redir_out out w1; Some (err, w2))
  /\ (forall before,
        cmd = before ++ [">"] -> ">" ∉ before ->
        RunCommand.run_command line cmd_input w = None).
Proof.
  intros Hsplit. unfold RunCommand.run_command. rewrite Hsplit. simpl.
  split; [|split].
  - intros Hnotin. unfold RunCommand.split_redirection.
    rewrite bool_decide_eq_false_2 by done. simpl.
    destruct (RunCommand.ndcli cmd cmd_input w) as [[[out err] w1]|]; done.
  - intros before redir_out after -> Hnotin.
    rewrite split_redirection_first by done. simpl.
    destruct (RunCommand.ndcli before cmd_input w) as [[[out err] w1]|];
      [|done].
    simpl. destruct (String.eqb redir_out ""); simpl; [done|].
    by destruct (RunCommand.write_file redir_out out w1).
  - intros before -> Hnotin. by rewrite split_redirection_first.
Qed.

Lemma run_command_redirection_witness :
  RunCommand.run_command (H := example_shell)
    "$ ndcli list zones > zones.txt" None []
  = Some ("warning", [("zones.txt", "listzones")]).
Proof.
  destruct (run_command_redirection (H := example_shell)
              "$ ndcli list zones > zones.txt" None []
              ["list"; "zones"; ">"; "zones.txt"] eq_refl) as (_ & Hredir & _).
  rewrite (Hredir ["list"; "zones"] "zones.txt" [] eq_refl); [done|].
  apply (bool_decide_eq_false_1 (">" ∈ ["list"; "zones"])).
  vm_compute. reflexivity.
Defined.

(** ** The main program *)

Lemma bool_decide_elem_of_cons (x a : string) (l : list string) :
  bool_decide (x ∈ a :: l) = String.eqb a x || bool_decide (x ∈ l).
Proof.
  destruct (String.eqb a x) eqn:Heq; simpl.
  - apply String.eqb_eq in Heq as ->. apply bool_decide_eq_true_2.
    apply elem_of_cons. by left.
  - apply String.eqb_neq in Heq. apply bool_decide_ext.
    rewrite elem_of_cons. intuition congruence.
Qed.

Lemma parse_args_from (o : Main.options) (argv : list string) :
  let o' := foldl Main.parse_arg o argv in
  Main.stop_on_error o' = Main.stop_on_error o || bool_decide ("-x" ∈ argv)
  /\ Main.auto_pdns_check o'
     = Main.auto_pdns_check o || bool_decide ("-p" ∈ argv)
  /\ Main.run_diff o' = Main.run_diff o || bool_decide ("-d" ∈ argv)
  /\ Main.tests o'
     = Main.tests o ++ filter (fun a => a ∉ ["-x"; "-p"; "-d"]) argv.
Proof.
  revert o. induction argv as [|a argv IH]; intros o.
  - cbn [foldl]. rewrite !orb_false_r, app_nil_r. done.
  - cbn [foldl]. destruct (IH (Main.parse_arg o a)) as (Hx & Hp & Hd & Ht).
    rewrite Hx, Hp, Hd, Ht. clear IH Hx Hp Hd Ht.
    rewrite !bool_decide_elem_of_cons.
    unfold Main.parse_arg.
    destruct (String.eqb a "-x") eqn:Ex.
    { apply String.eqb_eq in Ex as ->.
      rewrite filter_cons_False by (intros Hout; apply Hout; repeat constructor).
      cbn. rewrite !orb_true_r. done. }
    destruct (String.eqb a "-p") eqn:Ep.
    { apply String.eqb_eq in Ep as ->.
      rewrite filter_cons_False by (intros Hout; apply Hout; repeat constructor).
      cbn. rewrite !orb_true_r. done. }
    destruct (String.eqb a "-d") eqn:Ed.
    { apply String.eqb_eq in Ed as ->.
      rewrite filter_cons_False by (intros Hout; apply Hout; repeat constructor).
      cbn. rewrite !orb_true_r. done. }
    apply String.eqb_neq in Ex, Ep, Ed.
    rewrite filter_cons_True
      by (rewrite !not_elem_of_cons; repeat split; [done..|apply not_elem_of_nil]).
    cbn. rewrite <- app_assoc. done.
Qed.

(** X20: the arguments of the script.  Each of the options [-x], [-p] and
    [-d] is set exactly when it occurs among the arguments, wherever it
    stands and however often; every other argument is the name of a test,
    and the tests keep the order of the arguments.  When no test is named,
    the tests to run are the files of the directory of the tests, each one
    once for each time it is listed, in sorted order. *)
Theorem parse_args_spec (argv listdir : list string) :
  let o := Main.parse_args argv in
  Main.stop_on_error o = bool_decide ("-x" ∈ argv)
  /\ Main.auto_pdns_check o = bool_decide ("-p" ∈ argv)
  /\ Main.run_diff o = bool_decide ("-d" ∈ argv)
  /\ Main.tests o = filter (fun a => a ∉ ["-x"; "-p"; "-d"]) argv
  /\ (Main.tests o <> [] -> Main.tests_to_run o listdir = Main.tests o)
  /\ (Main.tests o = [] ->
      Main.tests_to_run o listdir ≡ₚ listdir
      /\ Sorted String.le (Main.tests_to_run o listdir)).
Proof.
  destruct (parse_args_from
              {| Main.stop_on_error := false; Main.auto_pdns_check := false;
                 Main.run_diff := false; Main.tests := [] |} argv)
    as (Hx & Hp & Hd & Ht).
  simpl in *. unfold Main.parse_args.
  split; [done|]. split; [done|]. split; [done|]. split; [done|].
  unfold Main.tests_to_run. split.
  - intros Hne. by destruct (Main.tests _).
  - intros ->. unfold sort. split.
    + apply merge_sort_Permutation.
    + apply Sorted_merge_sort. apply _.
Qed.

Lemma failures_app (l1 l2 : list (string * bool)) :
  failures (l1 ++ l2) = failures l1 ++ failures l2.
Proof. unfold failures. by rewrite filter_app, fmap_app. Qed.

Lemma failures_cons (test : string) (ok : bool) (l : list (string * bool)) :
  failures ((test, ok) :: l) = if ok then failures l else test :: failures l.
Proof. unfold failures. rewrite filter_cons. by destruct ok. Qed.

Lemma last_cons_default {A} (x : A) (l : list A) :
  last (x :: l) = Some (default x (last l)).
Proof.
  revert x. induction l as [|y l IH]; intros x; [done|].
  change (last (x :: y :: l)) with (last (y :: l)). rewrite IH.
  by destruct l.
Qed.

(** The loop over the tests, from any state of it. *)
Lemma run_tests_spec {W} (run_one : string -> bool -> bool -> W -> Main.ran W)
    (o : Main.options) (single : bool) (todo : list string)
    (st0 : Main.progress W) :
  let st := (Main.run_tests run_one o single todo st0).1 in
  let exited := (Main.run_tests run_one o single todo st0).2 in
  exists shown,
    Main.printed st = Main.printed st0 ++ shown
    /\ shown.*1 `prefix_of` todo
    /\ Main.failed st = Main.failed st0 + length (failures shown)
    /\ (exited = true -> length shown < length todo)
    /\ (exited = false -> Main.stop_on_error o = false -> shown.*1 = todo)
    /\ (Main.stop_on_error o = true ->
        (failures shown = [] /\ (exited = false -> shown.*1 = todo))
        \/ (exited = false
            /\ exists passed test,
                 shown = passed ++ [(test, false)] /\ failures passed = []))
    /\ (Main.diff_left st, Main.diff_right st)
       = match last (failures shown) with
         | Some test =>
             if Main.stop_on_error o || single
             then (Main.outfile test, Main.testfile test)
             else (Main.diff_left st0, Main.diff_right st0)
         | None => (Main.diff_left st0, Main.diff_right st0)
         end.
Proof.
  cbv zeta. revert st0. induction todo as [|test todo IH]; intros st0.
  - exists []. cbn [Main.run_tests fst snd]. rewrite app_nil_r.
    split; [done|]. split; [done|]. split; [simpl; lia|]. split; [done|].
    split; [done|]. split; [by left|done].
  - cbn [Main.run_tests].
    destruct (run_one test (Main.stop_on_error o) (Main.auto_pdns_check o)
                (Main.world st0)) as [ok w|].
    2:{ exists []. cbn [fst snd]. rewrite app_nil_r.
        split; [done|]. split; [apply prefix_nil|]. split; [simpl; lia|].
        split; [simpl; lia|]. split; [done|]. split; [by left|done]. }
    destruct ok.
    + match goal with |- context [Main.run_tests _ _ _ _ ?st] =>
        destruct (IH st)
          as (shown & Hp & Hpre & Hf & Hexit & Hall & Hstop & Hdiff)
      end.
      cbn [Main.printed Main.failed Main.diff_left Main.diff_right] in *.
      exists ((test, true) :: shown). rewrite failures_cons.
      split; [by rewrite Hp, <- app_assoc|].
      split; [by apply prefix_cons|]. split; [done|].
      split; [intros He; specialize (Hexit He); simpl; lia|].
      split; [intros He Hno; by rewrite fmap_cons, (Hall He Hno)|].
      split; [|done].
      intros [[Hnone Heq]|(He & passed & t & -> & Hnone)]%Hstop.
      * left. split; [done|]. intros He. by rewrite fmap_cons, (Heq He).
      * right. split; [done|]. exists ((test, true) :: passed), t.
        by rewrite failures_cons.
    + destruct (Main.stop_on_error o) eqn:Hx.
      * exists [(test, false)]. simpl.
        split; [done|]. split; [by apply prefix_cons, prefix_nil|].
        split; [lia|]. split; [done|]. split; [done|]. split; [|done].
        intros _. right. split; [done|]. by exists [], test.
      * match goal with |- context [Main.run_tests _ _ _ _ ?st] =>
          destruct (IH st)
            as (shown & Hp & Hpre & Hf & Hexit & Hall & _ & Hdiff)
        end.
        rewrite orb_false_l in *.
        exists ((test, false) :: shown). rewrite failures_cons.
        split.
        { rewrite Hp. destruct single; simpl; by rewrite <- app_assoc. }
        split; [by apply prefix_cons|].
        split.
        { rewrite Hf. destruct single; simpl; lia. }
        split; [intros He; specialize (Hexit He); simpl; lia|].
        split; [intros He _; by rewrite fmap_cons, (Hall He)|].
        split; [done|].
        rewrite Hdiff, last_cons_default.
        destruct (last (failures shown)); simpl; by destruct single.
Qed.



(** ** Lines that are skipped *)

Lemma lstrip_by_empty p s :
  lstrip_by p s = "" <-> Forall (fun c => p c = true) (list_ascii_of_string s).
Proof.
  induction s as [|c s IH]; simpl.
  - split; [constructor|done].
  - destruct (p c) eqn:Hc.
    + rewrite IH. split; [by constructor|by inversion 1].
    + split; [done|]. inversion 1; congruence.
Qed.

Lemma strip_by_empty p s :
  strip_by p s = "" <-> Forall (fun c => p c = true) (list_ascii_of_string s).
Proof.
  rewrite <- lstrip_by_empty. unfold strip_by.
  destruct (lstrip_by p s) as [|c r] eqn:Hl; [done|].
  apply lstrip_by_head in Hl.
  destruct (rstrip_by_keeps_head p c r Hl) as [r' ->]. done.
Qed.

(** X5: the lines that are skipped.  A line is ignorable exactly when all
    its characters are white space (the empty line too), or when its first
    character is [#]; a line that starts with white space and has a [#]
    further on is not ignorable. *)
Theorem is_ignorable_spec (line : string) :
  (is_ignorable line = true
   <-> Forall (fun c => is_space c = true) (list_ascii_of_string line)
       \/ exists rest, line = String "#" rest)
  /\ (forall c before after,
        is_space c = true ->
        is_ignorable (String c (before +:+ String "#" after)) = false).
Proof.
  split.
  - unfold is_ignorable. rewrite orb_true_iff, Nat.eqb_eq.
    rewrite <- (strip_by_empty is_space line). fold (strip line).
    assert (len (strip line) = 0 <-> strip line = "") as ->.
    { by destruct (strip line). }
    assert (startswith line "#" = true <-> exists rest, line = String "#" rest)
      as ->; [|done].
    destruct line as [|a rest]; cbn [startswith].
    + split; [done|]. by intros [? ?].
    + assert (startswith rest "" = true) as -> by by destruct rest.
      rewrite andb_true_r. split.
      * intros ->%Ascii.eqb_eq. by eexists.
      * intros [? [= <- _]]. apply Ascii.eqb_refl.
  - intros c before after Hc. unfold is_ignorable. apply orb_false_iff. split.
    + apply Nat.eqb_neq. intros Hlen.
      assert (strip (String c (before +:+ String "#" after)) = "")
        as Hempty.
      { by destruct (strip _). }
      apply strip_by_empty in Hempty.
      assert ("#"%char
              ∈ list_ascii_of_string (String c (before +:+ String "#" after)))
        as Hin.
      { simpl. right. clear. induction before as [|x before IH]; simpl.
        - by left.
        - by right. }
      rewrite Forall_forall in Hempty. apply Hempty in Hin. done.
    + cbn [startswith]. apply andb_false_iff. left.
      apply Ascii.eqb_neq. intros <-. done.
Qed.
